(** * zmk-locale-generator: the codepoint registry synchronisation

    A shallow embedding of [zmk_locale_generator/update_codepoints.py]:
    the block lookup, the sorted insertion and removal that reconcile the
    registry with the used codepoints, the comment pass and the textual
    post-processing of the dumped document.

    Conventions of the embedding.
    - A codepoint is a one-character Python [str]; such strings compare by
      their scalar value, so a codepoint is the number [ord(c)] in [N].
    - A Python [str] that is a text (a line, a comment) is the list of its
      code points.
    - A [CommentedMap] is an insertion-ordered dictionary: an association
      list in key order.  A dictionary has no duplicate keys: on lists
      without duplicate keys the operations below are those of the
      dictionary; the statements hold for every list, except where they
      ask for groups that hold each key once.
    - The registry ([CommentedSeq] of [CommentedMap]) is mutated in place.
      The functions below thread it explicitly and return the registry as
      the call leaves it together with the outcome of the call, so that
      the state left behind by a raised exception is part of the model.
      A group handed out by [find_block] is a reference into the
      registry: it is modelled by its index. *)

From stdpp Require Import base numbers list sorting strings gmap.

Set Default Proof Using "Type".
Local Open Scope N_scope.

(** ** Exceptions and outcomes *)

Inductive exn : Set :=
  | StopIteration   (* next() on an exhausted generator *)
  | IndexError      (* list(...)[0] on an empty list *)
  | KeyError        (* item[c] for a missing key *)
  | TypeError       (* ord() of something that is not one character *)
  | YAMLError.      (* yaml.load on text that is not a document *)

Inductive result (A : Type) : Type :=
  | Ok (a : A)
  | Raise (e : exn).
Arguments Ok {A} a.
Arguments Raise {A} e.

Definition result_bind {A B} (m : result A) (k : A → result B) : result B :=
  match m with
  | Ok a => k a
  | Raise e => Raise e
  end.

Notation "'let!' x ':=' m 'in' k" := (result_bind m (λ x, k))
  (at level 10, x pattern, m at level 100, k at level 200).

Definition raises {A} (m : result A) : Prop := ∃ e, m = Raise e.

(** ** Data model *)

Abbreviation Codepoint := N (only parsing).
Abbreviation str := (list N) (only parsing).

(** A literal of the source as a [str]. *)
Definition lit (s : string) : str :=
  (λ a, Ascii.N_of_ascii a) <$> String.list_ascii_of_string s.

Record UnicodeBlock : Type := mkUnicodeBlock {
  start : Codepoint;
  end_ : Codepoint;
  name : str;
}.

(** The value stored for a codepoint: one name or a list of names. *)
Inductive NameValue : Type :=
  | Name (s : str)
  | Names (l : list str).

Abbreviation CodepointNames := (list (Codepoint * NameValue)) (only parsing).
Abbreviation CodepointNamesRaw := (list CodepointNames) (only parsing).

(** [map.keys()] *)
Definition keys (m : CodepointNames) : list Codepoint := m.*1.

(** All keys of the registry, group after group. *)
Definition all_keys (codepoints : CodepointNamesRaw) : list Codepoint :=
  mjoin (keys <$> codepoints).

(** All entries of the registry, group after group. *)
Definition entries (codepoints : CodepointNamesRaw) : list (Codepoint * NameValue) :=
  mjoin codepoints.

(** ** upper_bound *)

(** [upper_bound(seq, val, gt)]: the index of the first item of [seq] for
    which [gt(item, val)] holds, [len(seq)] when there is none.  The
    comparison may raise ([compare_blocks] calls [first_key]). *)
Fixpoint upper_bound {A B} (gt : A → B → result bool) (seq : list A) (val : B)
    : result nat :=
  match seq with
  | [] => Ok 0%nat
  | x :: rest =>
      let! b := gt x val in
      if b : bool then Ok 0%nat
      else let! i := upper_bound gt rest val in Ok (S i)
  end.

(** The default comparison, [lambda a, b: a > b]. *)
Definition gt_default (a b : Codepoint) : result bool := Ok (b <? a).

(** ** Block lookup *)

(** [c >= block.start and c <= block.end] *)
Definition in_block (c : Codepoint) (block : UnicodeBlock) : bool :=
  (start block <=? c) && (c <=? end_ block).

(** [next(block for block in blocks if c >= block.start and c <= block.end)] *)
Fixpoint codepoint_to_block (c : Codepoint) (blocks : list UnicodeBlock)
    : result UnicodeBlock :=
  match blocks with
  | [] => Raise StopIteration
  | block :: rest =>
      if in_block c block then Ok block else codepoint_to_block c rest
  end.

(** [list(map.keys())[0]] *)
Definition first_key (map : CodepointNames) : result Codepoint :=
  match keys map with
  | [] => Raise IndexError
  | k :: _ => Ok k
  end.

(** The generator expression of [find_block],
    [next(b for b in codepoints if block.start <= first_key(b) <= block.end)]:
    [Ok (Some i)] is the group found, as its index; [Ok None] is the
    [StopIteration] that the [except] clause handles; an [IndexError] of
    [first_key] is not handled and leaves [find_block]. *)
Fixpoint find_group (codepoints : CodepointNamesRaw) (block : UnicodeBlock)
    : result (option nat) :=
  match codepoints with
  | [] => Ok None
  | b :: rest =>
      let! k := first_key b in
      if in_block k block then Ok (Some 0%nat)
      else let! o := find_group rest block in Ok (S <$> o)
  end.

Definition compare_blocks (a : CodepointNames) (b : UnicodeBlock) : result bool :=
  let! k := first_key a in Ok (end_ b <? k).

(** [list.insert(index, item)] for [index <= len(list)]. *)
Definition list_insert_at {A} (index : nat) (item : A) (l : list A) : list A :=
  take index l ++ item :: drop index l.

(** [find_block(codepoints, block)]: the registry after the call and the
    index of the group returned.  The call raises before it mutates
    anything, so a raised exception leaves the registry as it was. *)
Definition find_block (codepoints : CodepointNamesRaw) (block : UnicodeBlock)
    : result (CodepointNamesRaw * nat) :=
  let! o := find_group codepoints block in
  match o with
  | Some i => Ok (codepoints, i)
  | None =>
      let! index := upper_bound compare_blocks codepoints block in
      Ok (list_insert_at index [] codepoints, index)
  end.

(** ** Reconciliation *)

(** [del block[c]] *)
Definition del (c : Codepoint) (block : CodepointNames) : CodepointNames :=
  filter (λ kv, kv.1 ≠ c) block.

(** The inner loop of [remove_unused_codepoints]: it runs over a snapshot
    of the keys and deletes from the live dictionary. *)
Definition remove_unused_block (used : list Codepoint) (block : CodepointNames)
    : CodepointNames :=
  foldl (λ b c, if bool_decide (c ∈ used) then b else del c b) block (keys block).

Definition remove_unused_codepoints (codepoints : CodepointNamesRaw)
    (used : list Codepoint) : CodepointNamesRaw :=
  remove_unused_block used <$> codepoints.

(** One iteration of the loop of [add_new_codepoint_placeholders]. *)
Definition add_placeholder (codepoints : CodepointNamesRaw)
    (blocks : list UnicodeBlock) (c : Codepoint)
    : CodepointNamesRaw * result unit :=
  match codepoint_to_block c blocks with
  | Raise e => (codepoints, Raise e)
  | Ok blk =>
      match find_block codepoints blk with
      | Raise e => (codepoints, Raise e)
      | Ok (codepoints', i) =>
          let block := default [] (codepoints' !! i) in
          if bool_decide (c ∈ keys block) then (codepoints', Ok ())
          else
            match upper_bound gt_default (keys block) c with
            | Raise e => (codepoints', Raise e)
            | Ok pos =>
                (<[i := list_insert_at pos (c, Name []) block]> codepoints', Ok ())
            end
      end
  end.

Fixpoint add_new_codepoint_placeholders (codepoints : CodepointNamesRaw)
    (blocks : list UnicodeBlock) (used : list Codepoint)
    : CodepointNamesRaw * result unit :=
  match used with
  | [] => (codepoints, Ok ())
  | c :: rest =>
      match add_placeholder codepoints blocks c with
      | (codepoints', Ok _) => add_new_codepoint_placeholders codepoints' blocks rest
      | (codepoints', Raise e) => (codepoints', Raise e)
      end
  end.

(** The two reconciliation calls of [update_codepoints], in their order. *)
Definition reconcile (codepoints : CodepointNamesRaw)
    (blocks : list UnicodeBlock) (used : list Codepoint)
    : CodepointNamesRaw * result unit :=
  add_new_codepoint_placeholders (remove_unused_codepoints codepoints used) blocks used.

(** ** The comment pass *)

(** What [yaml.load] makes of a text: a string, or a value of another
    type. *)
Inductive yaml_value : Type :=
  | YStr (s : str)
  | YOther.

(** The functions that the module takes from elsewhere: the sibling module
    [codepoints] ([is_visible_character]), the Unicode tables of the
    Python runtime ([unicodedata.name], where [None] stands for the
    [ValueError] of a codepoint without a name; [str.upper]; the class
    [\w] of [re]) and the YAML parser ([yaml.load]). *)
Class Externals : Type := {
  is_visible_character : Codepoint → bool;
  unicodedata_name : Codepoint → option str;
  str_upper : str → str;
  is_word : N → bool;
  yaml_load : str → result yaml_value;
}.

(** The calls that the comment pass makes on the registry: on the sequence
    ([yaml_set_comment_before_after_key(i, before=...)]) and on its item
    [i] ([yaml_add_eol_comment(comment, key=c)]). *)
Inductive comment_call : Type :=
  | set_comment_before (i : nat) (before : str)
  | add_eol_comment (i : nat) (comment : str) (key : Codepoint).

(** [sep.join(parts)] *)
Fixpoint str_join (sep : str) (parts : list str) : str :=
  match parts with
  | [] => []
  | [p] => p
  | p :: rest => p ++ sep ++ str_join sep rest
  end.

(** [item[c]] *)
Fixpoint getitem (item : CodepointNames) (c : Codepoint) : result NameValue :=
  match item with
  | [] => Raise KeyError
  | (k, v) :: rest => if k =? c then Ok v else getitem rest c
  end.

(** The truth value of a stored value: an empty string and an empty list
    are false. *)
Definition truthy (v : NameValue) : bool :=
  match v with
  | Name [] | Names [] => false
  | _ => true
  end.

(** [re.sub(r"[^\w]+", "_", s)]: every maximal run of characters outside
    [\w] becomes one underscore; [in_run] tells that the run at hand has
    been replaced already. *)
Fixpoint sub_nonword `{Externals} (in_run : bool) (s : str) : str :=
  match s with
  | [] => []
  | x :: rest =>
      if is_word x then x :: sub_nonword false rest
      else if in_run then sub_nonword true rest
      else 95 :: sub_nonword true rest
  end.

(** The generator [get_char_comments(item, c)], as the list of what it
    yields. *)
Definition get_char_comments `{Externals} (item : CodepointNames) (c : Codepoint)
    : result (list str) :=
  let first := if is_visible_character c then [c] else lit "(non-printable)" in
  let! v := getitem item c in
  if negb (truthy v) then
    match unicodedata_name c with
    | Some n => Ok [first; sub_nonword false (str_upper n)]
    | None => Ok [first]
    end
  else Ok [first].

(** The inner loop of [add_codepoint_comments], over the keys [ks] of the
    item at index [i]. *)
Fixpoint add_item_comments `{Externals} (i : nat) (item : CodepointNames)
    (ks : list Codepoint) : list comment_call * result unit :=
  match ks with
  | [] => ([], Ok ())
  | c :: rest =>
      match get_char_comments item c with
      | Raise e => ([], Raise e)
      | Ok parts =>
          let comment := str_join (lit " ") parts in
          let call :=
            match comment with
            | [] => []
            | _ => [add_eol_comment i (lit "# " ++ comment) c]
            end in
          let '(calls, out) := add_item_comments i item rest in
          (call ++ calls, out)
      end
  end.

(** The outer loop of [add_codepoint_comments], from index [i] on. *)
Fixpoint add_codepoint_comments_from `{Externals} (i : nat)
    (codepoints : CodepointNamesRaw) (blocks : list UnicodeBlock)
    : list comment_call * result unit :=
  match codepoints with
  | [] => ([], Ok ())
  | item :: rest =>
      match (let! k := first_key item in codepoint_to_block k blocks) with
      | Raise e => ([], Raise e)
      | Ok block =>
          let heading := set_comment_before i (10 :: name block) in
          match add_item_comments i item (keys item) with
          | (calls, Raise e) => (heading :: calls, Raise e)
          | (calls, Ok _) =>
              let '(calls', out) := add_codepoint_comments_from (S i) rest blocks in
              (heading :: calls ++ calls', out)
          end
      end
  end.

Definition add_codepoint_comments `{Externals} (codepoints : CodepointNamesRaw)
    (blocks : list UnicodeBlock) : list comment_call * result unit :=
  add_codepoint_comments_from 0 codepoints blocks.

(** The in-memory part of [update_codepoints]: the three passes over the
    registry, given the block table, the loaded registry and the used
    codepoints.  It returns the registry and the comment calls made, with
    the outcome. *)
Definition update_codepoints `{Externals} (codepoints : CodepointNamesRaw)
    (blocks : list UnicodeBlock) (used : list Codepoint)
    : CodepointNamesRaw * list comment_call * result unit :=
  match reconcile codepoints blocks used with
  | (codepoints', Raise e) => (codepoints', [], Raise e)
  | (codepoints', Ok _) =>
      let '(calls, out) := add_codepoint_comments codepoints' blocks in
      (codepoints', calls, out)
  end.

(** ** The textual post-processing *)

(** The line boundaries of [str.splitlines]. *)
Definition is_linebreak (x : N) : bool :=
  bool_decide (x ∈ [10; 11; 12; 13; 28; 29; 30; 133; 8232; 8233]).

(** [text.splitlines()]: the lines without their boundaries, a carriage
    return and a line feed in a row being one boundary; [cur] holds the
    line at hand, last character first. *)
Fixpoint splitlines_from (cur : str) (text : str) : list str :=
  match text with
  | [] => match cur with [] => [] | _ => [reverse cur] end
  | x :: rest =>
      if is_linebreak x then
        reverse cur ::
          match rest with
          | y :: rest' =>
              if (x =? 13) && (y =? 10) then splitlines_from [] rest'
              else splitlines_from [] rest
          | [] => splitlines_from [] rest
          end
      else splitlines_from (x :: cur) rest
  end.

Definition splitlines (text : str) : list str := splitlines_from [] text.

Definition starts_with (pat s : str) : bool :=
  bool_decide (take (length pat) s = pat).

Definition is_quote (x : N) : bool := (x =? 34) || (x =? 39).

(** The greedy [.+] of [KEY_RE] in front of the rest of the pattern,
    [tail_ok]: the greatest number of characters, at least one and none a
    line feed, after which the rest of the pattern matches. *)
Fixpoint dot_plus (tail_ok : str → bool) (s : str) : option nat :=
  match s with
  | [] => None
  | x :: rest =>
      if x =? 10 then None
      else match dot_plus tail_ok rest with
           | Some n => Some (S n)
           | None => if tail_ok rest then Some 1%nat else None
           end
  end.

(** [KEY_RE.search(line)], as the text before the match, group 1 and the
    text after the match.  The lookbehind [(?<=^(?:- |  ))] fixes the start
    of the match at the third character of a line that begins with ["- "]
    or two spaces; group 2 takes a quote when that leads to a match and is
    empty otherwise; the lookahead wants a colon. *)
Definition key_re_search (line : str) : option (str * str * str) :=
  match line with
  | p0 :: p1 :: rest =>
      if ((p0 =? 45) || (p0 =? 32)) && (p1 =? 32) then
        let unquoted := dot_plus (starts_with [58]) rest in
        let len :=
          match rest with
          | q :: rest' =>
              if is_quote q then
                match dot_plus (starts_with [q; 58]) rest' with
                | Some n => Some (S (S n))
                | None => unquoted
                end
              else unquoted
          | [] => None
          end in
        (λ n, ([p0; p1], take n rest, drop n rest)) <$> len
      else None
  | _ => None
  end.

(** [ord(c)] of what [yaml.load] returned. *)
Definition ord (v : yaml_value) : result N :=
  match v with
  | YStr [c] => Ok c
  | _ => Raise TypeError
  end.

Definition hex_digit (d : N) : N := if d <? 10 then 48 + d else 55 + d.

Fixpoint hex_digits (fuel : nat) (n : N) : str :=
  match fuel with
  | O => []
  | S fuel' =>
      if n =? 0 then [] else hex_digits fuel' (n / 16) ++ [hex_digit (n mod 16)]
  end.

(** [f"{n:04X}"]: uppercase hexadecimal, padded with zeros to four digits. *)
Definition format_04X (n : N) : str :=
  let digits := hex_digits (N.to_nat (N.size n)) n in
  replicate (4 - length digits) 48 ++ digits.

(** [escape_key(match)], from group 1 of the match. *)
Definition escape_key `{Externals} (group1 : str) : result str :=
  let! c := yaml_load group1 in
  let! n := ord c in
  Ok ([34; 92; 117] ++ format_04X n ++ [34]).

(** [KEY_RE.sub(escape_key, line)]: a line has at most one match. *)
Definition key_re_sub `{Externals} (line : str) : result str :=
  match key_re_search line with
  | Some (before, group1, after) =>
      let! escaped := escape_key group1 in Ok (before ++ escaped ++ after)
  | None => Ok line
  end.

(** [COMMENT_PAD_RE.sub(" #", line)]: spaces are held back ([pending]
    counts them) until the character after them shows whether they pad a
    comment. *)
Fixpoint comment_pad_sub (pending : nat) (line : str) : str :=
  match line with
  | [] => replicate pending 32
  | x :: rest =>
      if x =? 32 then comment_pad_sub (S pending) rest
      else if (x =? 35) && bool_decide (0 < pending)%nat
      then 32 :: 35 :: comment_pad_sub 0 rest
      else replicate pending 32 ++ x :: comment_pad_sub 0 rest
  end.

Definition transform_line `{Externals} (line : str) : result str :=
  let! line := key_re_sub line in
  Ok (comment_pad_sub 0 line).

Fixpoint transform_lines `{Externals} (lines : list str) : result (list str) :=
  match lines with
  | [] => Ok []
  | line :: rest =>
      let! line' := transform_line line in
      let! rest' := transform_lines rest in
      Ok (line' :: rest')
  end.

(** ["\n".join(transform_line(line) for line in text.splitlines())] *)
Definition transform `{Externals} (text : str) : result str :=
  let! lines := transform_lines (splitlines text) in
  Ok (str_join [10] lines).

(** The value of a text of hexadecimal digits. *)
Definition hex_value (s : str) : N :=
  foldl (λ acc d, 16 * acc + (if d <? 58 then d - 48 else d - 55)) 0 s.

Definition is_upper_hex (d : N) : Prop :=
  (48 ≤ d ∧ d ≤ 57) ∨ (65 ≤ d ∧ d ≤ 70).

(** The text [pat] occurs in [s]. *)
Definition occurs (pat s : str) : Prop := ∃ pre post, s = pre ++ pat ++ post.

(** ** The block table *)

(** [chr(n)]; [None] stands for the [ValueError] of a number that is not
    a code point. *)
Definition chr (n : N) : option Codepoint :=
  if n <? 1114112 then Some n else None.

(** The class [[0-9A-F]]. *)
Definition is_hex_upper (x : N) : bool :=
  ((48 <=? x) && (x <=? 57)) || ((65 <=? x) && (x <=? 70)).

(** A greedy [[...]+] in front of the rest of a pattern, [tail_ok]: the
    greatest number of characters of the class, at least one, after which
    the rest of the pattern matches. *)
Fixpoint class_plus (cls : N → bool) (tail_ok : str → bool) (s : str)
    : option nat :=
  match s with
  | [] => None
  | x :: rest =>
      if cls x then
        match class_plus cls tail_ok rest with
        | Some n => Some (S n)
        | None => if tail_ok rest then Some 1%nat else None
        end
      else None
  end.

(** The greedy [(.+)] that ends a pattern: the characters up to a line
    feed. *)
Fixpoint dot_run (s : str) : str :=
  match s with
  | [] => []
  | x :: rest => if x =? 10 then [] else x :: dot_run rest
  end.

(** [; (.+)], the end of [UNICODE_BLOCK_RE]. *)
Definition block_re_name (s : str) : bool :=
  starts_with [59; 32] s && bool_decide (dot_run (drop 2 s) ≠ []).

(** [..([0-9A-F]+); (.+)], what follows group 1 in [UNICODE_BLOCK_RE]; a
    dot is any character but a line feed. *)
Definition block_re_end (s : str) : bool :=
  match s with
  | a :: b :: s2 =>
      negb (a =? 10) && negb (b =? 10)
      && bool_decide (is_Some (class_plus is_hex_upper block_re_name s2))
  | _ => false
  end.

(** [UNICODE_BLOCK_RE.match(line)], as the groups 1, 2 and 3. *)
Definition unicode_block_match (line : str) : option (str * str * str) :=
  n1 ← class_plus is_hex_upper block_re_end line;
  let s2 := drop (n1 + 2) line in
  n2 ← class_plus is_hex_upper block_re_name s2;
  Some (take n1 line, take n2 s2, dot_run (drop (n2 + 2) s2)).

(** The loop of [get_unicode_blocks] over the lines of the response;
    [int(group, 16)] of a group of [[0-9A-F]+] is [hex_value].  [None]
    stands for the [ValueError] of [chr]. *)
Fixpoint blocks_of_lines (lines : list str) : option (list UnicodeBlock) :=
  match lines with
  | [] => Some []
  | line :: rest =>
      match unicode_block_match line with
      | Some (g1, g2, g3) =>
          first ← chr (hex_value g1);
          last ← chr (hex_value g2);
          blocks ← blocks_of_lines rest;
          Some (mkUnicodeBlock first last g3 :: blocks)
      | None => blocks_of_lines rest
      end
  end.

(** [list(get_unicode_blocks())], given the decoded text of the
    response. *)
Definition get_unicode_blocks (text : str) : option (list UnicodeBlock) :=
  blocks_of_lines (splitlines text).

(** A line of the block table as [Blocks.txt] writes it. *)
Definition block_line (b : UnicodeBlock) : str :=
  format_04X (start b) ++ [46; 46] ++ format_04X (end_ b) ++ [59; 32] ++ name b.

(** ** The used codepoints *)

(** The keyboards as [get_used_codepoints] reads them: a keyboard has
    keymaps, a keymap has a dictionary [keys] from a key to the character
    it produces. *)
Record KeyMap : Type := mkKeyMap {
  keymap_keys : list (str * Codepoint);
}.

Record Keyboard : Type := mkKeyboard {
  keymaps : list KeyMap;
}.

(** [get_used_codepoints()], given the parsed keyboards: the set of the
    values of all keymaps, sorted. *)
Definition get_used_codepoints (keyboards : list Keyboard) : list Codepoint :=
  let codepoints : gset N :=
    foldl (λ acc keyboard,
             foldl (λ acc keymap, acc ∪ list_to_set (keymap_keys keymap).*2)
               acc (keymaps keyboard))
      ∅ keyboards in
  merge_sort N.le (elements codepoints).

(** ** An instance for examples *)

(** ASCII tables and a loader for the one-character scalars of the
    examples: plain ([A]) or quoted (['A'], ["A"]). *)
Definition ascii_upper (x : N) : N :=
  if (97 <=? x) && (x <=? 122) then x - 32 else x.

Definition ascii_word (x : N) : bool :=
  ((48 <=? x) && (x <=? 57)) || ((65 <=? x) && (x <=? 90))
  || ((97 <=? x) && (x <=? 122)) || (x =? 95).

Definition ascii_names (c : Codepoint) : option str :=
  if c =? 65 then Some (lit "LATIN CAPITAL LETTER A")
  else if c =? 45 then Some (lit "HYPHEN-MINUS")
  else None.

Definition load_scalar (s : str) : result yaml_value :=
  match s with
  | [] => Raise YAMLError
  | [c] => Ok (YStr [c])
  | [q; c; q'] =>
      if is_quote q && (q =? q') then Ok (YStr [c]) else Ok YOther
  | _ => Ok YOther
  end.

Definition ascii_externals : Externals := {|
  is_visible_character c := (32 <? c) && (c <? 127);
  unicodedata_name := ascii_names;
  str_upper s := ascii_upper <$> s;
  is_word := ascii_word;
  yaml_load := load_scalar;
|}.

(** * Specification vocabulary *)

(** The scan of [find_block] passes over a group: the group has a first
    key and that key is outside the block. *)
Definition passed (blk : UnicodeBlock) (g : CodepointNames) : Prop :=
  ∃ f, first_key g = Ok f ∧ in_block f blk = false.

(** What one successful iteration of [add_new_codepoint_placeholders] for
    the codepoint [c] of block [blk] does to the registry. *)
Inductive placed (c : Codepoint) (blk : UnicodeBlock)
    : CodepointNamesRaw → CodepointNamesRaw → Prop :=
  | placed_present l1 g l2 f :
      Forall (passed blk) l1 →
      first_key g = Ok f → in_block f blk = true →
      c ∈ keys g →
      placed c blk (l1 ++ g :: l2) (l1 ++ g :: l2)
  | placed_insert l1 g1 g2 l2 f :
      Forall (passed blk) l1 →
      first_key (g1 ++ g2) = Ok f → in_block f blk = true →
      c ∉ keys (g1 ++ g2) →
      Forall (λ kv, kv.1 ≤ c) g1 →
      match g2 with [] => True | kv :: _ => c < kv.1 end →
      placed c blk (l1 ++ (g1 ++ g2) :: l2) (l1 ++ (g1 ++ (c, Name []) :: g2) :: l2)
  | placed_new l1 l2 :
      Forall (passed blk) (l1 ++ l2) →
      Forall (λ g, ∃ f, first_key g = Ok f ∧ f < start blk) l1 →
      match l2 with
      | [] => True
      | g :: _ => ∃ f, first_key g = Ok f ∧ end_ blk < f
      end →
      placed c blk (l1 ++ l2) (l1 ++ [(c, Name [])] :: l2).

(** The block table covers every used codepoint. *)
Definition covers (blocks : list UnicodeBlock) (used : list Codepoint) : Prop :=
  Forall (λ c, ∃ blk, codepoint_to_block c blocks = Ok blk) used.

#[global] Instance NameValue_eq_dec : EqDecision NameValue.
Proof. solve_decision. Defined.

#[global] Instance UnicodeBlock_eq_dec : EqDecision UnicodeBlock.
Proof. solve_decision. Defined.

#[global] Instance exn_eq_dec : EqDecision exn.
Proof. solve_decision. Defined.

(** The block table is sorted and its ranges do not overlap: every block
    ends before the next ones start. *)
Definition blocks_sorted (blocks : list UnicodeBlock) : Prop :=
  StronglySorted (λ a b, end_ a < start b) blocks.

(** Two codepoints that the table files under one block. *)
Definition same_block (blocks : list UnicodeBlock) (k1 k2 : Codepoint) : Prop :=
  ∃ blk, codepoint_to_block k1 blocks = Ok blk
       ∧ codepoint_to_block k2 blocks = Ok blk.

(** All codepoints of a group fall within one block of the table. *)
Definition in_one_block (blocks : list UnicodeBlock) (g : CodepointNames) : Prop :=
  ∀ k1 k2, k1 ∈ keys g → k2 ∈ keys g → same_block blocks k1 k2.

(** Two groups hold codepoints of different blocks. *)
Definition apart (blocks : list UnicodeBlock) (g g' : CodepointNames) : Prop :=
  ∀ k k', k ∈ keys g → k' ∈ keys g' → ¬ same_block blocks k k'.

(** At most one group per block: any two groups of the registry are apart. *)
Definition one_group_per_block (blocks : list UnicodeBlock)
    (r : CodepointNamesRaw) : Prop :=
  StronglySorted (apart blocks) r.

(** Block membership as the lookups of the code see it: within a group,
    [codepoint_to_block] of an entry and of the first key agree. *)
Definition block_membership (blocks : list UnicodeBlock)
    (r : CodepointNamesRaw) : Prop :=
  ∀ g f k, g ∈ r → first_key g = Ok f → k ∈ keys g →
    codepoint_to_block k blocks = codepoint_to_block f blocks.

(** Every group's entries are strictly increasing by codepoint. *)
Definition groups_sorted (r : CodepointNamesRaw) : Prop :=
  Forall (λ g, StronglySorted N.lt (keys g)) r.

(** The first keys of the groups, in order; a group without entries has
    none. *)
Definition first_keys (r : CodepointNamesRaw) : list Codepoint :=
  r ≫= λ g, match first_key g with Ok f => [f] | Raise _ => [] end.

(** The groups are strictly increasing by first key. *)
Definition registry_sorted (r : CodepointNamesRaw) : Prop :=
  StronglySorted N.lt (first_keys r).

(** The fragments of the comment of a codepoint whose stored value is
    [v]: the character or the text for a non-printable one, then the
    normalised standard name when the value is empty and the codepoint has
    a name. *)
Definition fragments `{Externals} (c : Codepoint) (v : NameValue) : list str :=
  (if is_visible_character c then [c] else lit "(non-printable)")
  :: (if truthy v then []
      else match unicodedata_name c with
           | Some n => [sub_nonword false (str_upper n)]
           | None => []
           end).

(** The comment calls of a complete pass over groups paired with their
    blocks, the first group at index [i]: per group the heading of its
    block, then one end-of-line comment per entry, in the order of the
    entries. *)
Fixpoint comment_trace `{Externals} (i : nat)
    (groups : list (CodepointNames * UnicodeBlock)) : list comment_call :=
  match groups with
  | [] => []
  | (item, blk) :: rest =>
      set_comment_before i (10 :: name blk)
      :: ((λ kv, add_eol_comment i
                   (lit "# " ++ str_join (lit " ") (fragments kv.1 kv.2)) kv.1)
          <$> item)
      ++ comment_trace (S i) rest
  end.

(** A key line: ["- "] or two spaces, a key without line feed, a colon and
    the rest of the line, where the colon is the one at which [KEY_RE]
    ends the key: the key is unquoted and the rest holds no colon, or it
    is quoted and the rest holds no such quote directly before a colon. *)
Definition key_line (prefix key rest : str) : Prop :=
  (prefix = lit "- " ∨ prefix = lit "  ")
  ∧ (10 ∉ key)
  ∧ ((∃ x key', key = x :: key' ∧ is_quote x = false ∧ 58 ∉ rest)
     ∨ (∃ q body, key = q :: body ++ [q] ∧ is_quote q = true ∧ body ≠ []
          ∧ ¬ occurs [q; 58] rest)).

(** A line of a document and what it is to become: on a key line whose
    key loads as the character [c], the key is replaced by the escape of
    [c] in double quotes; a line without match of [KEY_RE] keeps its text;
    comment padding is removed in both. *)
Inductive transformed `{Externals} : str → str → Prop :=
  | transformed_key prefix key rest c :
      key_line prefix key rest →
      yaml_load key = Ok (YStr [c]) →
      transformed (prefix ++ key ++ 58 :: rest)
        (prefix ++ [34; 92; 117] ++ format_04X c ++ [34]
         ++ 58 :: comment_pad_sub 0 rest)
  | transformed_other line :
      key_re_search line = None →
      transformed line (comment_pad_sub 0 line).

Arguments lit : simpl never.
Arguments fragments : simpl never.

(** * Properties *)

(** ** Lists and outcomes *)

Lemma filter_ext_elem {A} (P Q : A → Prop) `{!∀ x, Decision (P x)}
    `{!∀ x, Decision (Q x)} (l : list A) :
  (∀ x, x ∈ l → P x ↔ Q x) → filter P l = filter Q l.
Proof.
  induction l as [|x l IH]; intros Hext; [done|].
  rewrite !filter_cons. rewrite IH by (intros; apply Hext; by right).
  assert (P x ↔ Q x) as Hx by (apply Hext; by left).
  destruct (decide (P x)), (decide (Q x)); tauto.
Qed.

Lemma filter_all {A} (P : A → Prop) `{!∀ x, Decision (P x)} (l : list A) :
  (∀ x, x ∈ l → P x) → filter P l = l.
Proof.
  induction l as [|x l IH]; intros Hall; [done|].
  rewrite filter_cons_True by (apply Hall; by left).
  f_equal. apply IH. intros; apply Hall; by right.
Qed.

Lemma filter_none {A} (P : A → Prop) `{!∀ x, Decision (P x)} (l : list A) :
  (∀ x, x ∈ l → ¬ P x) → filter P l = [].
Proof.
  induction l as [|x l IH]; intros Hnone; [done|].
  rewrite filter_cons_False by (apply Hnone; by left).
  apply IH. intros; apply Hnone; by right.
Qed.

(** ** The scenarios of the specification *)

Example scenario_empty_registry :
  reconcile [] [mkUnicodeBlock 65 90 (lit "Basic Latin")] [65; 66]
  = ([[(65, Name []); (66, Name [])]], Ok ()).
Proof. reflexivity. Qed.

Example scenario_unused_removed :
  reconcile [[(65, Name (lit "LETTER_A"))]]
    [mkUnicodeBlock 65 90 (lit "Basic Latin")] []
  = ([[]], Ok ()).
Proof. reflexivity. Qed.

Example scenario_kept_and_commented :
  @update_codepoints ascii_externals [[(65, Name (lit "LETTER_A"))]]
    [mkUnicodeBlock 65 90 (lit "Basic Latin")] [65]
  = ([[(65, Name (lit "LETTER_A"))]],
     [set_comment_before 0 (10 :: lit "Basic Latin");
      add_eol_comment 0 (lit "# A") 65],
     Ok ()).
Proof. reflexivity. Qed.

Example scenario_escaped_keys :
  @transform ascii_externals (lit "- A: ''" ++ [10] ++ lit "  B: ''")
  = Ok (lit "- " ++ [34; 92; 117] ++ lit "0041" ++ [34] ++ lit ": ''"
        ++ [10] ++ lit "  " ++ [34; 92; 117] ++ lit "0042" ++ [34] ++ lit ": ''").
Proof. reflexivity. Qed.

(** ** Removal *)

Lemma foldl_del_filter (used ks : list Codepoint) (b : CodepointNames) :
  foldl (λ b c, if bool_decide (c ∈ used) then b else del c b) b ks
  = filter (λ kv, kv.1 ∈ used ∨ kv.1 ∉ ks) b.
Proof.
  revert b. induction ks as [|c ks IH]; intros b; simpl.
  - symmetry. apply filter_all. intros kv _. right. apply not_elem_of_nil.
  - rewrite IH. case_bool_decide as Hc.
    + apply list_filter_iff. intros kv. rewrite not_elem_of_cons.
      split; [|tauto]. intros [?|?]; [tauto|].
      destruct (decide (kv.1 = c)) as [->|]; tauto.
    + unfold del. rewrite list_filter_filter. apply list_filter_iff.
      intros kv. rewrite not_elem_of_cons. split; [tauto|].
      intros [?|[? ?]]; [|tauto]. split; [tauto|]. congruence.
Qed.

(** The deleting loop keeps exactly the entries whose key is used. *)
Lemma remove_unused_block_filter used block :
  remove_unused_block used block = filter (λ kv, kv.1 ∈ used) block.
Proof.
  unfold remove_unused_block. rewrite foldl_del_filter.
  apply filter_ext_elem. intros kv Hkv.
  split; [|tauto]. intros [?|Hn]; [done|]. destruct Hn.
  unfold keys. apply list_elem_of_fmap. eauto.
Qed.

(** ** The scan of [find_block] *)

Lemma in_block_spec c blk :
  in_block c blk = true ↔ start blk ≤ c ∧ c ≤ end_ blk.
Proof. unfold in_block. rewrite andb_true_iff, !N.leb_le. done. Qed.

Lemma in_block_false c blk :
  in_block c blk = false ↔ c < start blk ∨ end_ blk < c.
Proof.
  rewrite <-not_true_iff_false, in_block_spec. lia.
Qed.

Lemma first_key_Ok g f :
  first_key g = Ok f ↔ ∃ v g', g = (f, v) :: g'.
Proof.
  destruct g as [|[k v] g]; simpl; split.
  - done.
  - by intros (? & ? & ?).
  - intros [= <-]. eauto.
  - intros (? & ? & ?). by simplify_eq.
Qed.

Lemma first_key_Raise g e : first_key g = Raise e ↔ g = [] ∧ e = IndexError.
Proof.
  destruct g as [|[k v] g]; simpl; split.
  - by intros [= <-].
  - by intros [_ ->].
  - done.
  - by intros [? _].
Qed.

Lemma find_group_passed l r blk :
  Forall (passed blk) l →
  find_group (l ++ r) blk
  = let! o := find_group r blk in Ok ((λ i, (length l + i)%nat) <$> o).
Proof.
  induction 1 as [|g l (f & Hf & Hout) _ IH]; simpl.
  - destruct (find_group r blk) as [[?|]|]; done.
  - rewrite Hf. simpl. rewrite Hout, IH.
    destruct (find_group r blk) as [[?|]|]; done.
Qed.

Lemma find_group_found l1 g l2 f blk :
  Forall (passed blk) l1 → first_key g = Ok f → in_block f blk = true →
  find_group (l1 ++ g :: l2) blk = Ok (Some (length l1)).
Proof.
  intros Hl1 Hf Hin. rewrite find_group_passed by done. simpl.
  rewrite Hf. simpl. rewrite Hin. simpl. f_equal. f_equal. lia.
Qed.

Lemma find_group_empty l1 l2 blk :
  Forall (passed blk) l1 →
  find_group (l1 ++ [] :: l2) blk = Raise IndexError.
Proof. intros Hl1. by rewrite find_group_passed. Qed.

Lemma find_group_none r blk :
  Forall (passed blk) r → find_group r blk = Ok None.
Proof.
  intros Hr. rewrite <-(app_nil_r r). by rewrite find_group_passed.
Qed.

(** The three ways the scan can end. *)
Lemma scan_cases r blk :
  Forall (passed blk) r
  ∨ (∃ l1 g l2 f, r = l1 ++ g :: l2 ∧ Forall (passed blk) l1
       ∧ first_key g = Ok f ∧ in_block f blk = true)
  ∨ (∃ l1 l2, r = l1 ++ [] :: l2 ∧ Forall (passed blk) l1).
Proof.
  induction r as [|g r IH]; [by left|].
  destruct (first_key g) as [f|e] eqn:Hf.
  - destruct (in_block f blk) eqn:Hin.
    + right; left. exists [], g, r, f. by repeat split.
    + assert (passed blk g) as Hg by (by exists f).
      destruct IH as [Hr|[(l1 & g' & l2 & f' & -> & ? & ? & ?)|(l1 & l2 & -> & ?)]].
      * left. by constructor.
      * right; left. exists (g :: l1), g', l2, f'. repeat split; auto.
      * right; right. exists (g :: l1), l2. split; auto.
  - apply first_key_Raise in Hf as [-> ->].
    right; right. by exists [], r.
Qed.

Lemma find_group_Some r blk i :
  find_group r blk = Ok (Some i) →
  ∃ l1 g l2 f, r = l1 ++ g :: l2 ∧ length l1 = i ∧ Forall (passed blk) l1
    ∧ first_key g = Ok f ∧ in_block f blk = true.
Proof.
  destruct (scan_cases r blk)
    as [Hr|[(l1 & g & l2 & f & -> & ? & ? & ?)|(l1 & l2 & -> & ?)]].
  - by rewrite find_group_none.
  - erewrite find_group_found by done. intros [= <-]. naive_solver.
  - by rewrite find_group_empty.
Qed.

Lemma find_group_None r blk :
  find_group r blk = Ok None → Forall (passed blk) r.
Proof.
  destruct (scan_cases r blk)
    as [Hr|[(l1 & g & l2 & f & -> & ? & ? & ?)|(l1 & l2 & -> & ?)]].
  - done.
  - by erewrite find_group_found.
  - by rewrite find_group_empty.
Qed.

Lemma find_group_Raise r blk e :
  find_group r blk = Raise e →
  e = IndexError ∧ ∃ l1 l2, r = l1 ++ [] :: l2 ∧ Forall (passed blk) l1.
Proof.
  destruct (scan_cases r blk)
    as [Hr|[(l1 & g & l2 & f & -> & ? & ? & ?)|(l1 & l2 & -> & ?)]].
  - by rewrite find_group_none.
  - by erewrite find_group_found.
  - rewrite find_group_empty by done. intros [= <-]. eauto.
Qed.

(** ** The upper-bound searches *)

(** Among groups that the scan passed, the position chosen for a new group
    splits the registry into the groups that start before the block and
    the groups that start after it. *)
Lemma upper_bound_blocks r blk :
  Forall (passed blk) r →
  ∃ l1 l2, r = l1 ++ l2
    ∧ upper_bound compare_blocks r blk = Ok (length l1)
    ∧ Forall (λ g, ∃ f, first_key g = Ok f ∧ f < start blk) l1
    ∧ match l2 with
      | [] => True
      | g :: _ => ∃ f, first_key g = Ok f ∧ end_ blk < f
      end.
Proof.
  induction 1 as [|g r (f & Hf & Hout) _ (l1 & l2 & -> & Hub & Hl1 & Hl2)].
  - by exists [], [].
  - simpl. unfold compare_blocks at 1. rewrite Hf. simpl.
    destruct (end_ blk <? f) eqn:Hlt.
    + apply N.ltb_lt in Hlt. exists [], (g :: l1 ++ l2). simpl. eauto 10.
    + apply N.ltb_ge in Hlt. apply in_block_false in Hout.
      exists (g :: l1), l2. simpl. rewrite Hub. simpl.
      repeat split; [|done]. constructor; [|done]. exists f. split; [done|lia].
Qed.

(** Within a group, the position chosen for a new key splits the entries
    into those not above the key and a rest that starts above it. *)
Lemma upper_bound_keys (g : CodepointNames) c :
  ∃ g1 g2, g = g1 ++ g2
    ∧ upper_bound gt_default (keys g) c = Ok (length g1)
    ∧ Forall (λ kv, kv.1 ≤ c) g1
    ∧ match g2 with [] => True | kv :: _ => c < kv.1 end.
Proof.
  induction g as [|kv g (g1 & g2 & -> & Hub & Hg1 & Hg2)].
  - by exists [], [].
  - unfold keys, gt_default in *. rewrite fmap_cons. simpl.
    destruct (c <? kv.1) eqn:Hlt.
    + apply N.ltb_lt in Hlt. by exists [], (kv :: g1 ++ g2).
    + apply N.ltb_ge in Hlt. exists (kv :: g1), g2. simpl.
      rewrite Hub. simpl. repeat split; [|done].
      by constructor.
Qed.

Lemma list_insert_at_length {A} (l1 l2 : list A) x :
  list_insert_at (length l1) x (l1 ++ l2) = l1 ++ x :: l2.
Proof.
  unfold list_insert_at. by rewrite take_app_length, drop_app_length.
Qed.

Lemma list_insert_middle {A} (l1 l2 : list A) x y :
  <[length l1 := y]> (l1 ++ x :: l2) = l1 ++ y :: l2.
Proof.
  rewrite insert_app_r_alt by lia. by rewrite Nat.sub_diag.
Qed.

(** ** One iteration of the insertion loop *)

Lemma add_placeholder_spec r blocks c :
  match add_placeholder r blocks c with
  | (r', Ok _) =>
      ∃ blk, codepoint_to_block c blocks = Ok blk ∧ placed c blk r r'
  | (r', Raise e) =>
      r' = r
      ∧ (codepoint_to_block c blocks = Raise e
         ∨ ∃ blk l1 l2, codepoint_to_block c blocks = Ok blk
             ∧ e = IndexError ∧ r = l1 ++ [] :: l2 ∧ Forall (passed blk) l1)
  end.
Proof.
  unfold add_placeholder.
  destruct (codepoint_to_block c blocks) as [blk|e] eqn:Hblk; [|by auto].
  unfold find_block.
  destruct (find_group r blk) as [[i|]|e] eqn:Hfind; simpl.
  - apply find_group_Some in Hfind as (l1 & g & l2 & f & -> & <- & Hl1 & Hf & Hin).
    rewrite list_lookup_middle by done. simpl.
    case_bool_decide as Hc.
    + exists blk. split; [done|]. by eapply placed_present.
    + destruct (upper_bound_keys g c) as (g1 & g2 & -> & -> & Hg1 & Hg2).
      rewrite list_insert_at_length, list_insert_middle.
      exists blk. split; [done|]. by eapply placed_insert.
  - apply find_group_None in Hfind.
    destruct (upper_bound_blocks r blk Hfind) as (l1 & l2 & -> & -> & Hl1 & Hl2).
    simpl. rewrite list_insert_at_length, list_lookup_middle by done. simpl.
    rewrite list_insert_middle.
    exists blk. split; [done|]. by apply placed_new.
  - apply find_group_Raise in Hfind as (-> & l1 & l2 & -> & Hl1).
    split; [done|]. right. by exists blk, l1, l2.
Qed.

(** The loop as a whole: an invariant of the successful iterations holds
    for the registry that the loop leaves, whatever its outcome. *)
Lemma add_new_codepoint_placeholders_ind (P : CodepointNamesRaw → Prop) blocks used r :
  P r →
  (∀ c blk r1 r2, c ∈ used → codepoint_to_block c blocks = Ok blk →
     P r1 → placed c blk r1 r2 → P r2) →
  P (add_new_codepoint_placeholders r blocks used).1.
Proof.
  intros Hr Hstep. revert r Hr.
  induction used as [|c used IH]; intros r Hr; [done|]. simpl.
  pose proof (add_placeholder_spec r blocks c) as Hspec.
  destruct (add_placeholder r blocks c) as [r' [[]|e]].
  - destruct Hspec as (blk & Hblk & Hplaced). apply IH.
    + intros c' blk' r1 r2 Hc'. apply Hstep. by right.
    + eapply Hstep; [by left|done..].
  - by destruct Hspec as [-> _].
Qed.

(** ** Keys of the registry *)

Lemma all_keys_app l1 l2 : all_keys (l1 ++ l2) = all_keys l1 ++ all_keys l2.
Proof. unfold all_keys. by rewrite fmap_app, join_app. Qed.

Lemma all_keys_cons g l : all_keys (g :: l) = keys g ++ all_keys l.
Proof. done. Qed.

Lemma keys_app (g1 g2 : CodepointNames) : keys (g1 ++ g2) = keys g1 ++ keys g2.
Proof. unfold keys. by rewrite fmap_app. Qed.

Lemma keys_cons kv (g : CodepointNames) : keys (kv :: g) = kv.1 :: keys g.
Proof. done. Qed.

Lemma elem_of_all_keys k r : k ∈ all_keys r ↔ ∃ g, g ∈ r ∧ k ∈ keys g.
Proof.
  unfold all_keys. rewrite list_elem_of_join. split.
  - intros (ks & Hk & Hks). apply list_elem_of_fmap in Hks as (g & -> & Hg). eauto.
  - intros (g & Hg & Hk). exists (keys g). split; [done|].
    apply list_elem_of_fmap. eauto.
Qed.

Lemma keys_remove_unused_block used g k :
  k ∈ keys (remove_unused_block used g) ↔ k ∈ keys g ∧ k ∈ used.
Proof.
  rewrite remove_unused_block_filter. unfold keys. rewrite !list_elem_of_fmap.
  split.
  - intros ([k' v] & -> & [Hu Hin]%list_elem_of_filter). simpl in *.
    split; [|done]. by exists (k', v).
  - intros [([k' v] & -> & Hin) Hu]. exists (k', v). split; [done|].
    by apply list_elem_of_filter.
Qed.

Lemma all_keys_remove_unused r used k :
  k ∈ all_keys (remove_unused_codepoints r used) ↔ k ∈ all_keys r ∧ k ∈ used.
Proof.
  unfold remove_unused_codepoints. rewrite !elem_of_all_keys. split.
  - intros (g' & (g & -> & Hg)%list_elem_of_fmap & Hk).
    apply keys_remove_unused_block in Hk as [? ?]. eauto.
  - intros [(g & Hg & Hk) Hu]. exists (remove_unused_block used g).
    split; [apply list_elem_of_fmap; eauto|].
    by apply keys_remove_unused_block.
Qed.

(** A successful iteration adds the codepoint to the keys and nothing else. *)
Lemma placed_all_keys c blk r1 r2 k :
  placed c blk r1 r2 → k ∈ all_keys r2 ↔ k ∈ all_keys r1 ∨ k = c.
Proof.
  destruct 1 as [l1 g l2 f _ _ _ Hc|l1 g1 g2 l2 f|l1 l2].
  - split; [auto|]. intros [?| ->]; [done|].
    rewrite all_keys_app, all_keys_cons, !elem_of_app. auto.
  - rewrite !all_keys_app, !all_keys_cons, !keys_app, keys_cons. simpl.
    rewrite !elem_of_app, elem_of_cons. tauto.
  - rewrite !all_keys_app, !all_keys_cons. unfold keys at 1. simpl.
    rewrite !elem_of_app, elem_of_cons. tauto.
Qed.

(** A successful iteration neither empties a group nor fills an empty one. *)
Lemma placed_empty_group c blk r1 r2 : placed c blk r1 r2 → [] ∈ r1 ↔ [] ∈ r2.
Proof.
  destruct 1 as [l1 g l2 f|l1 g1 g2 l2 f _ Hf|l1 l2]; [done|..].
  - apply first_key_Ok in Hf as (v & g' & Hg).
    rewrite !elem_of_app, !elem_of_cons.
    assert ([] ≠ g1 ++ g2) by (by rewrite Hg).
    assert ([] ≠ g1 ++ (c, Name []) :: g2) by (by destruct g1).
    tauto.
  - rewrite !elem_of_app, !elem_of_cons.
    assert ([] ≠ [(c, Name [])]) by done. tauto.
Qed.

Lemma add_new_codepoint_placeholders_keys blocks used r r' :
  add_new_codepoint_placeholders r blocks used = (r', Ok ()) →
  ∀ k, k ∈ all_keys r' ↔ k ∈ all_keys r ∨ k ∈ used.
Proof.
  revert r. induction used as [|c used IH]; intros r; simpl.
  - intros [= <-] k. rewrite elem_of_nil. tauto.
  - pose proof (add_placeholder_spec r blocks c) as Hspec.
    destruct (add_placeholder r blocks c) as [r1 [[]|e]]; [|done].
    destruct Hspec as (blk & _ & Hplaced). intros Hrest k.
    rewrite (IH _ Hrest), (placed_all_keys _ _ _ _ _ Hplaced), elem_of_cons.
    tauto.
Qed.

Lemma add_new_codepoint_placeholders_total blocks used r :
  (∀ c, c ∈ used → ∃ blk, codepoint_to_block c blocks = Ok blk) →
  [] ∉ r →
  ∃ r', add_new_codepoint_placeholders r blocks used = (r', Ok ()).
Proof.
  revert r. induction used as [|c used IH]; intros r Hcov Hne; simpl; [eauto|].
  pose proof (add_placeholder_spec r blocks c) as Hspec.
  destruct (add_placeholder r blocks c) as [r1 [[]|e]].
  - destruct Hspec as (blk & _ & Hplaced). apply IH.
    + intros c' Hc'. apply Hcov. by right.
    + by rewrite <-(placed_empty_group _ _ _ _ Hplaced).
  - exfalso. destruct Hspec as [_ [Hraise|(blk & l1 & l2 & _ & _ & -> & _)]].
    + destruct (Hcov c) as [blk Hblk]; [by left|congruence].
    + apply Hne. apply elem_of_app. right. by left.
Qed.

(** ** Block lookup *)

Lemma codepoint_to_block_Ok c blocks blk :
  codepoint_to_block c blocks = Ok blk → blk ∈ blocks ∧ in_block c blk = true.
Proof.
  induction blocks as [|b blocks IH]; simpl; [done|].
  destruct (in_block c b) eqn:Hin.
  - intros [= <-]. split; [by left|done].
  - intros [? ?]%IH. split; [by right|done].
Qed.

Lemma codepoint_to_block_Raise c blocks e :
  codepoint_to_block c blocks = Raise e →
  e = StopIteration ∧ Forall (λ b, in_block c b = false) blocks.
Proof.
  induction blocks as [|b blocks IH]; simpl.
  - by intros [= <-].
  - destruct (in_block c b) eqn:Hin; [done|].
    intros [? ?]%IH. split; [done|by constructor].
Qed.

Lemma codepoint_to_block_first c l1 blk l2 :
  Forall (λ b, in_block c b = false) l1 → in_block c blk = true →
  codepoint_to_block c (l1 ++ blk :: l2) = Ok blk.
Proof.
  induction 1 as [|b l1 Hb _ IH]; simpl; intros Hin.
  - by rewrite Hin.
  - rewrite Hb. by apply IH.
Qed.

Lemma codepoint_to_block_none c blocks :
  Forall (λ b, in_block c b = false) blocks →
  codepoint_to_block c blocks = Raise StopIteration.
Proof. induction 1 as [|b l1 Hb _ IH]; simpl; [done|by rewrite Hb]. Qed.

Lemma block_scan_cases c blocks :
  Forall (λ b, in_block c b = false) blocks
  ∨ ∃ l1 blk l2, blocks = l1 ++ blk :: l2
      ∧ Forall (λ b, in_block c b = false) l1 ∧ in_block c blk = true.
Proof.
  induction blocks as [|b blocks IH]; [by left|].
  destruct (in_block c b) eqn:Hin.
  - right. by exists [], b, blocks.
  - destruct IH as [?|(l1 & blk & l2 & -> & ? & ?)].
    + left. by constructor.
    + right. exists (b :: l1), blk, l2. repeat split; auto.
Qed.

Lemma StronglySorted_trichotomy {A} (R : relation A) (l : list A) a b :
  StronglySorted R l → a ∈ l → b ∈ l → a = b ∨ R a b ∨ R b a.
Proof.
  induction 1 as [|x l Hl IH Hx]; intros Ha Hb.
  - by apply elem_of_nil in Ha.
  - rewrite Forall_forall in Hx.
    apply elem_of_cons in Ha as [->|Ha], Hb as [->|Hb]; auto.
Qed.

(** In a sorted table a codepoint lies in at most one block, so the lookup
    finds exactly the blocks of the table that contain it. *)
Lemma blocks_sorted_unique blocks b1 b2 k :
  blocks_sorted blocks → b1 ∈ blocks → b2 ∈ blocks →
  in_block k b1 = true → in_block k b2 = true → b1 = b2.
Proof.
  intros Hs H1 H2 [? ?]%in_block_spec [? ?]%in_block_spec.
  destruct (StronglySorted_trichotomy _ _ b1 b2 Hs H1 H2) as [?|[?|?]];
    [done|lia..].
Qed.

Lemma codepoint_to_block_in_block blocks blk k :
  blocks_sorted blocks → blk ∈ blocks → in_block k blk = true →
  codepoint_to_block k blocks = Ok blk.
Proof.
  intros Hs Hblk Hin.
  destruct (codepoint_to_block k blocks) as [b|e] eqn:Hk.
  - apply codepoint_to_block_Ok in Hk as [? ?]. f_equal.
    by eapply blocks_sorted_unique.
  - apply codepoint_to_block_Raise in Hk as [_ Hnone].
    rewrite Forall_forall in Hnone. specialize (Hnone blk Hblk). congruence.
Qed.

(** Codepoints of different blocks of a sorted table are ordered as their
    blocks are. *)
Lemma blocks_sorted_order blocks b1 b2 k1 k2 k1' k2' :
  blocks_sorted blocks →
  codepoint_to_block k1 blocks = Ok b1 → codepoint_to_block k2 blocks = Ok b2 →
  codepoint_to_block k1' blocks = Ok b1 → codepoint_to_block k2' blocks = Ok b2 →
  b1 ≠ b2 → k1 < k2 → k1' < k2'.
Proof.
  intros Hs [H1 [? ?]%in_block_spec]%codepoint_to_block_Ok
    [H2 [? ?]%in_block_spec]%codepoint_to_block_Ok
    [_ [? ?]%in_block_spec]%codepoint_to_block_Ok
    [_ [? ?]%in_block_spec]%codepoint_to_block_Ok Hne Hlt.
  destruct (StronglySorted_trichotomy _ _ b1 b2 Hs H1 H2) as [?|[?|?]];
    [done|lia..].
Qed.

Lemma same_block_sym blocks k1 k2 :
  same_block blocks k1 k2 → same_block blocks k2 k1.
Proof. intros (blk & ? & ?). by exists blk. Qed.

Lemma same_block_trans blocks k1 k2 k3 :
  same_block blocks k1 k2 → same_block blocks k2 k3 → same_block blocks k1 k3.
Proof.
  intros (blk & ? & H2) (blk' & H2' & ?). exists blk.
  split; [done|congruence].
Qed.

(** C5.  [codepoint_to_block] returns, for a codepoint that some block of
    the table contains, the first block of the table whose range contains
    it; for a codepoint that no block contains it raises [StopIteration];
    a block it returns is always a block of the table that contains the
    codepoint. *)
Theorem codepoint_to_block_total_on_covered c blocks :
  ((∃ b, b ∈ blocks ∧ in_block c b = true) →
     ∃ l1 blk l2, blocks = l1 ++ blk :: l2
       ∧ Forall (λ b, in_block c b = false) l1
       ∧ in_block c blk = true
       ∧ codepoint_to_block c blocks = Ok blk)
  ∧ ((∀ b, b ∈ blocks → in_block c b = false) →
     codepoint_to_block c blocks = Raise StopIteration)
  ∧ (∀ blk, codepoint_to_block c blocks = Ok blk →
     blk ∈ blocks ∧ in_block c blk = true).
Proof.
  split; [|split].
  - intros (b & Hb & Hin).
    destruct (block_scan_cases c blocks) as [Hnone|(l1 & blk & l2 & -> & ? & ?)].
    + rewrite Forall_forall in Hnone. specialize (Hnone b Hb). congruence.
    + exists l1, blk, l2. repeat split; auto using codepoint_to_block_first.
  - intros Hnone. apply codepoint_to_block_none. by apply Forall_forall.
  - apply codepoint_to_block_Ok.
Qed.

Lemma codepoint_to_block_total_on_covered_witness :
  let latin := mkUnicodeBlock 65 90 (lit "Basic Latin") in
  let lower := mkUnicodeBlock 97 122 (lit "Lower") in
  let wide := mkUnicodeBlock 60 130 (lit "Wide") in
  (∃ l1 blk l2, [latin; lower; wide] = l1 ++ blk :: l2
     ∧ Forall (λ b, in_block 100 b = false) l1
     ∧ in_block 100 blk = true
     ∧ codepoint_to_block 100 [latin; lower; wide] = Ok blk)
  ∧ codepoint_to_block 48 [latin; lower; wide] = Raise StopIteration.
Proof.
  intros latin lower wide.
  destruct (codepoint_to_block_total_on_covered 100 [latin; lower; wide])
    as (Hfirst & _ & _).
  destruct (codepoint_to_block_total_on_covered 48 [latin; lower; wide])
    as (_ & Hnone & _).
  split.
  - apply Hfirst. exists wide. split; [|reflexivity]. do 2 right. left.
  - apply Hnone. intros b Hb.
    repeat (apply elem_of_cons in Hb as [->|Hb]); try reflexivity.
    by apply elem_of_nil in Hb.
Defined.

(** ** Exact key-set correspondence *)

(** C1, amended.  No codepoint outside the used list is a key of the
    registry that reconciliation leaves, whatever its outcome; when
    reconciliation completes, the keys of the registry are exactly the
    used codepoints; and it completes when the block table covers every
    used codepoint and removal has left no group empty. *)
Theorem reconcile_key_set r blocks used :
  (∀ k, k ∈ all_keys (reconcile r blocks used).1 → k ∈ used)
  ∧ (∀ r', reconcile r blocks used = (r', Ok ()) →
       ∀ k, k ∈ all_keys r' ↔ k ∈ used)
  ∧ (covers blocks used → [] ∉ remove_unused_codepoints r used →
       ∃ r', reconcile r blocks used = (r', Ok ())).
Proof.
  unfold reconcile. split; [|split].
  - apply (add_new_codepoint_placeholders_ind (λ r, ∀ k, k ∈ all_keys r → k ∈ used)).
    + by intros k [_ ?]%all_keys_remove_unused.
    + intros c blk r1 r2 Hc _ IH Hplaced k.
      rewrite (placed_all_keys _ _ _ _ _ Hplaced). intros [?| ->]; auto.
  - intros r' Hr' k. rewrite (add_new_codepoint_placeholders_keys _ _ _ _ Hr').
    rewrite all_keys_remove_unused. tauto.
  - intros Hcov Hne. apply add_new_codepoint_placeholders_total; [|done].
    intros c Hc. unfold covers in Hcov. rewrite Forall_forall in Hcov. auto.
Qed.

Lemma reconcile_key_set_witness :
  let latin := mkUnicodeBlock 65 90 (lit "Basic Latin") in
  ∃ r', reconcile [[(65, Name (lit "LETTER_A")); (67, Name (lit "C"))]]
          [latin] [65; 66] = (r', Ok ())
        ∧ ∀ k, k ∈ all_keys r' ↔ k ∈ [65; 66].
Proof.
  intros latin.
  destruct (reconcile_key_set
              [[(65, Name (lit "LETTER_A")); (67, Name (lit "C"))]]
              [latin] [65; 66]) as (_ & Hkeys & Htotal).
  destruct Htotal as [r' Hr'].
  - repeat constructor; by exists latin.
  - vm_compute. intros Hin. apply elem_of_cons in Hin as [Hin|Hin];
      [discriminate|by apply elem_of_nil in Hin].
  - exists r'. split; [exact Hr'|exact (Hkeys r' Hr')].
Defined.

(** C1 as stated fails where the block table does not cover a used
    codepoint: the lookup raises and the codepoint is not in the registry. *)
Lemma reconcile_key_set_uncovered :
  reconcile [] [] [65] = ([], Raise StopIteration)
  ∧ ¬ (∀ k, k ∈ all_keys (reconcile [] [] [65]).1 ↔ k ∈ [65]).
Proof.
  split; [reflexivity|]. intros Hall.
  destruct (Hall 65) as [_ Hin]. specialize (Hin ltac:(by left)).
  vm_compute in Hin. by apply elem_of_nil in Hin.
Qed.

(** ** Block membership *)

Lemma first_key_elem g f : first_key g = Ok f → f ∈ keys g.
Proof. intros (v & g' & ->)%first_key_Ok. by left. Qed.

(** The group that [find_block] selects for the block of [c] starts with
    a codepoint of the same block. *)
Lemma found_same_block blocks c blk f :
  blocks_sorted blocks → codepoint_to_block c blocks = Ok blk →
  in_block f blk = true → same_block blocks f c.
Proof.
  intros Hs Hc Hin. exists blk. split; [|done].
  apply codepoint_to_block_in_block; [done| |done].
  by apply codepoint_to_block_Ok in Hc as [? _].
Qed.

Lemma keys_insert (g1 g2 : CodepointNames) c v k :
  k ∈ keys (g1 ++ (c, v) :: g2) ↔ k ∈ keys (g1 ++ g2) ∨ k = c.
Proof.
  rewrite !keys_app, keys_cons, !elem_of_app, elem_of_cons. simpl. tauto.
Qed.

Lemma in_one_block_insert blocks g1 g2 f c v :
  f ∈ keys (g1 ++ g2) → same_block blocks f c →
  in_one_block blocks (g1 ++ g2) →
  in_one_block blocks (g1 ++ (c, v) :: g2).
Proof.
  intros Hf Hfc Hg.
  assert (∀ k, k ∈ keys (g1 ++ (c, v) :: g2) → same_block blocks k f) as Hall.
  { intros k [Hk| ->]%keys_insert; [by apply Hg|by apply same_block_sym]. }
  intros k1 k2 Hk1 Hk2. eapply same_block_trans; [by apply Hall|].
  apply same_block_sym. by apply Hall.
Qed.

Lemma in_one_block_singleton blocks c blk v :
  codepoint_to_block c blocks = Ok blk → in_one_block blocks [(c, v)].
Proof.
  intros Hc k1 k2 ->%list_elem_of_singleton ->%list_elem_of_singleton.
  by exists blk.
Qed.

(** Block membership survives a successful iteration. *)
Lemma placed_in_one_block blocks c blk r1 r2 :
  blocks_sorted blocks → codepoint_to_block c blocks = Ok blk →
  placed c blk r1 r2 →
  Forall (in_one_block blocks) r1 → Forall (in_one_block blocks) r2.
Proof.
  intros Hs Hc. destruct 1 as [l1 g l2 f|l1 g1 g2 l2 f _ Hf Hin|l1 l2]; [done|..].
  - rewrite !Forall_app, !Forall_cons. intros (? & ? & ?). repeat split; [done| |done].
    eapply in_one_block_insert; [by apply first_key_elem| |done].
    by eapply found_same_block.
  - rewrite !Forall_app, Forall_cons. intros (? & ?). repeat split; [done| |done].
    by eapply in_one_block_singleton.
Qed.

(** A group that the scan passed holds no codepoint of the block. *)
Lemma passed_apart blocks c blk g k :
  codepoint_to_block c blocks = Ok blk →
  passed blk g → in_one_block blocks g → k ∈ keys g →
  ¬ same_block blocks k c.
Proof.
  intros Hc (f & Hf & Hout) Hg Hk (b & Hkb & Hcb).
  assert (b = blk) as -> by congruence.
  destruct (Hg k f Hk (first_key_elem _ _ Hf)) as (b' & Hkb' & Hfb').
  assert (b' = blk) as -> by congruence.
  apply codepoint_to_block_Ok in Hfb' as [_ ?]. congruence.
Qed.

Lemma apart_insert_r blocks x g1 g2 f c v :
  f ∈ keys (g1 ++ g2) → same_block blocks f c →
  apart blocks x (g1 ++ g2) → apart blocks x (g1 ++ (c, v) :: g2).
Proof.
  intros Hf Hfc Hx k k' Hk [Hk'| ->]%keys_insert; [by apply Hx|].
  intros Hkc. apply (Hx k f Hk Hf).
  eapply same_block_trans; [done|by apply same_block_sym].
Qed.

Lemma apart_insert_l blocks x g1 g2 f c v :
  f ∈ keys (g1 ++ g2) → same_block blocks f c →
  apart blocks (g1 ++ g2) x → apart blocks (g1 ++ (c, v) :: g2) x.
Proof.
  intros Hf Hfc Hx k k' [Hk| ->]%keys_insert Hk'; [by apply Hx|].
  intros Hck. apply (Hx f k' Hf Hk'). by eapply same_block_trans.
Qed.

(** One group per block survives a successful iteration. *)
Lemma placed_one_group_per_block blocks c blk r1 r2 :
  blocks_sorted blocks → codepoint_to_block c blocks = Ok blk →
  placed c blk r1 r2 →
  Forall (in_one_block blocks) r1 →
  one_group_per_block blocks r1 → one_group_per_block blocks r2.
Proof.
  intros Hs Hc. unfold one_group_per_block.
  destruct 1 as [l1 g l2 f|l1 g1 g2 l2 f _ Hf Hin|l1 l2 Hpassed]; [done|..].
  - intros _. rewrite !StronglySorted_app, !StronglySorted_cons, !Forall_forall.
    intros (Hcross & ? & Hg & ?).
    pose proof (first_key_elem _ _ Hf) as Hfk.
    pose proof (found_same_block _ _ _ _ Hs Hc Hin) as Hfc.
    repeat split; [|done| |done].
    + intros x1 x2 Hx1 [->|Hx2]%elem_of_cons.
      * eapply apart_insert_r; [done..|]. apply Hcross; [done|by left].
      * apply Hcross; [done|by right].
    + intros x Hx. eapply apart_insert_l; [done..|]. by apply Hg.
  - rewrite Forall_forall. intros Hone.
    rewrite !StronglySorted_app, !StronglySorted_cons, !Forall_forall.
    rewrite Forall_forall in Hpassed.
    intros (Hcross & ? & ?). repeat split; [|done| |done].
    + intros x1 x2 Hx1 [->|Hx2]%elem_of_cons; [|by apply Hcross].
      intros k k' Hk ->%list_elem_of_singleton.
      eapply passed_apart; [done| | |done].
      * apply Hpassed, elem_of_app. by left.
      * apply Hone, elem_of_app. by left.
    + intros x Hx k k' ->%list_elem_of_singleton Hk' Hsame.
      eapply passed_apart; [done| | |done|by apply same_block_sym].
      * apply Hpassed, elem_of_app. by right.
      * apply Hone, elem_of_app. by right.
Qed.

(** With block membership and one group per block, the iteration for a
    codepoint that the registry already holds changes nothing. *)
Lemma placed_present_noop blocks c blk r1 r2 :
  blocks_sorted blocks → codepoint_to_block c blocks = Ok blk →
  placed c blk r1 r2 →
  Forall (in_one_block blocks) r1 → one_group_per_block blocks r1 →
  c ∈ all_keys r1 → r2 = r1.
Proof.
  intros Hs Hc. unfold one_group_per_block.
  destruct 1 as [l1 g l2 f|l1 g1 g2 l2 f _ Hf Hin Hnew|l1 l2 Hpassed]; [done|..].
  - intros _. rewrite !StronglySorted_app, !StronglySorted_cons, !Forall_forall.
    intros (Hcross & _ & Hg & _).
    pose proof (first_key_elem _ _ Hf) as Hfk.
    pose proof (found_same_block _ _ _ _ Hs Hc Hin) as Hfc.
    rewrite all_keys_app, all_keys_cons, !elem_of_app.
    intros [(x & Hx & Hcx)%elem_of_all_keys|[?|(x & Hx & Hcx)%elem_of_all_keys]].
    + destruct (Hcross x (g1 ++ g2) Hx ltac:(by left) c f Hcx Hfk).
      by apply same_block_sym.
    + done.
    + by destruct (Hg x Hx f c Hfk Hcx).
  - rewrite !Forall_forall. intros Hone _ (x & Hx & Hcx)%elem_of_all_keys.
    rewrite Forall_forall in Hpassed.
    destruct (passed_apart blocks c blk x c Hc); auto. by exists blk.
Qed.

Lemma remove_unused_in_one_block blocks used r :
  Forall (in_one_block blocks) r →
  Forall (in_one_block blocks) (remove_unused_codepoints r used).
Proof.
  unfold remove_unused_codepoints. rewrite Forall_fmap.
  intros Hr. eapply Forall_impl; [exact Hr|]. simpl.
  intros g Hg k1 k2 [? _]%keys_remove_unused_block [? _]%keys_remove_unused_block.
  by apply Hg.
Qed.

(** After removal every key is used, hence covered: the agreement of the
    lookups within a group becomes membership in one block of the table. *)
Lemma remove_unused_block_membership blocks used r :
  covers blocks used → block_membership blocks r →
  Forall (in_one_block blocks) (remove_unused_codepoints r used).
Proof.
  unfold covers, remove_unused_codepoints. rewrite !Forall_forall.
  intros Hcov Hmem g' (g & -> & Hg)%list_elem_of_fmap k1 k2
    [Hk1 Hu1]%keys_remove_unused_block [Hk2 _]%keys_remove_unused_block.
  destruct (first_key g) as [f|e] eqn:Hf.
  - destruct (Hcov k1 Hu1) as [blk Hblk]. exists blk. split; [done|].
    rewrite (Hmem g f k2 Hg Hf Hk2), <-(Hmem g f k1 Hg Hf Hk1). done.
  - apply first_key_Raise in Hf as [-> _]. by apply elem_of_nil in Hk1.
Qed.

(** C4.  With a sorted, non-overlapping block table that covers every used
    codepoint, block membership is preserved by reconciliation: if in every
    group the lookups of the entries agree with the lookup of the first
    key, then in the registry that [remove_unused_codepoints] and
    [add_new_codepoint_placeholders] leave (whatever the outcome of the
    second), every entry's codepoint lies in the range of the block of the
    table that contains its group's first key. *)
Theorem reconcile_block_membership r blocks used :
  blocks_sorted blocks → covers blocks used → block_membership blocks r →
  block_membership blocks (reconcile r blocks used).1
  ∧ ∀ g f k, g ∈ (reconcile r blocks used).1 → first_key g = Ok f → k ∈ keys g →
      ∃ blk, codepoint_to_block f blocks = Ok blk
        ∧ codepoint_to_block k blocks = Ok blk
        ∧ in_block f blk = true ∧ in_block k blk = true.
Proof.
  intros Hs Hcov Hmem.
  assert (Forall (in_one_block blocks) (reconcile r blocks used).1) as Hone.
  { unfold reconcile. apply add_new_codepoint_placeholders_ind.
    - by apply remove_unused_block_membership.
    - intros c blk r1 r2 _ Hc IH Hplaced. by eapply placed_in_one_block. }
  rewrite Forall_forall in Hone.
  assert (∀ g f k, g ∈ (reconcile r blocks used).1 → first_key g = Ok f →
            k ∈ keys g → same_block blocks f k) as Hsame.
  { intros g f k Hg Hf Hk. apply (Hone g Hg); [by apply first_key_elem|done]. }
  split.
  - intros g f k Hg Hf Hk. destruct (Hsame g f k Hg Hf Hk) as (blk & ? & ?).
    congruence.
  - intros g f k Hg Hf Hk. destruct (Hsame g f k Hg Hf Hk) as (blk & Hfb & Hkb).
    exists blk. repeat split; [done..| |].
    + by apply codepoint_to_block_Ok in Hfb as [_ ?].
    + by apply codepoint_to_block_Ok in Hkb as [_ ?].
Qed.

Lemma reconcile_block_membership_witness :
  let blocks := [mkUnicodeBlock 65 90 (lit "Upper"); mkUnicodeBlock 97 122 (lit "Lower")] in
  let r := [[(65, Name (lit "A")); (67, Name (lit "C"))]] in
  let used := [66; 67; 97] in
  block_membership blocks (reconcile r blocks used).1
  ∧ ∀ g f k, g ∈ (reconcile r blocks used).1 → first_key g = Ok f → k ∈ keys g →
      ∃ blk, codepoint_to_block f blocks = Ok blk
        ∧ codepoint_to_block k blocks = Ok blk
        ∧ in_block f blk = true ∧ in_block k blk = true.
Proof.
  intros blocks r used. apply (reconcile_block_membership r blocks used).
  - repeat constructor.
  - repeat constructor; eexists; reflexivity.
  - intros g f k ->%list_elem_of_singleton [= <-] Hk.
    repeat (apply elem_of_cons in Hk as [->|Hk]); try reflexivity.
    by apply elem_of_nil in Hk.
Defined.

(** ** Names are never overwritten *)

Lemma entries_app l1 l2 : entries (l1 ++ l2) = entries l1 ++ entries l2.
Proof. unfold entries. by rewrite join_app. Qed.

Lemma entries_cons g l : entries (g :: l) = g ++ entries l.
Proof. done. Qed.

Lemma entries_remove_unused r used :
  entries (remove_unused_codepoints r used)
  = filter (λ kv, kv.1 ∈ used) (entries r).
Proof.
  induction r as [|g r IH]; [done|].
  unfold remove_unused_codepoints in *. rewrite fmap_cons, !entries_cons.
  by rewrite filter_app, IH, remove_unused_block_filter.
Qed.

(** A successful iteration leaves the entries as they are or inserts one
    placeholder among them. *)
Lemma placed_entries c blk r1 r2 :
  placed c blk r1 r2 →
  r2 = r1
  ∨ ∃ e1 e2, entries r1 = e1 ++ e2 ∧ entries r2 = e1 ++ (c, Name []) :: e2.
Proof.
  destruct 1 as [l1 g l2 f|l1 g1 g2 l2 f|l1 l2]; [by left|right..].
  - exists (entries l1 ++ g1), (g2 ++ entries l2).
    rewrite !entries_app, !entries_cons. by rewrite <-!app_assoc.
  - exists (entries l1), (entries l2).
    rewrite !entries_app, !entries_cons. done.
Qed.

Lemma placed_entries_elem c blk r1 r2 kv :
  placed c blk r1 r2 →
  (kv ∈ entries r1 → kv ∈ entries r2)
  ∧ (kv ∈ entries r2 → kv ∈ entries r1 ∨ kv = (c, Name [])).
Proof.
  intros [->|(e1 & e2 & -> & ->)]%placed_entries; [tauto|].
  rewrite !elem_of_app, elem_of_cons. tauto.
Qed.

Lemma placed_entries_other c blk r1 r2 k :
  placed c blk r1 r2 → k ≠ c →
  filter (λ kv, kv.1 = k) (entries r2) = filter (λ kv, kv.1 = k) (entries r1).
Proof.
  intros [->|(e1 & e2 & -> & ->)]%placed_entries Hne; [done|].
  rewrite !filter_app, filter_cons_False; [done|]. simpl. congruence.
Qed.

Lemma remove_unused_apart blocks used g g' :
  apart blocks g g' →
  apart blocks (remove_unused_block used g) (remove_unused_block used g').
Proof.
  intros Hg k k' [? _]%keys_remove_unused_block [? _]%keys_remove_unused_block.
  by apply Hg.
Qed.

Lemma remove_unused_one_group_per_block blocks used r :
  one_group_per_block blocks r →
  one_group_per_block blocks (remove_unused_codepoints r used).
Proof.
  apply StronglySorted_fmap. intros g g'. apply remove_unused_apart.
Qed.

Lemma entries_all_keys r c v : (c, v) ∈ entries r → c ∈ all_keys r.
Proof.
  induction r as [|g r IH]; [by intros ?%elem_of_nil|].
  rewrite entries_cons, all_keys_cons, !elem_of_app. intros [Hin|Hin].
  - left. apply list_elem_of_fmap. by exists (c, v).
  - right. by apply IH.
Qed.

Lemma all_keys_entry r c : c ∈ all_keys r → ∃ v, (c, v) ∈ entries r.
Proof.
  induction r as [|g r IH]; [by intros ?%elem_of_nil|].
  rewrite all_keys_cons, elem_of_app.
  intros [([c' v] & -> & Hin)%list_elem_of_fmap|[v Hin]%IH].
  - exists v. rewrite entries_cons, elem_of_app. by left.
  - exists v. rewrite entries_cons, elem_of_app. by right.
Qed.

(** One iteration of the insertion loop, by the group that [find_block]
    returns: the registry is left as [find_block] left it when the group
    holds the codepoint, and otherwise the placeholder goes into that
    group, behind the entries that are not greater. *)
Lemma add_placeholder_step r0 blocks c r1 :
  add_placeholder r0 blocks c = (r1, Ok ()) →
  ∃ blk r0' i g, codepoint_to_block c blocks = Ok blk
    ∧ find_block r0 blk = Ok (r0', i) ∧ r0' !! i = Some g
    ∧ ((c ∈ keys g ∧ r1 = r0')
       ∨ ((c ∉ keys g)
          ∧ ∃ g1 g2, g = g1 ++ g2
              ∧ r1 = <[i := g1 ++ (c, Name []) :: g2]> r0'
              ∧ Forall (λ kv, kv.1 ≤ c) g1
              ∧ match g2 with [] => True | kv :: _ => c < kv.1 end)).
Proof.
  unfold add_placeholder.
  destruct (codepoint_to_block c blocks) as [blk|e] eqn:Hblk; [|done].
  destruct (find_block r0 blk) as [[r0' i]|e] eqn:Hfound; [|done].
  assert (∃ g, r0' !! i = Some g) as [g Hg].
  { unfold find_block in Hfound.
    destruct (find_group r0 blk) as [[j|]|e] eqn:Hfind; simpl in Hfound; [| |done].
    - injection Hfound as <- <-.
      apply find_group_Some in Hfind as (l1 & g & l2 & f & -> & <- & _).
      exists g. by rewrite list_lookup_middle.
    - apply find_group_None in Hfind.
      destruct (upper_bound_blocks r0 blk Hfind) as (l1 & l2 & -> & Hup & _).
      rewrite Hup in Hfound. simpl in Hfound. injection Hfound as <- <-.
      exists []. by rewrite list_insert_at_length, list_lookup_middle. }
  rewrite Hg. simpl. intros Hstep. exists blk, r0', i, g.
  split; [done|]. split; [done|]. split; [done|].
  case_bool_decide as Hc.
  - left. split; [done|]. by injection Hstep as <-.
  - right. split; [done|].
    destruct (upper_bound_keys g c) as (g1 & g2 & -> & Hup & Hg1 & Hg2).
    rewrite Hup in Hstep. rewrite list_insert_at_length in Hstep.
    injection Hstep as <-. by exists g1, g2.
Qed.

(** C2, amended.  Reconciliation keeps every entry of a used codepoint
    with its value, and every entry of the registry it leaves is such an
    old entry or an empty-string placeholder for a used codepoint.  An
    iteration of the insertion loop inserts the placeholder exactly when
    the codepoint is absent from the group that [find_block] returns for
    its block, so a reconciliation that completes has given a placeholder
    to every used codepoint that the registry did not hold.  When the
    block table is sorted and non-overlapping and the registry has its
    groups within one block each and one group per block, placeholders are
    inserted only for codepoints that the registry did not hold: the
    entries of a used codepoint that it held are the same before and
    after, and a used codepoint that it did not hold has, on completion,
    the placeholder as its one entry. *)
Theorem reconcile_names_preserved r blocks used :
  (∀ c v, c ∈ used → (c, v) ∈ entries r →
     (c, v) ∈ entries (reconcile r blocks used).1)
  ∧ (∀ c v, (c, v) ∈ entries (reconcile r blocks used).1 →
       c ∈ used ∧ ((c, v) ∈ entries r ∨ v = Name []))
  ∧ (∀ r0 c r1, add_placeholder r0 blocks c = (r1, Ok ()) →
       ∃ blk r0' i g, codepoint_to_block c blocks = Ok blk
         ∧ find_block r0 blk = Ok (r0', i) ∧ r0' !! i = Some g
         ∧ ((c ∈ keys g ∧ r1 = r0')
            ∨ ((c ∉ keys g)
               ∧ ∃ g1 g2, g = g1 ++ g2
                   ∧ r1 = <[i := g1 ++ (c, Name []) :: g2]> r0')))
  ∧ (∀ r', reconcile r blocks used = (r', Ok ()) →
       ∀ c, c ∈ used → c ∉ all_keys r → (c, Name []) ∈ entries r')
  ∧ (blocks_sorted blocks → Forall (in_one_block blocks) r →
     one_group_per_block blocks r →
     (∀ c, c ∈ used → c ∈ all_keys r →
        filter (λ kv, kv.1 = c) (entries (reconcile r blocks used).1)
        = filter (λ kv, kv.1 = c) (entries r))
     ∧ (∀ c v, (c, v) ∈ entries (reconcile r blocks used).1 →
          (c, v) ∈ entries r ∨ (v = Name [] ∧ c ∉ all_keys r))
     ∧ (∀ r', reconcile r blocks used = (r', Ok ()) →
          ∀ c, c ∈ used → c ∉ all_keys r →
            filter (λ kv, kv.1 = c) (entries r') = [(c, Name [])])).
Proof.
  assert (∀ c v, (c, v) ∈ entries (reconcile r blocks used).1 →
            c ∈ used ∧ ((c, v) ∈ entries r ∨ v = Name [])) as Honly.
  { unfold reconcile. intros c v.
    apply (add_new_codepoint_placeholders_ind
             (λ rc, (c, v) ∈ entries rc → c ∈ used ∧ ((c, v) ∈ entries r ∨ v = Name []))).
    + rewrite entries_remove_unused. intros [? ?]%list_elem_of_filter. auto.
    + intros c' blk r1 r2 Hc' _ IH Hplaced Hin.
      apply (placed_entries_elem _ _ _ _ (c, v) Hplaced) in Hin as [?|[= -> ->]];
        auto. }
  assert (∀ r', reconcile r blocks used = (r', Ok ()) →
            ∀ c, c ∈ used → c ∉ all_keys r → (c, Name []) ∈ entries r') as Hnew.
  { intros r' Hrun c Hc Habsent.
    assert (c ∈ all_keys r') as [v Hv]%all_keys_entry.
    { apply (add_new_codepoint_placeholders_keys _ _ _ _ Hrun). by right. }
    pose proof (Honly c v) as Hcv. rewrite Hrun in Hcv.
    destruct (Hcv Hv) as [_ [Hold| ->]]; [|done].
    destruct Habsent. by eapply entries_all_keys. }
  split; [|split; [exact Honly|split; [|split; [exact Hnew|]]]].
  - unfold reconcile. intros c v Hc Hcv.
    apply (add_new_codepoint_placeholders_ind
             (λ rc, (c, v) ∈ entries rc)).
    + rewrite entries_remove_unused. by apply list_elem_of_filter.
    + intros c' blk r1 r2 _ _ IH Hplaced.
      by apply (placed_entries_elem _ _ _ _ (c, v) Hplaced).
  - intros r0 c r1 Hstep.
    destruct (add_placeholder_step r0 blocks c r1 Hstep)
      as (blk & r0' & i & g & Hblk & Hfound & Hg & Hcases).
    exists blk, r0', i, g. split; [done|]. split; [done|]. split; [done|].
    destruct Hcases as [?|(Hc & g1 & g2 & ? & ? & _)]; [by left|right].
    split; [done|]. by exists g1, g2.
  - intros Hs Hone Hgroup.
    set (r0 := remove_unused_codepoints r used).
    assert (∀ c rc, c ∉ all_keys rc → filter (λ kv, kv.1 = c) (entries rc) = [])
      as Hnone.
    { intros c rc Hrc. apply filter_none. intros [k v] Hkv Heq.
      simpl in Heq. subst k. apply Hrc. by eapply entries_all_keys. }
    assert (∀ c,
      Forall (in_one_block blocks) (reconcile r blocks used).1
      ∧ one_group_per_block blocks (reconcile r blocks used).1
      ∧ (c ∈ all_keys r0 →
           c ∈ all_keys (reconcile r blocks used).1
           ∧ filter (λ kv, kv.1 = c) (entries (reconcile r blocks used).1)
             = filter (λ kv, kv.1 = c) (entries r0))
      ∧ (c ∉ all_keys r0 →
           c ∉ all_keys (reconcile r blocks used).1
           ∨ (c ∈ all_keys (reconcile r blocks used).1
              ∧ filter (λ kv, kv.1 = c) (entries (reconcile r blocks used).1)
                = [(c, Name [])]))) as Hinv.
    { intros c. unfold reconcile. fold r0.
      apply (add_new_codepoint_placeholders_ind
        (λ rc, Forall (in_one_block blocks) rc
               ∧ one_group_per_block blocks rc
               ∧ (c ∈ all_keys r0 →
                    c ∈ all_keys rc
                    ∧ filter (λ kv, kv.1 = c) (entries rc)
                      = filter (λ kv, kv.1 = c) (entries r0))
               ∧ (c ∉ all_keys r0 →
                    c ∉ all_keys rc
                    ∨ (c ∈ all_keys rc
                       ∧ filter (λ kv, kv.1 = c) (entries rc) = [(c, Name [])])))).
      + split; [by apply remove_unused_in_one_block|].
        split; [by apply remove_unused_one_group_per_block|].
        split; [done|by left].
      + intros c' blk r1 r2 _ Hblk (H1 & H2 & H3 & H4) Hplaced.
        split; [by eapply placed_in_one_block|].
        split; [by eapply placed_one_group_per_block|].
        assert (c ∈ all_keys r1 →
                filter (λ kv, kv.1 = c) (entries r2)
                = filter (λ kv, kv.1 = c) (entries r1)) as Hsame.
        { intros Hin1. destruct (decide (c = c')) as [<-|Hne].
          - by rewrite (placed_present_noop _ _ _ _ _ Hs Hblk Hplaced H1 H2 Hin1).
          - by rewrite (placed_entries_other _ _ _ _ c Hplaced Hne). }
        split.
        * intros Hin0. destruct (H3 Hin0) as [Hin1 Heq]. split.
          -- apply (placed_all_keys _ _ _ _ c Hplaced). by left.
          -- by rewrite Hsame.
        * intros Hout0. destruct (H4 Hout0) as [Hout1|[Hin1 Heq]].
          -- destruct (decide (c = c')) as [<-|Hne].
             ++ right. split; [apply (placed_all_keys _ _ _ _ c Hplaced); by right|].
                destruct (placed_entries _ _ _ _ Hplaced)
                  as [->|(e1 & e2 & He1 & ->)].
                { destruct Hout1. apply (placed_all_keys _ _ _ _ c Hplaced). by right. }
                pose proof (Hnone c r1 Hout1) as Hempty.
                rewrite He1, filter_app in Hempty.
                apply app_eq_nil in Hempty as [Hf1 Hf2].
                rewrite filter_app, filter_cons_True by done.
                by rewrite Hf1, Hf2.
             ++ left. intros [?|?]%(placed_all_keys _ _ _ _ c Hplaced); done.
          -- right. split; [apply (placed_all_keys _ _ _ _ c Hplaced); by left|].
             by rewrite Hsame. }
    assert (∀ c, c ∈ used → c ∈ all_keys r →
              filter (λ kv, kv.1 = c) (entries (reconcile r blocks used).1)
              = filter (λ kv, kv.1 = c) (entries r)) as Hsame.
    { intros c Hc Hin. destruct (Hinv c) as (_ & _ & Hkept & _).
      destruct Hkept as [_ ->]; [by apply all_keys_remove_unused|].
      unfold r0. rewrite entries_remove_unused, list_filter_filter.
      apply filter_ext_elem. intros kv _. split; [tauto|]. intros Hkv.
      split; [done|]. by rewrite Hkv. }
    split; [exact Hsame|split].
    + intros c v Hin. destruct (Honly c v Hin) as [Hc [?| ->]]; [by left|].
      destruct (decide (c ∈ all_keys r)) as [Hold|Hnew']; [|by right].
      left. assert ((c, Name []) ∈ filter (λ kv, kv.1 = c)
                      (entries (reconcile r blocks used).1)) as Hf
        by (by apply list_elem_of_filter).
      rewrite (Hsame c Hc Hold) in Hf. by apply list_elem_of_filter in Hf as [_ ?].
    + intros r' Hrun c Hc Habsent. destruct (Hinv c) as (_ & _ & _ & Hfresh).
      rewrite Hrun in Hfresh. simpl in Hfresh.
      assert (c ∉ all_keys r0) as Hout0
        by (by intros [? _]%all_keys_remove_unused).
      destruct (Hfresh Hout0) as [Hout|[_ ?]]; [|done].
      destruct Hout. apply (add_new_codepoint_placeholders_keys _ _ _ _ Hrun).
      by right.
Qed.

Lemma reconcile_names_preserved_witness :
  let blocks := [mkUnicodeBlock 65 90 (lit "Upper"); mkUnicodeBlock 97 122 (lit "Lower")] in
  let r := [[(65, Name (lit "A")); (67, Name (lit "C"))]; [(97, Names [lit "a"; lit "LOWER_A"])]] in
  let used := [65; 66; 97; 98] in
  let r' := [[(65, Name (lit "A")); (66, Name [])];
             [(97, Names [lit "a"; lit "LOWER_A"]); (98, Name [])]] in
  reconcile r blocks used = (r', Ok ())
  ∧ (∀ c v, c ∈ used → (c, v) ∈ entries r → (c, v) ∈ entries r')
  ∧ (∀ c v, (c, v) ∈ entries r' →
       c ∈ used ∧ ((c, v) ∈ entries r ∨ v = Name []))
  ∧ (∀ c, c ∈ used → c ∉ all_keys r → (c, Name []) ∈ entries r')
  ∧ (∀ c, c ∈ used → c ∈ all_keys r →
       filter (λ kv, kv.1 = c) (entries r') = filter (λ kv, kv.1 = c) (entries r))
  ∧ (∀ c v, (c, v) ∈ entries r' →
       (c, v) ∈ entries r ∨ (v = Name [] ∧ c ∉ all_keys r))
  ∧ (∀ c, c ∈ used → c ∉ all_keys r →
       filter (λ kv, kv.1 = c) (entries r') = [(c, Name [])]).
Proof.
  intros blocks r used r'.
  assert (reconcile r blocks used = (r', Ok ())) as Hrun by reflexivity.
  destruct (reconcile_names_preserved r blocks used)
    as (Hkeep & Honly & _ & Hnew & Hblocks).
  destruct Hblocks as (Hsame & Hfresh & Honce).
  - repeat constructor.
  - repeat constructor; intros k1 k2 Hk1 Hk2;
      repeat (apply elem_of_cons in Hk1 as [->|Hk1]);
      repeat (apply elem_of_cons in Hk2 as [->|Hk2]);
      try (by apply elem_of_nil in Hk1); try (by apply elem_of_nil in Hk2);
      eexists; split; reflexivity.
  - repeat constructor. intros k k' Hk Hk' (blk & H1 & H2).
    repeat (apply elem_of_cons in Hk as [->|Hk]);
      try (by apply elem_of_nil in Hk);
      apply list_elem_of_singleton in Hk' as ->;
      vm_compute in H1, H2; congruence.
  - rewrite Hrun in Hkeep, Honly, Hsame, Hfresh.
    split; [exact Hrun|]. split; [exact Hkeep|]. split; [exact Honly|].
    split; [exact (Hnew r' Hrun)|]. split; [exact Hsame|].
    split; [exact Hfresh|exact (Honce r' Hrun)].
Defined.

(** C2 as stated fails on a registry that files a codepoint under the
    group of another block: the codepoint is present, and reconciliation
    still inserts a placeholder for it, in the group of its own block. *)
Lemma reconcile_placeholder_for_present :
  let blocks := [mkUnicodeBlock 65 90 (lit "Upper"); mkUnicodeBlock 97 122 (lit "Lower")] in
  let r := [[(65, Name (lit "A")); (97, Name (lit "a"))]] in
  let used := [65; 97] in
  reconcile r blocks used
  = ([[(65, Name (lit "A")); (97, Name (lit "a"))]; [(97, Name [])]], Ok ())
  ∧ 97 ∈ all_keys r
  ∧ (97, Name []) ∈ entries (reconcile r blocks used).1
  ∧ (97, Name []) ∉ entries r.
Proof.
  intros blocks r used. split; [reflexivity|split; [|split]].
  - vm_compute. right. left.
  - vm_compute. do 2 right. left.
  - vm_compute. intros Hin.
    repeat (apply elem_of_cons in Hin as [Hin|Hin]; [discriminate|]).
    by apply elem_of_nil in Hin.
Qed.

(** ** Sortedness *)

Lemma keys_filter (P : Codepoint → Prop) `{!∀ k, Decision (P k)}
    (g : CodepointNames) :
  keys (filter (λ kv, P kv.1) g) = filter P (keys g).
Proof.
  induction g as [|kv g IH]; [done|].
  rewrite keys_cons, !filter_cons. destruct (decide (P kv.1)); [|done].
  by rewrite keys_cons, IH.
Qed.

Lemma all_keys_remove_unused_filter r used :
  all_keys (remove_unused_codepoints r used) = filter (.∈ used) (all_keys r).
Proof.
  induction r as [|g r IH]; [done|].
  unfold remove_unused_codepoints in *. rewrite fmap_cons, !all_keys_cons.
  rewrite filter_app, IH, remove_unused_block_filter. f_equal.
  exact (keys_filter (.∈ used) g).
Qed.

Lemma StronglySorted_filter {A} (R : relation A) (P : A → Prop)
    `{!∀ x, Decision (P x)} (l : list A) :
  StronglySorted R l → StronglySorted R (filter P l).
Proof.
  induction 1 as [|x l Hl IH Hx]; [constructor|].
  rewrite filter_cons. destruct (decide (P x)); [|done].
  constructor; [done|]. rewrite Forall_forall in *.
  intros y [_ ?]%list_elem_of_filter. auto.
Qed.

Lemma StronglySorted_lt_NoDup (l : list N) : StronglySorted N.lt l → NoDup l.
Proof.
  induction 1 as [|x l Hl IH Hx]; constructor; [|done].
  rewrite Forall_forall in Hx. intros Hin. specialize (Hx x Hin). lia.
Qed.

Lemma StronglySorted_lt_insert (l1 l2 : list N) c :
  StronglySorted N.lt (l1 ++ l2) →
  (∀ a, a ∈ l1 → a < c) → (∀ b, b ∈ l2 → c < b) →
  StronglySorted N.lt (l1 ++ c :: l2).
Proof.
  rewrite !StronglySorted_app, StronglySorted_cons, Forall_forall.
  intros (Hcross & ? & ?) H1 H2. repeat split; [|done..].
  intros x1 x2 Hx1 [->|Hx2]%elem_of_cons; auto.
Qed.

Lemma first_keys_cons g r :
  first_keys (g :: r)
  = match first_key g with Ok f => [f] | Raise _ => [] end ++ first_keys r.
Proof. done. Qed.

Lemma elem_of_first_keys f r :
  f ∈ first_keys r ↔ ∃ g, g ∈ r ∧ first_key g = Ok f.
Proof.
  unfold first_keys. rewrite list_elem_of_bind. split.
  - intros (g & Hf & Hg). exists g. split; [done|].
    destruct (first_key g); [|by apply elem_of_nil in Hf].
    by apply list_elem_of_singleton in Hf as ->.
  - intros (g & Hg & Hf). exists g. rewrite Hf. split; [by left|done].
Qed.

Lemma first_keys_all_keys f r : f ∈ first_keys r → f ∈ all_keys r.
Proof.
  intros (g & Hg & Hf)%elem_of_first_keys. apply elem_of_all_keys.
  exists g. split; [done|by apply first_key_elem].
Qed.

(** The keys of the whole registry in increasing order: this is what the
    two sortedness conditions amount to when groups lie in distinct
    blocks of a sorted table. *)
Lemma flat_sorted_groups r :
  StronglySorted N.lt (all_keys r) → groups_sorted r ∧ registry_sorted r.
Proof.
  unfold groups_sorted, registry_sorted.
  induction r as [|g r IH]; [by split; constructor|].
  rewrite all_keys_cons, StronglySorted_app, first_keys_cons.
  intros (Hcross & Hg & [? ?]%IH). split; [by constructor|].
  destruct (first_key g) as [f|e] eqn:Hf; [|done]. simpl.
  constructor; [done|]. apply Forall_forall. intros f' Hf'.
  apply Hcross; [by apply first_key_elem|by apply first_keys_all_keys].
Qed.

Lemma groups_flat_sorted blocks r :
  blocks_sorted blocks →
  Forall (in_one_block blocks) r → one_group_per_block blocks r →
  groups_sorted r → registry_sorted r →
  StronglySorted N.lt (all_keys r).
Proof.
  intros Hs. unfold one_group_per_block, groups_sorted, registry_sorted.
  induction r as [|g r IH]; [constructor|].
  rewrite !Forall_cons, StronglySorted_cons, first_keys_cons.
  intros [Hg Hone] [Hapart Hgroup] [Hgs Hrs] Hfirst.
  rewrite all_keys_cons. apply StronglySorted_app.
  assert (StronglySorted N.lt (first_keys r)) as Hfr.
  { rewrite StronglySorted_app in Hfirst. tauto. }
  repeat split; [|done|by apply IH].
  intros k k' Hk (g' & Hg' & Hk')%elem_of_all_keys.
  destruct (first_key g) as [f|e] eqn:Hf;
    [|apply first_key_Raise in Hf as [-> _]; by apply elem_of_nil in Hk].
  destruct (first_key g') as [f'|e] eqn:Hf';
    [|apply first_key_Raise in Hf' as [-> _]; by apply elem_of_nil in Hk'].
  rewrite Forall_forall in Hapart, Hone.
  destruct (Hg f k (first_key_elem _ _ Hf) Hk) as (b1 & Hfb & Hkb).
  destruct (Hone g' Hg' f' k' (first_key_elem _ _ Hf') Hk') as (b2 & Hfb' & Hkb').
  eapply (blocks_sorted_order blocks b1 b2 f f'); try done.
  - intros ->. apply (Hapart g' Hg' k k' Hk Hk'). by exists b2.
  - simpl in Hfirst. apply StronglySorted_cons in Hfirst as [Hlt _].
    rewrite Forall_forall in Hlt. apply Hlt, elem_of_first_keys. eauto.
Qed.

Lemma in_one_block_covered blocks g k :
  in_one_block blocks g → k ∈ keys g →
  ∃ b, codepoint_to_block k blocks = Ok b.
Proof. intros Hg Hk. destruct (Hg k k Hk Hk) as (b & ? & _). eauto. Qed.

(** The upper-bound positions keep the keys of the whole registry in
    increasing order. *)
Lemma placed_flat_sorted blocks c blk r1 r2 :
  blocks_sorted blocks → codepoint_to_block c blocks = Ok blk →
  placed c blk r1 r2 →
  Forall (in_one_block blocks) r1 → one_group_per_block blocks r1 →
  StronglySorted N.lt (all_keys r1) → StronglySorted N.lt (all_keys r2).
Proof.
  intros Hs Hc. unfold one_group_per_block.
  destruct 1 as [l1 g l2 f|l1 g1 g2 l2 f _ Hf Hin Hnew Hg1 Hg2
                |l1 l2 Hpassed Hl1 Hl2]; [done|..].
  - rewrite Forall_app, Forall_cons, !Forall_forall. intros (Hone1 & Hone & Hone2).
    rewrite StronglySorted_app, StronglySorted_cons, !Forall_forall.
    intros (Hcross & _ & Hapart & _).
    pose proof (first_key_elem _ _ Hf) as Hfk.
    pose proof (found_same_block _ _ _ _ Hs Hc Hin) as (b & Hfb & Hcb).
    assert (b = blk) as -> by congruence.
    rewrite !all_keys_app, !all_keys_cons, !keys_app, keys_cons. simpl.
    rewrite <-!app_assoc, !(app_assoc (all_keys l1)). simpl.
    intros Hflat. apply StronglySorted_lt_insert; [done|..].
    + intros a [(x & Hx & Ha)%elem_of_all_keys|Ha]%elem_of_app.
      * destruct (in_one_block_covered blocks x a (Hone1 x Hx) Ha) as [ba Hab].
        eapply (blocks_sorted_order blocks ba blk a f); try done.
        -- intros ->. apply (Hcross x (g1 ++ g2) Hx ltac:(by left) a f Ha Hfk).
           by exists blk.
        -- rewrite <-app_assoc in Hflat.
           apply (StronglySorted_app_1_elem_of _ _ _ _ _ Hflat).
           ++ apply elem_of_all_keys. eauto.
           ++ rewrite app_assoc, <-keys_app, elem_of_app. by left.
      * apply list_elem_of_fmap in Ha as (kv & -> & Hkv).
        rewrite Forall_forall in Hg1. specialize (Hg1 kv Hkv). simpl in Hg1.
        assert (kv.1 ≠ c); [|lia]. intros <-. apply Hnew.
        rewrite keys_app, elem_of_app. left. apply list_elem_of_fmap. eauto.
    + assert (∀ b, b ∈ keys g2 → c < b) as Hafter.
      { destruct g2 as [|kv g2]; [by intros ? ?%elem_of_nil|].
        rewrite keys_cons in Hflat.
        apply StronglySorted_app_1_r, StronglySorted_app_1_l in Hflat.
        apply StronglySorted_cons in Hflat as [Hkv _].
        rewrite Forall_forall in Hkv.
        intros b' [->|Hb']%elem_of_cons; [done|].
        specialize (Hkv b' Hb'). lia. }
      intros b' [Hb'|(x & Hx & Hb')%elem_of_all_keys]%elem_of_app; [auto|].
      destruct (in_one_block_covered blocks x b' (Hone2 x Hx) Hb') as [bb Hbb].
      eapply (blocks_sorted_order blocks blk bb f b'); try done.
      * intros <-. apply (Hapart x Hx f b' Hfk Hb'). by exists blk.
      * rewrite !app_assoc in Hflat.
        apply (StronglySorted_app_1_elem_of _ _ _ _ _ Hflat).
        -- rewrite <-app_assoc, <-keys_app, elem_of_app. by right.
        -- apply elem_of_all_keys. eauto.
  - rewrite Forall_app, !Forall_forall. intros (Hone1 & Hone2) _.
    rewrite !all_keys_app, !all_keys_cons. simpl.
    intros Hflat. apply StronglySorted_lt_insert; [done|..].
    + intros a (x & Hx & Ha)%elem_of_all_keys.
      rewrite Forall_forall in Hl1. destruct (Hl1 x Hx) as (f' & Hf' & Hlt).
      destruct (Hone1 x Hx f' a (first_key_elem _ _ Hf') Ha) as (ba & Hfa & Hab).
      pose proof Hc as [_ [? ?]%in_block_spec]%codepoint_to_block_Ok.
      eapply (blocks_sorted_order blocks ba blk f' c); try done; [|lia].
      intros ->. apply codepoint_to_block_Ok in Hfa as [_ [? ?]%in_block_spec]. lia.
    + destruct l2 as [|g l2]; [by intros ? ?%elem_of_nil|].
      destruct Hl2 as (f'' & (v & g' & ->)%first_key_Ok & Hlt).
      pose proof Hc as [_ [? ?]%in_block_spec]%codepoint_to_block_Ok.
      apply StronglySorted_app_1_r in Hflat.
      rewrite all_keys_cons, keys_cons in *. simpl in *.
      apply StronglySorted_cons in Hflat as [Hf'' _].
      rewrite Forall_forall in Hf''.
      intros b' [->|Hb']%elem_of_cons; [lia|]. specialize (Hf'' b' Hb'). lia.
Qed.

(** The two conditions on the blocks of the groups survive
    reconciliation, whatever its outcome. *)
Lemma reconcile_block_invariants r blocks used :
  blocks_sorted blocks →
  Forall (in_one_block blocks) r → one_group_per_block blocks r →
  Forall (in_one_block blocks) (reconcile r blocks used).1
  ∧ one_group_per_block blocks (reconcile r blocks used).1.
Proof.
  intros Hs Hone Hgroup. unfold reconcile.
  apply add_new_codepoint_placeholders_ind.
  - split.
    + by apply remove_unused_in_one_block.
    + by apply remove_unused_one_group_per_block.
  - intros c blk r1 r2 _ Hc [? ?] Hplaced. split.
    + by eapply placed_in_one_block.
    + by eapply placed_one_group_per_block.
Qed.

(** C3, amended.  With a sorted, non-overlapping block table and a
    registry whose groups lie within one block each, one group per block,
    sortedness is preserved by reconciliation: if every group's entries
    are strictly increasing by codepoint and the groups are strictly
    increasing by first key, the same holds in the registry that
    [remove_unused_codepoints] and [add_new_codepoint_placeholders] leave
    (whatever the outcome of the second), no group holds a key twice, and
    the two conditions on the blocks of the groups hold again. *)
Theorem reconcile_sorted r blocks used :
  blocks_sorted blocks →
  Forall (in_one_block blocks) r → one_group_per_block blocks r →
  groups_sorted r → registry_sorted r →
  groups_sorted (reconcile r blocks used).1
  ∧ registry_sorted (reconcile r blocks used).1
  ∧ Forall (λ g, NoDup (keys g)) (reconcile r blocks used).1
  ∧ Forall (in_one_block blocks) (reconcile r blocks used).1
  ∧ one_group_per_block blocks (reconcile r blocks used).1.
Proof.
  intros Hs Hone Hgroup Hgs Hrs.
  assert (Forall (in_one_block blocks) (reconcile r blocks used).1
          ∧ one_group_per_block blocks (reconcile r blocks used).1
          ∧ StronglySorted N.lt (all_keys (reconcile r blocks used).1))
    as (H1 & H2 & H3).
  { unfold reconcile. apply add_new_codepoint_placeholders_ind.
    - repeat split.
      + by apply remove_unused_in_one_block.
      + by apply remove_unused_one_group_per_block.
      + rewrite all_keys_remove_unused_filter. apply StronglySorted_filter.
        by eapply groups_flat_sorted.
    - intros c blk r1 r2 _ Hc (? & ? & ?) Hplaced. repeat split.
      + by eapply placed_in_one_block.
      + by eapply placed_one_group_per_block.
      + by eapply placed_flat_sorted. }
  apply flat_sorted_groups in H3 as [H3 H4]. repeat split; [done..| |done|done].
  eapply Forall_impl; [exact H3|]. intros g. apply StronglySorted_lt_NoDup.
Qed.

Lemma reconcile_sorted_witness :
  let blocks := [mkUnicodeBlock 65 90 (lit "Upper"); mkUnicodeBlock 97 122 (lit "Lower")] in
  let r := [[(66, Name (lit "B")); (90, Name (lit "Z"))]; [(98, Name (lit "b"))]] in
  let used := [65; 67; 90; 97; 98] in
  groups_sorted (reconcile r blocks used).1
  ∧ registry_sorted (reconcile r blocks used).1
  ∧ Forall (λ g, NoDup (keys g)) (reconcile r blocks used).1
  ∧ Forall (in_one_block blocks) (reconcile r blocks used).1
  ∧ one_group_per_block blocks (reconcile r blocks used).1.
Proof.
  intros blocks r used. apply (reconcile_sorted r blocks used).
  - repeat constructor.
  - repeat constructor; intros k1 k2 Hk1 Hk2;
      repeat (apply elem_of_cons in Hk1 as [->|Hk1]);
      repeat (apply elem_of_cons in Hk2 as [->|Hk2]);
      try (by apply elem_of_nil in Hk1); try (by apply elem_of_nil in Hk2);
      eexists; split; reflexivity.
  - repeat constructor. intros k k' Hk Hk' (blk & H1 & H2).
    repeat (apply elem_of_cons in Hk as [->|Hk]);
      try (by apply elem_of_nil in Hk);
      apply list_elem_of_singleton in Hk' as ->;
      vm_compute in H1, H2; congruence.
  - repeat constructor.
  - repeat constructor.
Defined.

(** C3 as stated fails on a sorted registry that has two groups for one
    block: removal moves the first key of the first group past the second
    group, and the insertion that follows gives both groups the same
    first key. *)
Lemma reconcile_unsorted_two_groups :
  let blocks := [mkUnicodeBlock 65 90 (lit "Upper")] in
  let r := [[(65, Name (lit "A")); (90, Name (lit "Z"))]; [(77, Name (lit "M"))]] in
  let used := [77; 90] in
  groups_sorted r ∧ registry_sorted r
  ∧ reconcile r blocks used
    = ([[(77, Name []); (90, Name (lit "Z"))]; [(77, Name (lit "M"))]], Ok ())
  ∧ ¬ registry_sorted (reconcile r blocks used).1.
Proof.
  intros blocks r used. split; [|split; [|split]].
  - repeat constructor.
  - repeat constructor.
  - reflexivity.
  - vm_compute. intros Hs. apply StronglySorted_cons in Hs as [Hlt _].
    apply Forall_cons in Hlt as [Hlt _]. vm_compute in Hlt. discriminate.
Qed.

(** ** Empty groups *)

Lemma add_codepoint_comments_from_empty `{Externals} i r blocks :
  [] ∈ r → raises (add_codepoint_comments_from i r blocks).2.
Proof.
  revert i. induction r as [|item r IH]; intros i Hin.
  - by apply elem_of_nil in Hin.
  - simpl. destruct (first_key item) as [f|e] eqn:Hf; simpl; [|by exists e].
    destruct (codepoint_to_block f blocks) as [blk|e]; [|by exists e].
    destruct (add_item_comments i item (keys item)) as [calls [[]|e]];
      [|by exists e].
    apply elem_of_cons in Hin as [<-|Hin]; [done|].
    specialize (IH (S i) Hin).
    by destruct (add_codepoint_comments_from (S i) r blocks).
Qed.

Lemma find_block_empty l1 l2 blk :
  Forall (passed blk) l1 → find_block (l1 ++ [] :: l2) blk = Raise IndexError.
Proof. intros Hl1. unfold find_block. by rewrite find_group_empty. Qed.

Lemma reconcile_keeps_empty r blocks used :
  [] ∈ remove_unused_codepoints r used → [] ∈ (reconcile r blocks used).1.
Proof.
  intros Hin. unfold reconcile. apply add_new_codepoint_placeholders_ind; [done|].
  intros c blk r1 r2 _ _ IH Hplaced. by apply (placed_empty_group _ _ _ _ Hplaced).
Qed.

(** C10.  [first_key] raises [IndexError] on a group without entries.
    Hence the comment pass raises on every registry that holds such a
    group, [find_block] raises when its scan reaches such a group, and
    [update_codepoints] raises whenever [remove_unused_codepoints] has
    left a group without entries: the insertion pass never fills or
    removes it. *)
Theorem empty_group_raises `{Externals} :
  first_key [] = Raise IndexError
  ∧ (∀ r blocks, [] ∈ r → raises (add_codepoint_comments r blocks).2)
  ∧ (∀ l1 l2 blk, Forall (passed blk) l1 →
       find_block (l1 ++ [] :: l2) blk = Raise IndexError)
  ∧ (∀ r blocks used, [] ∈ remove_unused_codepoints r used →
       raises (update_codepoints r blocks used).2).
Proof.
  split; [done|split; [|split]].
  - intros r blocks. apply add_codepoint_comments_from_empty.
  - apply find_block_empty.
  - intros r blocks used Hin. unfold update_codepoints.
    pose proof (reconcile_keeps_empty r blocks used Hin) as Hkept.
    destruct (reconcile r blocks used) as [r' [[]|e]]; [|by exists e].
    pose proof (add_codepoint_comments_from_empty 0 r' blocks Hkept) as Hraises.
    unfold add_codepoint_comments.
    by destruct (add_codepoint_comments_from 0 r' blocks).
Qed.

Lemma empty_group_raises_witness :
  let upper := mkUnicodeBlock 65 90 (lit "Upper") in
  let lower := mkUnicodeBlock 97 122 (lit "Lower") in
  raises (@add_codepoint_comments ascii_externals
            [[(65, Name (lit "A"))]; []] [upper; lower]).2
  ∧ find_block ([[(65, Name (lit "A"))]] ++ [] :: [[(98, Name (lit "b"))]]) lower
    = Raise IndexError
  ∧ raises (@update_codepoints ascii_externals
              [[(65, Name (lit "A"))]; [(97, Name (lit "a"))]]
              [upper; lower] [65; 98]).2.
Proof.
  intros upper lower.
  destruct (@empty_group_raises ascii_externals) as (_ & Hpass & Hfind & Hupdate).
  split; [|split].
  - apply Hpass. right. left.
  - apply Hfind. repeat constructor. exists 65. split; reflexivity.
  - apply Hupdate. vm_compute. right. left.
Defined.

(** ** The comment pass *)

Section comments.
Context `{Externals}.

Lemma getitem_key item c : c ∈ keys item → ∃ v, getitem item c = Ok v.
Proof.
  induction item as [|[k v] item IH]; [by intros ?%elem_of_nil|].
  rewrite keys_cons. simpl. intros [->|Hin]%elem_of_cons.
  - rewrite N.eqb_refl. eauto.
  - destruct (k =? c); eauto.
Qed.

Lemma truthy_false v : truthy v = false ↔ v = Name [] ∨ v = Names [].
Proof.
  destruct v as [[|? ?]|[|? ?]]; simpl; split; try done; auto;
    by intros [?|?].
Qed.

Lemma get_char_comments_fragments item c v :
  getitem item c = Ok v → get_char_comments item c = Ok (fragments c v).
Proof.
  intros Hv. unfold get_char_comments, fragments. rewrite Hv. simpl.
  destruct (truthy v); [done|]. simpl. by destruct (unicodedata_name c).
Qed.

Lemma str_join_nonempty sep p parts : p ≠ [] → str_join sep (p :: parts) ≠ [].
Proof. destruct p, parts; naive_solver. Qed.

Lemma fragments_nonempty c v : str_join (lit " ") (fragments c v) ≠ [].
Proof.
  apply str_join_nonempty. by destruct (is_visible_character c).
Qed.

Lemma add_item_comments_calls i item ks :
  (∀ c, c ∈ ks → c ∈ keys item) →
  ∃ calls, add_item_comments i item ks = (calls, Ok ())
    ∧ ∀ c, c ∈ ks → ∃ v, getitem item c = Ok v
        ∧ add_eol_comment i (lit "# " ++ str_join (lit " ") (fragments c v)) c
          ∈ calls.
Proof.
  induction ks as [|c ks IH]; intros Hks.
  - exists []. split; [done|]. by intros ? ?%elem_of_nil.
  - destruct IH as (calls & Hcalls & Hall); [intros; apply Hks; by right|].
    destruct (getitem_key item c) as [v Hv]; [apply Hks; by left|].
    cbn [add_item_comments].
    rewrite (get_char_comments_fragments _ _ _ Hv), Hcalls.
    pose proof (fragments_nonempty c v) as Hne.
    destruct (str_join (lit " ") (fragments c v)) as [|x comment] eqn:Hjoin;
      [done|].
    eexists. split; [done|].
    intros c' [->|Hc']%elem_of_cons.
    + exists v. split; [done|]. rewrite Hjoin. by left.
    + destruct (Hall c' Hc') as (v' & ? & ?). exists v'. split; [done|].
      by right.
Qed.

Lemma add_codepoint_comments_from_calls i r blocks calls :
  add_codepoint_comments_from i r blocks = (calls, Ok ()) →
  ∀ j item, r !! j = Some item →
    (∃ f blk, first_key item = Ok f ∧ codepoint_to_block f blocks = Ok blk
       ∧ set_comment_before (i + j) (10 :: name blk) ∈ calls)
    ∧ ∀ c, c ∈ keys item → ∃ v, getitem item c = Ok v
        ∧ add_eol_comment (i + j)
            (lit "# " ++ str_join (lit " ") (fragments c v)) c ∈ calls.
Proof.
  revert i calls. induction r as [|item r IH]; intros i calls; [done|].
  simpl. destruct (first_key item) as [f|e] eqn:Hf; [|done]. simpl.
  destruct (codepoint_to_block f blocks) as [blk|e] eqn:Hblk; [|done].
  destruct (add_item_comments_calls i item (keys item)) as (cs & -> & Hcs);
    [done|].
  destruct (add_codepoint_comments_from (S i) r blocks) as [cs' out] eqn:Hrest.
  intros [= <- ->]. intros [|j] item' Hj; simpl in Hj.
  - injection Hj as <-. rewrite Nat.add_0_r. split.
    + exists f, blk. repeat split; [done..|by left].
    + intros c Hc. destruct (Hcs c Hc) as (v & ? & ?). exists v.
      split; [done|]. right. apply elem_of_app. by left.
  - destruct (IH _ _ Hrest j item' Hj) as [(f' & blk' & ? & ? & ?) Hentries].
    replace (i + S j)%nat with (S i + j)%nat by lia. split.
    + exists f', blk'. repeat split; [done..|].
      right. apply elem_of_app. by right.
    + intros c Hc. destruct (Hentries c Hc) as (v & ? & ?). exists v.
      split; [done|]. right. apply elem_of_app. by right.
Qed.

Lemma add_codepoint_comments_from_total i r blocks :
  Forall (λ g, ∃ f blk, first_key g = Ok f
                 ∧ codepoint_to_block f blocks = Ok blk) r →
  ∃ calls, add_codepoint_comments_from i r blocks = (calls, Ok ()).
Proof.
  intros Hr. revert i.
  induction Hr as [|item r (f & blk & Hf & Hblk) _ IH]; intros i; [by eexists|].
  simpl. rewrite Hf. simpl. rewrite Hblk.
  destruct (add_item_comments_calls i item (keys item)) as (cs & -> & _);
    [done|].
  destruct (IH (S i)) as [cs' ->]. by eexists.
Qed.

(** Runs of characters outside [\w] become one underscore each, and the
    characters of [\w] stay. *)
Lemma sub_nonword_word b w s :
  Forall (λ x, is_word x = true) w → w ≠ [] →
  sub_nonword b (w ++ s) = w ++ sub_nonword false s.
Proof.
  intros Hw. revert b. induction Hw as [|x w Hx Hw IH]; intros b Hne; [done|].
  simpl. rewrite Hx. f_equal. destruct w as [|y w]; [done|]. by apply IH.
Qed.

Lemma sub_nonword_run_true run s :
  Forall (λ x, is_word x = false) run →
  sub_nonword true (run ++ s) = sub_nonword true s.
Proof. induction 1 as [|x run Hx _ IH]; [done|]. simpl. by rewrite Hx. Qed.

Lemma sub_nonword_run run s :
  Forall (λ x, is_word x = false) run → run ≠ [] →
  sub_nonword false (run ++ s) = 95 :: sub_nonword true s.
Proof.
  destruct 1 as [|x run Hx Hrun]; [done|]. intros _. simpl. rewrite Hx.
  by rewrite sub_nonword_run_true.
Qed.

Lemma sub_nonword_true_word s :
  match s with [] => True | x :: _ => is_word x = true end →
  sub_nonword true s = sub_nonword false s.
Proof. destruct s as [|x s]; [done|]. simpl. by intros ->. Qed.

Lemma sub_nonword_chars b s :
  Forall (λ x, is_word x = true ∨ x = 95) (sub_nonword b s).
Proof.
  revert b. induction s as [|x s IH]; intros b; [constructor|]. simpl.
  destruct (is_word x) eqn:Hx; [by constructor; auto|].
  destruct b; [done|]. constructor; auto.
Qed.
End comments.

(** ** Comment padding *)

Lemma occurs_elem pat s x : occurs pat s → x ∈ pat → x ∈ s.
Proof.
  intros (pre & post & ->) Hx. rewrite !elem_of_app. auto.
Qed.

Lemma occurs_wide_cons x s :
  occurs [32; 32; 35] (x :: s) →
  (x = 32 ∧ ∃ post, s = 32 :: 35 :: post) ∨ occurs [32; 32; 35] s.
Proof.
  intros ([|y pre] & post & Heq); simpl in Heq.
  - injection Heq as -> ->. left. eauto.
  - injection Heq as -> ->. right. by exists pre, post.
Qed.

Lemma occurs_wide_spaces p x s :
  x ≠ 32 → (x = 35 → p = 0%nat) →
  ¬ occurs [32; 32; 35] s → ¬ occurs [32; 32; 35] (replicate p 32 ++ x :: s).
Proof.
  intros Hx Hp Hs.
  assert (¬ occurs [32; 32; 35] (x :: s)) as Hxs.
  { intros [[? _]|?]%occurs_wide_cons; done. }
  destruct (decide (x = 35)) as [->|Hne]; [by rewrite Hp|]. clear Hp.
  induction p as [|p IH]; [done|]. simpl.
  intros [[_ [post Hpost]]|?]%occurs_wide_cons; [|done].
  destruct p as [|[|p]]; simpl in Hpost; by simplify_eq.
Qed.

(** The substitution leaves no comment marker behind two spaces. *)
Lemma comment_pad_sub_no_wide p line :
  ¬ occurs [32; 32; 35] (comment_pad_sub p line).
Proof.
  revert p. induction line as [|x line IH]; intros p; simpl.
  - intros Hocc. apply (occurs_elem _ _ 35) in Hocc; [|do 2 right; by left].
    by apply elem_of_replicate in Hocc as [? _].
  - destruct (x =? 32) eqn:Hsp; [apply IH|]. apply N.eqb_neq in Hsp.
    destruct (x =? 35) eqn:Hhash; simpl.
    + case_bool_decide as Hp.
      * intros [[_ [post Hpost]]|[[? _]|?]%occurs_wide_cons]%occurs_wide_cons;
          [done..|]. by apply (IH 0%nat).
      * apply occurs_wide_spaces; [done|lia|apply IH].
    + apply N.eqb_neq in Hhash. apply occurs_wide_spaces; [done..|apply IH].
Qed.


(** Characters that are neither a space nor a comment marker pass
    unchanged, after the spaces held back. *)
Lemma comment_pad_sub_plain p w line :
  Forall (λ x, x ≠ 32 ∧ x ≠ 35) w → w ≠ [] →
  comment_pad_sub p (w ++ line) = replicate p 32 ++ w ++ comment_pad_sub 0 line.
Proof.
  intros Hw. revert p. induction Hw as [|x w [Hsp Hhash] Hw IH]; intros p Hne;
    [done|].
  apply N.eqb_neq in Hsp, Hhash. simpl. rewrite Hsp, Hhash. simpl.
  do 2 f_equal. destruct w as [|y w]; [done|]. by rewrite IH.
Qed.




Section transform.
Context `{Externals}.



End transform.

(** ** Key escapes *)

Lemma hex_value_snoc s d :
  hex_value (s ++ [d]) = 16 * hex_value s + (if d <? 58 then d - 48 else d - 55).
Proof. unfold hex_value. by rewrite foldl_app. Qed.

Lemma hex_digit_value d :
  d < 16 →
  (if hex_digit d <? 58 then hex_digit d - 48 else hex_digit d - 55) = d
  ∧ is_upper_hex (hex_digit d).
Proof.
  intros Hd. unfold hex_digit, is_upper_hex.
  destruct (d <? 10) eqn:Hlt.
  - apply N.ltb_lt in Hlt. assert ((48 + d <? 58) = true) as -> by (apply N.ltb_lt; lia).
    lia.
  - apply N.ltb_ge in Hlt. assert ((55 + d <? 58) = false) as -> by (apply N.ltb_ge; lia).
    lia.
Qed.

Lemma hex_digits_value fuel n :
  n < 2 ^ N.of_nat fuel → hex_value (hex_digits fuel n) = n.
Proof.
  revert n. induction fuel as [|fuel IH]; intros n Hn.
  - simpl in *. assert (n = 0) as -> by lia. done.
  - simpl. destruct (n =? 0) eqn:Hz; [by apply N.eqb_eq in Hz as ->|].
    rewrite hex_value_snoc, IH.
    + destruct (hex_digit_value (n mod 16)) as [-> _];
        [by apply N.mod_lt|].
      symmetry. apply N.Div0.div_mod.
    + rewrite Nat2N.inj_succ, N.pow_succ_r' in Hn.
      apply N.Div0.div_lt_upper_bound. lia.
Qed.

Lemma hex_digits_upper fuel n : Forall is_upper_hex (hex_digits fuel n).
Proof.
  revert n. induction fuel as [|fuel IH]; intros n; simpl; [constructor|].
  destruct (n =? 0); [constructor|]. apply Forall_app. split; [apply IH|].
  constructor; [|constructor]. by apply hex_digit_value, N.mod_lt.
Qed.

Lemma hex_digits_length fuel n k :
  n < 16 ^ N.of_nat k → (length (hex_digits fuel n) ≤ k)%nat.
Proof.
  revert n k. induction fuel as [|fuel IH]; intros n k Hn; simpl; [lia|].
  destruct (n =? 0) eqn:Hz; [simpl; lia|]. apply N.eqb_neq in Hz.
  destruct k as [|k]; [simpl in Hn; lia|].
  rewrite length_app. simpl. specialize (IH (n / 16) k).
  rewrite Nat2N.inj_succ, N.pow_succ_r' in Hn.
  assert (n / 16 < 16 ^ N.of_nat k) by (apply N.Div0.div_lt_upper_bound; lia).
  lia.
Qed.

Lemma hex_value_zeros k s : hex_value (replicate k 48 ++ s) = hex_value s.
Proof. induction k as [|k IH]; [done|]. exact IH. Qed.

(** The format writes the number in uppercase hexadecimal digits, at
    least four of them, and exactly four below [0x10000]. *)
Lemma format_04X_spec n :
  (4 ≤ length (format_04X n))%nat
  ∧ Forall is_upper_hex (format_04X n)
  ∧ hex_value (format_04X n) = n
  ∧ (n < 65536 → length (format_04X n) = 4%nat).
Proof.
  unfold format_04X. set (digits := hex_digits _ n).
  rewrite length_app, length_replicate. repeat split.
  - lia.
  - apply Forall_app. split; [|apply hex_digits_upper].
    apply Forall_replicate. left. lia.
  - rewrite hex_value_zeros. apply hex_digits_value.
    rewrite N2Nat.id. apply N.size_gt.
  - intros Hn. assert (length digits ≤ 4)%nat; [|lia].
    by apply hex_digits_length.
Qed.

Lemma starts_with_true pat s :
  starts_with pat s = true ↔ ∃ post, s = pat ++ post.
Proof.
  unfold starts_with. rewrite bool_decide_eq_true. split.
  - intros Htake. exists (drop (length pat) s).
    by rewrite <-Htake at 1; rewrite take_drop.
  - intros [post ->]. by rewrite take_app_length.
Qed.

Lemma starts_with_drop pat s n :
  starts_with pat (drop n s) = true → occurs pat s.
Proof.
  intros [post Hpost]%starts_with_true. exists (take n s), post.
  by rewrite <-Hpost, take_drop.
Qed.

Lemma dot_plus_none tail_ok s :
  (∀ n, tail_ok (drop (S n) s) = false) → dot_plus tail_ok s = None.
Proof.
  induction s as [|x s IH]; intros Hnone; [done|]. simpl.
  destruct (x =? 10); [done|].
  rewrite IH by (intros n; apply (Hnone (S n))).
  pose proof (Hnone 0%nat) as Hnow. simpl in Hnow. rewrite drop_0 in Hnow.
  by rewrite Hnow.
Qed.

(** The greedy [.+] takes exactly [body] when the rest of the pattern
    matches behind it and nowhere later. *)
Lemma dot_plus_exact tail_ok body tl :
  body ≠ [] → 10 ∉ body → tail_ok tl = true →
  (∀ n, tail_ok (drop (S n) tl) = false) →
  dot_plus tail_ok (body ++ tl) = Some (length body).
Proof.
  intros Hne Hnl Htl Hlater.
  induction body as [|x body IH]; [done|]. simpl.
  apply not_elem_of_cons in Hnl as [Hx Hnl].
  assert ((x =? 10) = false) as -> by (apply N.eqb_neq; congruence).
  destruct body as [|y body].
  - simpl. by rewrite dot_plus_none, Htl.
  - by rewrite IH.
Qed.

Lemma take_drop_exact {A} (l1 l2 l : list A) n :
  l = l1 ++ l2 → n = length l1 → take n l = l1 ∧ drop n l = l2.
Proof. intros -> ->. by rewrite take_app_length, drop_app_length. Qed.

Lemma is_quote_not_colon q : is_quote q = true → q ≠ 58.
Proof. by intros Hq ->. Qed.

(** The match of [KEY_RE] on a key line is the key: an unquoted key in
    front of the last colon of the line, or a quoted key in front of the
    last colon that follows the quote. *)
Lemma key_re_search_key prefix key rest :
  prefix = lit "- " ∨ prefix = lit "  " →
  10 ∉ key →
  (∃ x key', key = x :: key' ∧ is_quote x = false ∧ 58 ∉ rest)
  ∨ (∃ q body, key = q :: body ++ [q] ∧ is_quote q = true ∧ body ≠ []
       ∧ ¬ occurs [q; 58] rest) →
  key_re_search (prefix ++ key ++ 58 :: rest) = Some (prefix, key, 58 :: rest).
Proof.
  intros Hprefix Hnl Hkey.
  assert (∃ p0, prefix = [p0; 32] ∧ (p0 =? 45) || (p0 =? 32) = true)
    as (p0 & -> & Hp0) by (destruct Hprefix as [->| ->]; by eexists).
  cbn [app key_re_search]. rewrite Hp0, N.eqb_refl. cbn [andb].
  destruct Hkey as [(x & key' & -> & Hx & Hrest)
                   |(q & body & -> & Hq & Hbody & Hrest)].
  - assert (dot_plus (starts_with [58]) ((x :: key') ++ 58 :: rest)
            = Some (length (x :: key'))) as Hdot.
    { apply dot_plus_exact; [done..| |].
      - by apply starts_with_true; eexists.
      - intros n. apply not_true_iff_false. intros Hn. simpl in Hn.
        apply starts_with_drop in Hn. apply Hrest.
        apply (occurs_elem _ _ 58) in Hn; [done|by left]. }
    cbn [app] in *. rewrite Hx, Hdot. cbn [fmap option_fmap option_map].
    by destruct (take_drop_exact (x :: key') (58 :: rest)
                   (x :: key' ++ 58 :: rest) (length (x :: key')))
      as [-> ->].
  - apply not_elem_of_cons in Hnl as [_ Hnl].
    apply not_elem_of_app in Hnl as [Hnl _].
    assert (dot_plus (starts_with [q; 58]) (body ++ q :: 58 :: rest)
            = Some (length body)) as Hdot.
    { apply dot_plus_exact; [done..| |].
      - by apply starts_with_true; eexists.
      - intros [|n]; apply not_true_iff_false; simpl.
        + intros [post [= Heq _]]%starts_with_true.
          by apply (is_quote_not_colon q).
        + intros Hn. by apply starts_with_drop in Hn. }
    cbn [app]. rewrite Hq. rewrite <-app_assoc. cbn [app]. rewrite Hdot.
    cbn [fmap option_fmap option_map].
    by destruct (take_drop_exact (q :: body ++ [q]) (58 :: rest)
                   (q :: body ++ q :: 58 :: rest) (S (S (length body))))
      as [-> ->];
      [simpl; by rewrite <-app_assoc|simpl; rewrite length_app; simpl; lia|].
Qed.

Lemma is_upper_hex_plain d : is_upper_hex d → d ≠ 32 ∧ d ≠ 35.
Proof. unfold is_upper_hex. lia. Qed.

(** On a key line, [transform_line] replaces the key by the escape of the
    character that the key loads as, and removes comment padding in the
    rest of the line. *)
Lemma transform_line_key `{Externals} prefix key rest c :
  prefix = lit "- " ∨ prefix = lit "  " →
  10 ∉ key →
  (∃ x key', key = x :: key' ∧ is_quote x = false ∧ 58 ∉ rest)
  ∨ (∃ q body, key = q :: body ++ [q] ∧ is_quote q = true ∧ body ≠ []
       ∧ ¬ occurs [q; 58] rest) →
  yaml_load key = Ok (YStr [c]) →
  transform_line (prefix ++ key ++ 58 :: rest)
  = Ok (prefix ++ [34; 92; 117] ++ format_04X c ++ [34] ++ 58 :: comment_pad_sub 0 rest)
  ∧ (4 ≤ length (format_04X c))%nat
  ∧ Forall is_upper_hex (format_04X c)
  ∧ hex_value (format_04X c) = c
  ∧ (c < 65536 → length (format_04X c) = 4%nat).
Proof.
  intros Hprefix Hnl Hkey Hload.
  split; [|apply format_04X_spec].
  unfold transform_line, key_re_sub.
  rewrite (key_re_search_key prefix key rest Hprefix Hnl Hkey).
  unfold escape_key. rewrite Hload. cbn [result_bind ord]. f_equal.
  destruct (format_04X_spec c) as (_ & Hhex & _).
  set (w := [34; 92; 117] ++ format_04X c ++ [34; 58]).
  assert (Forall (λ x, x ≠ 32 ∧ x ≠ 35) w) as Hw.
  { unfold w. repeat (apply Forall_cons; split; [done|]).
    apply Forall_app. split.
    - eapply Forall_impl; [exact Hhex|]. apply is_upper_hex_plain.
    - by repeat constructor. }
  assert (w ≠ []) as Hne by done.
  assert (([34; 92; 117] ++ format_04X c ++ [34]) ++ 58 :: rest = w ++ rest)
    as -> by (unfold w; by rewrite <-!app_assoc).
  assert ([34; 92; 117] ++ format_04X c ++ [34] ++ 58 :: comment_pad_sub 0 rest
          = w ++ comment_pad_sub 0 rest)
    as -> by (unfold w; by rewrite <-!app_assoc).
  destruct Hprefix as [->| ->].
  - change (lit "- " ++ w ++ rest) with (45 :: 32 :: w ++ rest).
    cbn [comment_pad_sub N.eqb Pos.eqb andb replicate app].
    by rewrite (comment_pad_sub_plain 1 w rest Hw Hne).
  - change (lit "  " ++ w ++ rest) with (32 :: 32 :: w ++ rest).
    cbn [comment_pad_sub N.eqb Pos.eqb].
    by rewrite (comment_pad_sub_plain 2 w rest Hw Hne).
Qed.

(** ** A second run

    What the source determines about running the passes again on the
    registry they left: the registry and the comment calls are the same.
    (What the calls do to comments that are already attached, and how the
    document is dumped and loaded again, is up to the YAML library.) *)

Lemma find_group_app l r blk :
  find_group (l ++ r) blk
  = match find_group l blk with
    | Ok None =>
        let! o := find_group r blk in Ok ((λ i, (length l + i)%nat) <$> o)
    | found => found
    end.
Proof.
  induction l as [|g l IH]; simpl.
  - destruct (find_group r blk) as [[?|]|]; done.
  - destruct (first_key g) as [f|e]; [|done]. simpl.
    destruct (in_block f blk); [done|]. rewrite IH.
    destruct (find_group l blk) as [[?|]|]; [done| |done]. simpl.
    destruct (find_group r blk) as [[?|]|]; done.
Qed.

Lemma find_group_Some_app l r blk :
  (∃ i, find_group (l ++ r) blk = Ok (Some i)) ↔
  (∃ i, find_group l blk = Ok (Some i))
  ∨ (find_group l blk = Ok None ∧ ∃ i, find_group r blk = Ok (Some i)).
Proof.
  rewrite find_group_app.
  destruct (find_group l blk) as [[i|]|e].
  - split; [eauto|]. intros [?|[? _]]; [done|congruence].
  - destruct (find_group r blk) as [[i|]|e]; simpl.
    + split; eauto.
    + split; [by intros [? ?]|]. intros [[? ?]|[_ [? ?]]]; congruence.
    + split; [by intros [? ?]|]. intros [[? ?]|[_ [? ?]]]; congruence.
  - split; [by intros [? ?]|]. intros [[? ?]|[? _]]; congruence.
Qed.

(** A block whose group the scan finds is still found after an iteration
    for any codepoint. *)
Lemma placed_find_group blocks c' blk' blk r1 r2 :
  blocks_sorted blocks → blk ∈ blocks →
  codepoint_to_block c' blocks = Ok blk' →
  placed c' blk' r1 r2 →
  (∃ i, find_group r1 blk = Ok (Some i)) →
  ∃ i, find_group r2 blk = Ok (Some i).
Proof.
  intros Hs Hblk Hc'.
  pose proof Hc' as [Hblk' Hin']%codepoint_to_block_Ok.
  assert (∀ k, in_block k blk' = true → in_block k blk = true → blk' = blk)
    as Hsame by (intros; by eapply blocks_sorted_unique).
  destruct 1 as [l1 g l2 f|l1 g1 g2 l2 f Hl1 Hf Hin Hnew _ _|l1 l2 Hpassed _ _];
    [done|..].
  - rewrite !find_group_Some_app. intros [?|[Hnone Hrest]]; [by left|right].
    split; [done|]. simpl in *. rewrite Hf in Hrest. simpl in Hrest.
    apply first_key_Ok in Hf as (v & g' & Hg).
    assert (∃ f', first_key (g1 ++ (c', Name []) :: g2) = Ok f'
                  ∧ in_block f' blk' = true) as (f' & -> & Hf').
    { destruct g1 as [|kv g1]; simpl in *; [by eexists|].
      injection Hg as -> _. by eexists. }
    simpl. destruct (in_block f blk) eqn:Hfb.
    + rewrite <-(Hsame f Hin Hfb), Hf'. eauto.
    + destruct (in_block f' blk) eqn:Hfb'; [|done].
      rewrite (Hsame f' Hf' Hfb') in Hin. congruence.
  - rewrite !find_group_Some_app. intros [?|[Hnone Hrest]]; [by left|right].
    split; [done|]. simpl.
    destruct (in_block c' blk) eqn:Hcb; [eauto|]. simpl.
    destruct Hrest as [i ->]. eauto.
Qed.

Lemma placed_found c blk r1 r2 :
  in_block c blk = true → placed c blk r1 r2 →
  ∃ i, find_group r2 blk = Ok (Some i).
Proof.
  intros Hin.
  destruct 1 as [l1 g l2 f ? ? ?|l1 g1 g2 l2 f Hl1 Hf Hinf _ _ _|l1 l2 Hpassed _ _].
  - eexists. by eapply find_group_found.
  - apply first_key_Ok in Hf as (v & g' & Hg).
    destruct g1 as [|kv g1]; simpl in *.
    + eexists. by eapply (find_group_found l1 _ l2 c).
    + injection Hg as -> _. eexists. by eapply (find_group_found l1 _ l2 f).
  - apply Forall_app in Hpassed as [? _].
    eexists. by eapply (find_group_found l1 _ l2 c).
Qed.

(** After a completed insertion pass, the scan finds a group for the block
    of every used codepoint. *)
Lemma add_new_codepoint_placeholders_found blocks used r r' :
  blocks_sorted blocks →
  add_new_codepoint_placeholders r blocks used = (r', Ok ()) →
  ∀ c, c ∈ used →
    ∃ blk i, codepoint_to_block c blocks = Ok blk
      ∧ find_group r' blk = Ok (Some i).
Proof.
  intros Hs. revert r. induction used as [|c used IH]; intros r Hrun c0 Hc0.
  - by apply elem_of_nil in Hc0.
  - simpl in Hrun. pose proof (add_placeholder_spec r blocks c) as Hspec.
    destruct (add_placeholder r blocks c) as [r1 [[]|e]]; [|done].
    destruct Hspec as (blk & Hblk & Hplaced).
    apply elem_of_cons in Hc0 as [->|Hc0]; [|by eapply IH].
    exists blk. pose proof Hblk as [? ?]%codepoint_to_block_Ok.
    assert (∃ i, find_group r' blk = Ok (Some i)) as [i Hi]; [|by eauto].
    replace r' with (add_new_codepoint_placeholders r1 blocks used).1
      by (by rewrite Hrun).
    apply add_new_codepoint_placeholders_ind; [by eapply placed_found|].
    intros c' blk' ra rb _ Hc' Hfound Hstep. by eapply placed_find_group.
Qed.

Lemma remove_unused_fixed r used :
  (∀ k, k ∈ all_keys r → k ∈ used) → remove_unused_codepoints r used = r.
Proof.
  intros Hkeys. unfold remove_unused_codepoints.
  rewrite <-(list_fmap_id r) at 2. apply Forall_fmap_ext_1, Forall_forall.
  intros g Hg. rewrite remove_unused_block_filter. apply filter_all. intros kv Hkv.
  apply Hkeys, elem_of_all_keys. exists g. split; [done|].
  apply list_elem_of_fmap. eauto.
Qed.

Lemma add_new_codepoint_placeholders_fixed r blocks used :
  (∀ c, c ∈ used → add_placeholder r blocks c = (r, Ok ())) →
  add_new_codepoint_placeholders r blocks used = (r, Ok ()).
Proof.
  induction used as [|c used IH]; intros Hstep; [done|]. simpl.
  rewrite Hstep by (by left). apply IH. intros c' Hc'. apply Hstep. by right.
Qed.

(** With a sorted table and a registry that has its groups within one
    block each and one group per block, reconciling again the registry
    that a completed reconciliation left changes nothing. *)
Lemma reconcile_idempotent r blocks used r' :
  blocks_sorted blocks →
  Forall (in_one_block blocks) r → one_group_per_block blocks r →
  reconcile r blocks used = (r', Ok ()) →
  reconcile r' blocks used = (r', Ok ()).
Proof.
  intros Hs Hone Hgroup Hrun.
  destruct (reconcile_block_invariants r blocks used Hs Hone Hgroup)
    as [Hone' Hgroup'].
  rewrite Hrun in Hone', Hgroup'. simpl in *.
  assert (∀ k, k ∈ all_keys r' ↔ k ∈ used) as Hkeys.
  { intros k. rewrite (add_new_codepoint_placeholders_keys _ _ _ _ Hrun).
    rewrite all_keys_remove_unused. tauto. }
  pose proof (add_new_codepoint_placeholders_found _ _ _ _ Hs Hrun) as Hfound.
  unfold reconcile. rewrite remove_unused_fixed by (intros k; apply Hkeys).
  assert (∀ c, c ∈ used → add_placeholder r' blocks c = (r', Ok ())) as Hstep.
  { intros c Hc. destruct (Hfound c Hc) as (blk & i & Hblk & Hi).
    pose proof (add_placeholder_spec r' blocks c) as Hspec.
    destruct (add_placeholder r' blocks c) as [r2 [[]|e]].
    - destruct Hspec as (blk' & Hblk' & Hplaced). f_equal.
      eapply placed_present_noop; [done..|]. by apply Hkeys.
    - destruct Hspec as [_ [?|(blk' & l1 & l2 & Hblk' & _ & -> & Hl1)]];
        [congruence|].
      assert (blk' = blk) as -> by congruence.
      by rewrite find_group_empty in Hi. }
  by apply add_new_codepoint_placeholders_fixed.
Qed.

(** On such a registry and table, when the three passes complete, running
    them again on the registry they left leaves the same registry and
    makes the same comment calls. *)
Lemma update_codepoints_again `{Externals} r blocks used r' calls :
  blocks_sorted blocks →
  Forall (in_one_block blocks) r → one_group_per_block blocks r →
  update_codepoints r blocks used = (r', calls, Ok ()) →
  update_codepoints r' blocks used = (r', calls, Ok ()).
Proof.
  intros Hs Hone Hgroup. unfold update_codepoints.
  destruct (reconcile r blocks used) as [r1 [[]|e]] eqn:Hrun; [|done].
  destruct (add_codepoint_comments r1 blocks) as [calls1 out] eqn:Hcalls.
  intros [= -> -> ->].
  rewrite (reconcile_idempotent r blocks used r' Hs Hone Hgroup Hrun).
  by rewrite Hcalls.
Qed.

(** * Further properties of the code *)

(** ** upper_bound *)

(** X1.  [upper_bound] returns the index of the first item that compares
    greater: every item before it compares not greater, the item at it
    (when there is one) compares greater, and the index is at most the
    length.  It raises only what the comparison raises, on an item that no
    greater item precedes. *)
Theorem upper_bound_first_greater {A B} (gt : A → B → result bool)
    (seq : list A) (val : B) :
  match upper_bound gt seq val with
  | Ok i =>
      (i ≤ length seq)%nat
      ∧ Forall (λ x, gt x val = Ok false) (take i seq)
      ∧ ∀ x, seq !! i = Some x → gt x val = Ok true
  | Raise e =>
      ∃ i x, seq !! i = Some x ∧ gt x val = Raise e
        ∧ Forall (λ x, gt x val = Ok false) (take i seq)
  end.
Proof.
  induction seq as [|x seq IH]; simpl.
  - repeat split; [lia|constructor|done].
  - destruct (gt x val) as [[]|e] eqn:Hx; simpl.
    + repeat split; [lia|constructor|]. by intros ? [= <-].
    + destruct (upper_bound gt seq val) as [i|e]; simpl.
      * destruct IH as (? & ? & ?). repeat split; [lia|by constructor|done].
      * destruct IH as (i & y & ? & ? & ?). exists (S i), y.
        repeat split; [done..|by constructor].
    + exists 0%nat, x. repeat split; [done..|constructor].
Qed.

Lemma list_insert_at_0 {A} (x : A) l : list_insert_at 0 x l = x :: l.
Proof. unfold list_insert_at. by rewrite take_0, drop_0. Qed.

Lemma list_insert_at_S {A} (x y : A) l i :
  list_insert_at (S i) x (y :: l) = y :: list_insert_at i x l.
Proof. done. Qed.

Lemma elem_of_list_insert_at {A} (x y : A) l i :
  y ∈ list_insert_at i x l → y = x ∨ y ∈ l.
Proof.
  unfold list_insert_at. rewrite elem_of_app, elem_of_cons.
  intros [Hin|[?|Hin]]; auto; right.
  - eapply elem_of_sublist; [done|apply sublist_take].
  - eapply elem_of_sublist; [done|apply sublist_drop].
Qed.

(** X2.  On a list in increasing order, [upper_bound] with the default
    comparison never raises, returns the number of items that are not
    greater than the value (the position behind the items equal to it),
    and inserting the value at that index leaves the list in increasing
    order. *)
Theorem upper_bound_sorted_insert (ks : list N) (c : N) :
  StronglySorted N.le ks →
  upper_bound gt_default ks c = Ok (length (filter (λ k, k ≤ c) ks))
  ∧ StronglySorted N.le
      (list_insert_at (length (filter (λ k, k ≤ c) ks)) c ks).
Proof.
  induction 1 as [|k ks Hks [IHub IHins] Hk]; [by repeat constructor|].
  rewrite Forall_forall in Hk. cbn [upper_bound]. unfold gt_default at 1.
  cbn [result_bind]. rewrite filter_cons.
  destruct (c <? k) eqn:Hlt.
  - apply N.ltb_lt in Hlt. rewrite decide_False by lia.
    rewrite filter_none; last first.
    { intros k' Hk'. specialize (Hk k' Hk'). lia. }
    simpl. split; [done|]. rewrite list_insert_at_0.
    constructor; [by constructor; [|apply Forall_forall]|].
    constructor; [lia|]. apply Forall_forall. intros k' Hk'.
    specialize (Hk k' Hk'). lia.
  - apply N.ltb_ge in Hlt. rewrite decide_True by done. rewrite IHub.
    cbn [result_bind length]. split; [done|]. rewrite list_insert_at_S.
    constructor; [done|]. apply Forall_forall.
    intros k' [->|Hk']%elem_of_list_insert_at; [done|auto].
Qed.

Lemma upper_bound_sorted_insert_witness :
  upper_bound gt_default [1; 3; 3; 7] 3 = Ok 3%nat
  ∧ StronglySorted N.le (list_insert_at 3 3 [1; 3; 3; 7]).
Proof.
  apply (upper_bound_sorted_insert [1; 3; 3; 7] 3).
  repeat constructor; done.
Defined.

(** ** find_block *)

(** X3.  [find_block] finds or creates: it returns the first group whose
    first key lies in the block and leaves the registry as it is; or, when
    no group has its first key in the block, it inserts a group without
    entries behind the groups that start before the block and in front of
    a group that starts after it, and returns that group.  It raises, an
    [IndexError], exactly when its scan reaches a group without entries. *)
Theorem find_block_find_or_create r blk :
  match find_block r blk with
  | Ok (r', i) =>
      (∃ l1 g l2 f, r = l1 ++ g :: l2 ∧ r' = r ∧ i = length l1
         ∧ Forall (passed blk) l1
         ∧ first_key g = Ok f ∧ in_block f blk = true)
      ∨ (∃ l1 l2, r = l1 ++ l2 ∧ r' = l1 ++ [] :: l2 ∧ i = length l1
           ∧ Forall (passed blk) r
           ∧ Forall (λ g, ∃ f, first_key g = Ok f ∧ f < start blk) l1
           ∧ match l2 with
             | [] => True
             | g :: _ => ∃ f, first_key g = Ok f ∧ end_ blk < f
             end)
  | Raise e =>
      e = IndexError ∧ ∃ l1 l2, r = l1 ++ [] :: l2 ∧ Forall (passed blk) l1
  end.
Proof.
  unfold find_block.
  destruct (find_group r blk) as [[i|]|e] eqn:Hfind; simpl.
  - apply find_group_Some in Hfind as (l1 & g & l2 & f & -> & <- & ? & ? & ?).
    left. by exists l1, g, l2, f.
  - apply find_group_None in Hfind.
    destruct (upper_bound_blocks r blk Hfind) as (l1 & l2 & -> & -> & ? & ?).
    simpl. right. exists l1, l2. by rewrite list_insert_at_length.
  - by apply find_group_Raise in Hfind.
Qed.

Lemma placed_decomposed c blk r1 r2 :
  in_block c blk = true → placed c blk r1 r2 →
  ∃ l1 g l2 f, r2 = l1 ++ g :: l2 ∧ Forall (passed blk) l1
    ∧ first_key g = Ok f ∧ in_block f blk = true ∧ c ∈ keys g.
Proof.
  intros Hin.
  destruct 1 as [l1 g l2 f|l1 g1 g2 l2 f Hl1 Hf Hinf _ _ _|l1 l2 Hpassed _ _].
  - by exists l1, g, l2, f.
  - apply first_key_Ok in Hf as (v & g' & Hg).
    assert (c ∈ keys (g1 ++ (c, Name []) :: g2)) as Hc.
    { apply keys_insert. by right. }
    destruct g1 as [|kv g1]; simpl in *.
    + by exists l1, ((c, Name []) :: g2), l2, c.
    + injection Hg as -> _. by exists l1, ((f, v) :: g1 ++ (c, Name []) :: g2), l2, f.
  - apply Forall_app in Hpassed as [? _].
    exists l1, [(c, Name [])], l2, c. repeat split; [done..|by left].
Qed.

(** X4.  After an iteration of the insertion loop that completed,
    [find_block] for the block of the codepoint returns, without changing
    the registry, a group that holds the codepoint; so the iteration, run
    again at once, changes nothing. *)
Theorem add_placeholder_found_again r blocks c r' :
  add_placeholder r blocks c = (r', Ok ()) →
  ∃ blk i g, codepoint_to_block c blocks = Ok blk
    ∧ find_block r' blk = Ok (r', i)
    ∧ r' !! i = Some g ∧ c ∈ keys g
    ∧ add_placeholder r' blocks c = (r', Ok ()).
Proof.
  intros Hrun. pose proof (add_placeholder_spec r blocks c) as Hspec.
  rewrite Hrun in Hspec. destruct Hspec as (blk & Hblk & Hplaced).
  pose proof Hblk as [_ Hin]%codepoint_to_block_Ok.
  destruct (placed_decomposed c blk r r' Hin Hplaced)
    as (l1 & g & l2 & f & -> & Hl1 & Hf & Hfin & Hc).
  assert (find_block (l1 ++ g :: l2) blk = Ok (l1 ++ g :: l2, length l1))
    as Hfind.
  { unfold find_block. by erewrite find_group_found. }
  exists blk, (length l1), g. repeat split; [done..|by apply list_lookup_middle|done|].
  unfold add_placeholder. rewrite Hblk, Hfind.
  rewrite list_lookup_middle by done. simpl.
  by rewrite bool_decide_eq_true_2.
Qed.

Lemma add_placeholder_found_again_witness :
  let upper := mkUnicodeBlock 65 90 (lit "Upper") in
  let lower := mkUnicodeBlock 97 122 (lit "Lower") in
  let r := [[(65, Name (lit "A"))]; [(200, Name (lit "E"))]] in
  ∃ r' blk i g, add_placeholder r [upper; lower] 98 = (r', Ok ())
    ∧ codepoint_to_block 98 [upper; lower] = Ok blk
    ∧ find_block r' blk = Ok (r', i)
    ∧ r' !! i = Some g ∧ 98 ∈ keys g
    ∧ add_placeholder r' [upper; lower] 98 = (r', Ok ()).
Proof.
  intros upper lower r.
  destruct (add_placeholder r [upper; lower] 98) as [r' out] eqn:Hrun.
  assert (out = Ok ()) as -> by (vm_compute in Hrun; by injection Hrun as _ <-).
  destruct (add_placeholder_found_again r [upper; lower] 98 r' Hrun)
    as (blk & i & g & H1 & H2 & H3 & H4 & H5).
  by exists r', blk, i, g.
Defined.

(** ** remove_unused_codepoints *)

(** X5.  The loop of [remove_unused_codepoints], which deletes from each
    dictionary while it walks a copy of its keys, keeps in every group
    exactly the entries whose key is used, in their order, and keeps every
    group, also one that it has emptied. *)
Theorem remove_unused_codepoints_filter r used :
  remove_unused_codepoints r used
  = (λ block, filter (λ kv, kv.1 ∈ used) block) <$> r
  ∧ length (remove_unused_codepoints r used) = length r
  ∧ entries (remove_unused_codepoints r used) `sublist_of` entries r.
Proof.
  split; [|split].
  - unfold remove_unused_codepoints. apply Forall_fmap_ext_1, Forall_forall.
    intros g _. apply remove_unused_block_filter.
  - unfold remove_unused_codepoints. by rewrite length_fmap.
  - rewrite entries_remove_unused. apply sublist_filter.
Qed.

Lemma remove_unused_codepoints_ext r used1 used2 :
  (∀ k, k ∈ used1 ↔ k ∈ used2) →
  remove_unused_codepoints r used1 = remove_unused_codepoints r used2.
Proof.
  intros Hsame. unfold remove_unused_codepoints.
  apply Forall_fmap_ext_1, Forall_forall. intros g _.
  rewrite !remove_unused_block_filter. apply list_filter_iff.
  intros kv. apply Hsame.
Qed.

Lemma remove_unused_codepoints_both r used1 used2 :
  remove_unused_codepoints (remove_unused_codepoints r used1) used2
  = remove_unused_codepoints r (filter (.∈ used2) used1).
Proof.
  unfold remove_unused_codepoints. rewrite <-list_fmap_compose.
  apply Forall_fmap_ext_1, Forall_forall. intros g _. simpl.
  rewrite !remove_unused_block_filter, list_filter_filter.
  apply list_filter_iff. intros kv. rewrite list_elem_of_filter. tauto.
Qed.

(** X6.  Removing for one list of used codepoints and then for another
    keeps the entries whose key is in both lists, whatever the order of
    the two removals; removing twice for the same list is removing
    once. *)
Theorem remove_unused_codepoints_twice r used1 used2 :
  remove_unused_codepoints (remove_unused_codepoints r used1) used2
  = remove_unused_codepoints r (filter (.∈ used2) used1)
  ∧ remove_unused_codepoints (remove_unused_codepoints r used1) used2
    = remove_unused_codepoints (remove_unused_codepoints r used2) used1
  ∧ remove_unused_codepoints (remove_unused_codepoints r used1) used1
    = remove_unused_codepoints r used1.
Proof.
  split; [|split].
  - apply remove_unused_codepoints_both.
  - rewrite !remove_unused_codepoints_both.
    apply remove_unused_codepoints_ext. intros k.
    rewrite !list_elem_of_filter. tauto.
  - rewrite remove_unused_codepoints_both.
    apply remove_unused_codepoints_ext. intros k.
    rewrite list_elem_of_filter. tauto.
Qed.

(** ** The insertion pass and reconciliation *)

Lemma add_new_codepoint_placeholders_app r blocks used1 used2 :
  add_new_codepoint_placeholders r blocks (used1 ++ used2)
  = match add_new_codepoint_placeholders r blocks used1 with
    | (r1, Ok _) => add_new_codepoint_placeholders r1 blocks used2
    | (r1, Raise e) => (r1, Raise e)
    end.
Proof.
  revert r. induction used1 as [|c used1 IH]; intros r; [done|]. simpl.
  destruct (add_placeholder r blocks c) as [r1 [[]|e]]; [apply IH|done].
Qed.

Lemma add_new_codepoint_placeholders_Raise r blocks used r' e :
  add_new_codepoint_placeholders r blocks used = (r', Raise e) →
  ∃ done c rest, used = done ++ c :: rest
    ∧ add_new_codepoint_placeholders r blocks done = (r', Ok ())
    ∧ add_placeholder r' blocks c = (r', Raise e).
Proof.
  revert r. induction used as [|c used IH]; intros r; [done|]. simpl.
  pose proof (add_placeholder_spec r blocks c) as Hspec.
  destruct (add_placeholder r blocks c) as [r1 [[]|e1]] eqn:Hstep.
  - intros (done & c' & rest & -> & Hdone & Hfail)%IH.
    exists (c :: done), c', rest. simpl. by rewrite Hstep.
  - destruct Hspec as [-> _]. intros [= <- <-]. by exists [], c, used.
Qed.

(** X7.  When reconciliation raises, it raises [StopIteration], for a used
    codepoint that no block contains, or [IndexError], for a group without
    entries that the scan of [find_block] reached; the registry it leaves
    is the one that the complete insertion pass over the used codepoints
    in front of the failing one produces, and nothing behind the failing
    codepoint has been looked at. *)
Theorem reconcile_failure r blocks used r' e :
  reconcile r blocks used = (r', Raise e) →
  ∃ done c rest, used = done ++ c :: rest
    ∧ add_new_codepoint_placeholders (remove_unused_codepoints r used) blocks done
      = (r', Ok ())
    ∧ ((e = StopIteration ∧ codepoint_to_block c blocks = Raise StopIteration)
       ∨ (e = IndexError
          ∧ ∃ blk l1 l2, codepoint_to_block c blocks = Ok blk
              ∧ r' = l1 ++ [] :: l2 ∧ Forall (passed blk) l1)).
Proof.
  unfold reconcile.
  intros (done & c & rest & -> & Hdone & Hfail)%add_new_codepoint_placeholders_Raise.
  exists done, c, rest. repeat split; [done|].
  pose proof (add_placeholder_spec r' blocks c) as Hspec. rewrite Hfail in Hspec.
  destruct Hspec as [_ [Hblk|(blk & l1 & l2 & ? & -> & -> & ?)]].
  - left. pose proof Hblk as [-> _]%codepoint_to_block_Raise. done.
  - right. split; [done|]. by exists blk, l1, l2.
Qed.

Lemma reconcile_failure_witness :
  let upper := mkUnicodeBlock 65 90 (lit "Upper") in
  let r := [[(66, Name (lit "B"))]] in
  ∃ done c rest, [66; 48; 67] = done ++ c :: rest
    ∧ add_new_codepoint_placeholders
        (remove_unused_codepoints r [66; 48; 67]) [upper] done = (r, Ok ())
    ∧ ((StopIteration = StopIteration
        ∧ codepoint_to_block c [upper] = Raise StopIteration)
       ∨ (StopIteration = IndexError
          ∧ ∃ blk l1 l2, codepoint_to_block c [upper] = Ok blk
              ∧ r = l1 ++ [] :: l2 ∧ Forall (passed blk) l1)).
Proof.
  intros upper r.
  apply (reconcile_failure r [upper] [66; 48; 67] r StopIteration).
  vm_compute. reflexivity.
Defined.

Lemma add_new_codepoint_placeholders_covers r blocks used r' :
  add_new_codepoint_placeholders r blocks used = (r', Ok ()) →
  covers blocks used.
Proof.
  unfold covers. revert r. induction used as [|c used IH]; intros r; [by constructor|].
  simpl. pose proof (add_placeholder_spec r blocks c) as Hspec.
  destruct (add_placeholder r blocks c) as [r1 [[]|e1]]; [|done].
  destruct Hspec as (blk & Hblk & _). intros Hrest. constructor; eauto.
Qed.

(** X8.  A reconciliation that completes has found a block for every used
    codepoint, and it neither creates nor fills a group without entries:
    the registry it leaves has such a group exactly when removal left
    one. *)
Theorem reconcile_completed r blocks used r' :
  reconcile r blocks used = (r', Ok ()) →
  covers blocks used ∧ ([] ∈ r' ↔ [] ∈ remove_unused_codepoints r used).
Proof.
  unfold reconcile. intros Hrun. split.
  - by eapply add_new_codepoint_placeholders_covers.
  - pose proof (add_new_codepoint_placeholders_ind
      (λ r1, [] ∈ r1 ↔ [] ∈ remove_unused_codepoints r used) blocks used
      (remove_unused_codepoints r used)) as Hind.
    rewrite Hrun in Hind. apply Hind; [done|].
    intros c blk r1 r2 _ _ IH Hplaced.
    by rewrite <- (placed_empty_group _ _ _ _ Hplaced).
Qed.

Lemma reconcile_completed_witness :
  let latin := mkUnicodeBlock 0 127 (lit "Basic Latin") in
  let r := [[(65, Name (lit "A")); (66, Name (lit "B"))]; [(200, Name (lit "X"))]] in
  let r' := [[(65, Name (lit "A")); (67, Name [])]; []] in
  covers [latin] [65; 67] ∧ ([] ∈ r' ↔ [] ∈ remove_unused_codepoints r [65; 67]).
Proof.
  intros latin r r'. apply (reconcile_completed r [latin] [65; 67] r').
  vm_compute. reflexivity.
Defined.

Lemma placed_length c blk r1 r2 :
  placed c blk r1 r2 → (length r1 ≤ length r2 ≤ S (length r1))%nat.
Proof.
  destruct 1; rewrite ?length_app; simpl; rewrite ?length_app; simpl; lia.
Qed.

Lemma placed_entries_sublist c blk r1 r2 :
  placed c blk r1 r2 → entries r1 `sublist_of` entries r2.
Proof.
  intros [->|(e1 & e2 & -> & ->)]%placed_entries; [done|].
  apply sublist_app; [done|]. by apply sublist_cons.
Qed.

Lemma add_new_codepoint_placeholders_grows r blocks used :
  entries r `sublist_of` entries (add_new_codepoint_placeholders r blocks used).1
  ∧ (length r ≤ length (add_new_codepoint_placeholders r blocks used).1
     ≤ length r + length used)%nat.
Proof.
  revert r. induction used as [|c used IH]; intros r; simpl.
  { split; [done|lia]. }
  pose proof (add_placeholder_spec r blocks c) as Hspec.
  destruct (add_placeholder r blocks c) as [r1 [[]|e1]].
  - destruct Hspec as (blk & _ & Hplaced).
    destruct (IH r1) as [Hsub Hlen].
    pose proof (placed_length _ _ _ _ Hplaced).
    split; [|lia]. etrans; [|exact Hsub]. by eapply placed_entries_sublist.
  - destruct Hspec as [-> _]. simpl. split; [done|lia].
Qed.

(** X9.  Whatever its outcome, reconciliation leaves the entries of used
    codepoints where they were, in their order and with their names, and
    only adds between them; it never drops a group, and it creates at most
    one group per used codepoint. *)
Theorem reconcile_grows r blocks used :
  filter (λ kv, kv.1 ∈ used) (entries r)
    `sublist_of` entries (reconcile r blocks used).1
  ∧ (length r ≤ length (reconcile r blocks used).1 ≤ length r + length used)%nat.
Proof.
  unfold reconcile. rewrite <- entries_remove_unused.
  destruct (add_new_codepoint_placeholders_grows
    (remove_unused_codepoints r used) blocks used) as [Hsub Hlen].
  split; [done|].
  assert (length (remove_unused_codepoints r used) = length r) as Hl
    by (unfold remove_unused_codepoints; apply length_fmap).
  rewrite Hl in Hlen. done.
Qed.

Lemma all_keys_entries r : all_keys r = (entries r).*1.
Proof.
  induction r as [|g r IH]; [done|].
  by rewrite all_keys_cons, entries_cons, fmap_app, IH.
Qed.

Lemma placeholders_of_keys (l : list (Codepoint * NameValue)) :
  Forall (λ kv, kv.2 = Name []) l → l = (λ c, (c, Name [])) <$> l.*1.
Proof.
  induction 1 as [|[k v] l Hv _ IH]; [done|].
  simpl in Hv. subst v. rewrite fmap_cons. cbn [fst]. rewrite fmap_cons.
  by rewrite <- IH.
Qed.

Lemma StronglySorted_lt_same (l1 l2 : list N) :
  StronglySorted N.lt l1 → StronglySorted N.lt l2 →
  (∀ k, k ∈ l1 ↔ k ∈ l2) → l1 = l2.
Proof.
  intros H1 H2 Hsame. apply (StronglySorted_unique_strong N.lt); [|done..|].
  - intros x1 x2 _ _ ? ?. lia.
  - apply NoDup_Permutation; [by apply StronglySorted_lt_NoDup..|done].
Qed.

(** X10.  Starting from a registry without groups, with a block table in
    increasing order that covers the used codepoints, and with the used
    codepoints strictly increasing as [get_used_codepoints] returns them,
    reconciliation completes and leaves exactly one placeholder per used
    codepoint, in the order of the used list, split into non-empty groups
    of which each lies in one block and no two share a block. *)
Theorem reconcile_from_empty blocks used :
  blocks_sorted blocks → covers blocks used → StronglySorted N.lt used →
  ∃ r', reconcile [] blocks used = (r', Ok ())
    ∧ entries r' = (λ c, (c, Name [])) <$> used
    ∧ ([] ∉ r')
    ∧ Forall (in_one_block blocks) r'
    ∧ one_group_per_block blocks r'.
Proof.
  intros Hblocks Hcov Hused. unfold reconcile.
  change (remove_unused_codepoints [] used) with (@nil CodepointNames).
  destruct (add_new_codepoint_placeholders_total blocks used []) as [r' Hrun].
  { intros c Hc. unfold covers in Hcov. rewrite Forall_forall in Hcov. auto. }
  { apply not_elem_of_nil. }
  exists r'. split; [done|].
  pose proof (add_new_codepoint_placeholders_ind
    (λ r, Forall (in_one_block blocks) r ∧ one_group_per_block blocks r
          ∧ StronglySorted N.lt (all_keys r)
          ∧ Forall (λ kv, kv.2 = Name []) (entries r)
          ∧ [] ∉ r) blocks used []) as Hind.
  rewrite Hrun in Hind. simpl in Hind.
  destruct Hind as (Hone & Hapart & Hsorted & Hvalues & Hempty).
  { repeat split; try constructor. apply not_elem_of_nil. }
  { intros c blk r1 r2 _ Hblk (H1 & H2 & H3 & H4 & H5) Hplaced.
    split; [by eapply placed_in_one_block|].
    split; [by eapply placed_one_group_per_block|].
    split; [by eapply placed_flat_sorted|].
    split.
    - apply Forall_forall. intros kv Hkv.
      apply (placed_entries_elem _ _ _ _ kv Hplaced) in Hkv as [Hkv| ->]; [|done].
      rewrite Forall_forall in H4. auto.
    - by rewrite <- (placed_empty_group _ _ _ _ Hplaced). }
  repeat split; [|done..].
  rewrite (placeholders_of_keys _ Hvalues), <- all_keys_entries. f_equal.
  apply StronglySorted_lt_same; [done..|].
  intros k. rewrite (add_new_codepoint_placeholders_keys _ _ _ _ Hrun k).
  change (all_keys []) with (@nil N). rewrite elem_of_nil. tauto.
Qed.

Lemma reconcile_from_empty_witness :
  let latin := mkUnicodeBlock 0 127 (lit "Basic Latin") in
  let supplement := mkUnicodeBlock 128 255 (lit "Latin-1 Supplement") in
  let blocks := [latin; supplement] in
  let used := [65; 97; 233] in
  ∃ r', reconcile [] blocks used = (r', Ok ())
    ∧ entries r' = (λ c, (c, Name [])) <$> used
    ∧ ([] ∉ r')
    ∧ Forall (in_one_block blocks) r'
    ∧ one_group_per_block blocks r'.
Proof.
  intros latin supplement blocks used.
  apply (reconcile_from_empty blocks used).
  - unfold blocks_sorted, blocks. repeat constructor; simpl; lia.
  - unfold covers, used. repeat constructor; eexists; vm_compute; reflexivity.
  - unfold used. repeat constructor; lia.
Defined.

(** ** The comment pass and the three passes together *)

Lemma getitem_NoDup item kv :
  NoDup (keys item) → kv ∈ item → getitem item kv.1 = Ok kv.2.
Proof.
  induction item as [|[k v] item IH]; [by intros _ ?%elem_of_nil|].
  rewrite keys_cons. intros [Hk Hrest]%NoDup_cons [->|Hin]%elem_of_cons; simpl in *.
  - by rewrite N.eqb_refl.
  - destruct (k =? kv.1) eqn:Heq; [|by apply IH].
    apply N.eqb_eq in Heq as ->. destruct Hk. apply list_elem_of_fmap. eauto.
Qed.

Lemma add_item_comments_trace `{Externals} i item l :
  Forall (λ kv, getitem item kv.1 = Ok kv.2) l →
  add_item_comments i item (keys l)
  = ((λ kv, add_eol_comment i
              (lit "# " ++ str_join (lit " ") (fragments kv.1 kv.2)) kv.1) <$> l,
     Ok ()).
Proof.
  induction 1 as [|kv l Hkv _ IH]; [done|].
  rewrite keys_cons. cbn [add_item_comments].
  rewrite (get_char_comments_fragments _ _ _ Hkv), IH.
  pose proof (fragments_nonempty kv.1 kv.2) as Hne.
  rewrite fmap_cons. cbv beta.
  by destruct (str_join (lit " ") (fragments kv.1 kv.2)).
Qed.

Lemma add_codepoint_comments_from_trace `{Externals} i r blocks :
  Forall (λ g, NoDup (keys g)) r →
  ∃ r1 bs,
    Forall2 (λ g blk, ∃ f, first_key g = Ok f
                        ∧ codepoint_to_block f blocks = Ok blk) r1 bs
    ∧ (add_codepoint_comments_from i r blocks).1 = comment_trace i (zip r1 bs)
    ∧ match (add_codepoint_comments_from i r blocks).2 with
      | Ok _ => r1 = r
      | Raise e =>
          ∃ g r2, r = r1 ++ g :: r2
            ∧ ((g = [] ∧ e = IndexError)
               ∨ (e = StopIteration
                  ∧ ∃ f, first_key g = Ok f
                      ∧ codepoint_to_block f blocks = Raise StopIteration))
      end.
Proof.
  intros Hr. revert i. induction Hr as [|item r Hitem _ IH]; intros i.
  { exists [], []. split; [constructor|]. by split. }
  cbn [add_codepoint_comments_from].
  destruct (first_key item) as [f|e] eqn:Hf; cbn [result_bind].
  - destruct (codepoint_to_block f blocks) as [blk|e] eqn:Hblk.
    + rewrite (add_item_comments_trace i item item).
      2:{ apply Forall_forall. intros kv Hkv. by apply getitem_NoDup. }
      destruct (IH (S i)) as (r1 & bs & Hheads & Hcalls & Hout).
      destruct (add_codepoint_comments_from (S i) r blocks) as [calls' out].
      simpl in Hcalls, Hout. subst calls'.
      exists (item :: r1), (blk :: bs). split; [constructor; eauto|].
      split; [done|]. simpl. destruct out as [[]|e].
      * by subst r1.
      * destruct Hout as (g & r2 & -> & Hcause). by exists g, r2.
    + pose proof Hblk as [-> _]%codepoint_to_block_Raise.
      exists [], []. split; [constructor|]. split; [done|]. simpl.
      exists item, r. split; [done|]. right. eauto.
  - apply first_key_Raise in Hf as [-> ->].
    exists [], []. split; [constructor|]. split; [done|]. simpl.
    exists [], r. split; [done|]. by left.
Qed.

(** X11.  On a registry whose groups hold each key once, the comment pass
    makes, group after group, one heading call with a line feed and the
    name of the block of the group's first key, then one end-of-line
    comment call per entry in the order of the entries, none left out (a
    comment is never empty) and no [KeyError] raised.  It stops at the
    first group without entries ([IndexError]) or whose first key lies in
    no block ([StopIteration]), before the heading of that group; the
    calls made for the groups in front stay made. *)
Theorem add_codepoint_comments_trace `{Externals} r blocks :
  Forall (λ g, NoDup (keys g)) r →
  ∃ r1 bs,
    Forall2 (λ g blk, ∃ f, first_key g = Ok f
                        ∧ codepoint_to_block f blocks = Ok blk) r1 bs
    ∧ (add_codepoint_comments r blocks).1 = comment_trace 0 (zip r1 bs)
    ∧ match (add_codepoint_comments r blocks).2 with
      | Ok _ => r1 = r
      | Raise e =>
          ∃ g r2, r = r1 ++ g :: r2
            ∧ ((g = [] ∧ e = IndexError)
               ∨ (e = StopIteration
                  ∧ ∃ f, first_key g = Ok f
                      ∧ codepoint_to_block f blocks = Raise StopIteration))
      end.
Proof. apply add_codepoint_comments_from_trace. Qed.

Lemma add_codepoint_comments_trace_witness :
  let upper := mkUnicodeBlock 65 90 (lit "Upper") in
  let r := [[(65, Name (lit "A")); (66, Name [])]; [(200, Name (lit "E"))]] in
  ∃ r1 bs,
    Forall2 (λ g blk, ∃ f, first_key g = Ok f
                        ∧ codepoint_to_block f [upper] = Ok blk) r1 bs
    ∧ (@add_codepoint_comments ascii_externals r [upper]).1
      = @comment_trace ascii_externals 0 (zip r1 bs)
    ∧ match (@add_codepoint_comments ascii_externals r [upper]).2 with
      | Ok _ => r1 = r
      | Raise e =>
          ∃ g r2, r = r1 ++ g :: r2
            ∧ ((g = [] ∧ e = IndexError)
               ∨ (e = StopIteration
                  ∧ ∃ f, first_key g = Ok f
                      ∧ codepoint_to_block f [upper] = Raise StopIteration))
      end.
Proof.
  intros upper r.
  apply (@add_codepoint_comments_trace ascii_externals r [upper]).
  repeat constructor; by apply (bool_decide_unpack _).
Defined.

(** X12.  The three passes of [update_codepoints] complete exactly when
    every used codepoint lies in a block of the table and removal has left
    no group without entries. *)
Theorem update_codepoints_completes_iff `{Externals} r blocks used :
  (∃ r' calls, update_codepoints r blocks used = (r', calls, Ok ()))
  ↔ covers blocks used ∧ [] ∉ remove_unused_codepoints r used.
Proof.
  unfold update_codepoints. split.
  - intros (r' & calls & Hrun).
    destruct (reconcile r blocks used) as [r1 [[]|e]] eqn:Hrec; [|done].
    split; [by eapply add_new_codepoint_placeholders_covers|].
    intros Hin. pose proof (reconcile_keeps_empty r blocks used Hin) as Hkept.
    rewrite Hrec in Hkept. simpl in Hkept.
    destruct (add_codepoint_comments_from_empty 0 r1 blocks Hkept) as [e He].
    unfold add_codepoint_comments in Hrun.
    destruct (add_codepoint_comments_from 0 r1 blocks) as [calls1 out].
    simpl in He. subst out. done.
  - intros [Hcov Hempty]. unfold reconcile.
    pose proof Hcov as Hcov'. unfold covers in Hcov'. rewrite Forall_forall in Hcov'.
    destruct (add_new_codepoint_placeholders_total blocks used
      (remove_unused_codepoints r used)) as [r' Hrun]; [done..|].
    rewrite Hrun.
    assert ([] ∉ r') as Hempty'.
    { pose proof (add_new_codepoint_placeholders_ind (λ r1, [] ∉ r1) blocks used
        (remove_unused_codepoints r used)) as Hind.
      rewrite Hrun in Hind. apply Hind; [done|].
      intros c blk r1 r2 _ _ IH Hplaced.
      by rewrite <- (placed_empty_group _ _ _ _ Hplaced). }
    destruct (add_codepoint_comments_from_total 0 r' blocks) as [calls Hcalls].
    { apply Forall_forall. intros g Hg.
      destruct g as [|[f v] g'] eqn:Heq; [done|]. exists f.
      destruct (Hcov' f) as [blk Hblk]; [|by exists blk].
      assert (f ∈ all_keys r') as Hf.
      { apply elem_of_all_keys. exists ((f, v) :: g'). split; [done|]. by left. }
      apply (add_new_codepoint_placeholders_keys _ _ _ _ Hrun) in Hf
        as [[_ ?]%all_keys_remove_unused|?]; done. }
    unfold add_codepoint_comments. rewrite Hcalls. eauto.
Qed.

Lemma reconcile_again r blocks used used' r' :
  blocks_sorted blocks →
  Forall (in_one_block blocks) r → one_group_per_block blocks r →
  (∀ c, c ∈ used' ↔ c ∈ used) →
  reconcile r blocks used = (r', Ok ()) →
  reconcile r' blocks used' = (r', Ok ()).
Proof.
  intros Hs Hone Hgroup Hsame Hrun.
  destruct (reconcile_block_invariants r blocks used Hs Hone Hgroup)
    as [Hone' Hgroup'].
  rewrite Hrun in Hone', Hgroup'. simpl in *.
  assert (∀ k, k ∈ all_keys r' ↔ k ∈ used) as Hkeys.
  { intros k. rewrite (add_new_codepoint_placeholders_keys _ _ _ _ Hrun).
    rewrite all_keys_remove_unused. tauto. }
  pose proof (add_new_codepoint_placeholders_found _ _ _ _ Hs Hrun) as Hfound.
  unfold reconcile.
  rewrite remove_unused_fixed by (intros k ?; by apply Hsame, Hkeys).
  apply add_new_codepoint_placeholders_fixed.
  intros c Hc%Hsame. destruct (Hfound c Hc) as (blk & i & Hblk & Hi).
  pose proof (add_placeholder_spec r' blocks c) as Hspec.
  destruct (add_placeholder r' blocks c) as [r2 [[]|e]].
  - destruct Hspec as (blk' & Hblk' & Hplaced). f_equal.
    eapply placed_present_noop; [done..|]. by apply Hkeys.
  - destruct Hspec as [_ [?|(blk' & l1 & l2 & Hblk' & _ & -> & Hl1)]];
      [congruence|].
    assert (blk' = blk) as -> by congruence.
    by rewrite find_group_empty in Hi.
Qed.

(** X13.  With a block table in increasing order and a registry that has
    each group within one block and one group per block, a run of the
    three passes that completes leaves a fixed point: running them on the
    registry it left, with the same used codepoints in any order and with
    any repetitions, leaves that registry and makes the same comment
    calls. *)
Theorem update_codepoints_second_run `{Externals} r blocks used used' r' calls :
  blocks_sorted blocks →
  Forall (in_one_block blocks) r → one_group_per_block blocks r →
  (∀ c, c ∈ used' ↔ c ∈ used) →
  update_codepoints r blocks used = (r', calls, Ok ()) →
  update_codepoints r' blocks used' = (r', calls, Ok ()).
Proof.
  intros Hs Hone Hgroup Hsame. unfold update_codepoints.
  destruct (reconcile r blocks used) as [r1 [[]|e]] eqn:Hrun; [|done].
  destruct (add_codepoint_comments r1 blocks) as [calls1 out] eqn:Hcalls.
  intros [= -> -> ->].
  rewrite (reconcile_again r blocks used used' r' Hs Hone Hgroup Hsame Hrun).
  by rewrite Hcalls.
Qed.

Lemma update_codepoints_second_run_witness :
  let latin := mkUnicodeBlock 0 127 (lit "Basic Latin") in
  let supplement := mkUnicodeBlock 128 255 (lit "Latin-1 Supplement") in
  let blocks := [latin; supplement] in
  let r := [[(65, Name (lit "A")); (66, Name (lit "B"))]] in
  let out := (@update_codepoints ascii_externals r blocks [65; 97; 233]) in
  out.2 = Ok ()
  ∧ @update_codepoints ascii_externals out.1.1 blocks [233; 65; 97; 65] = out.
Proof.
  intros latin supplement blocks r out.
  assert (out.2 = Ok ()) as Hout by (vm_compute; reflexivity).
  split; [exact Hout|].
  destruct out as [[r' calls] o] eqn:Hrun. simpl in Hout. subst o.
  apply (@update_codepoints_second_run ascii_externals r blocks [65; 97; 233]
           [233; 65; 97; 65] r' calls).
  - unfold blocks_sorted, blocks. repeat constructor; simpl; lia.
  - unfold r. repeat constructor. intros k1 k2 Hk1 Hk2.
    exists latin. unfold keys in *. simpl in *.
    repeat (apply elem_of_cons in Hk1 as [->|Hk1]);
      repeat (apply elem_of_cons in Hk2 as [->|Hk2]);
      try (by apply elem_of_nil in Hk1); try (by apply elem_of_nil in Hk2);
      split; vm_compute; reflexivity.
  - unfold r. repeat constructor.
  - intros c. rewrite !elem_of_cons, !elem_of_nil. tauto.
  - exact Hrun.
Defined.

(** ** The textual post-processing *)

Lemma comment_pad_sub_unpadded p line :
  ¬ occurs [32; 32; 35] (replicate p 32 ++ line) →
  comment_pad_sub p line = replicate p 32 ++ line.
Proof.
  revert p. induction line as [|x line IH]; intros p Hno.
  { simpl. by rewrite app_nil_r. }
  cbn [comment_pad_sub]. destruct (x =? 32) eqn:Hx.
  - apply N.eqb_eq in Hx as ->.
    assert (replicate p 32 ++ 32 :: line = replicate (S p) 32 ++ line) as Heq.
    { change (32 :: line) with (replicate 1 32 ++ line).
      rewrite app_assoc, <- replicate_add. by replace (p + 1)%nat with (S p) by lia. }
    rewrite Heq in *. by apply IH.
  - apply N.eqb_neq in Hx.
    assert (¬ occurs [32; 32; 35] line) as Hline.
    { intros (pre & post & ->). apply Hno.
      exists (replicate p 32 ++ x :: pre), post. by rewrite <- !app_assoc. }
    rewrite (IH 0%nat) by done. simpl.
    destruct (x =? 35) eqn:H35; [|done]. apply N.eqb_eq in H35 as ->.
    destruct p as [|[|p]]; [done|done|]. destruct Hno.
    exists (replicate p 32), line. simpl.
    change (32 :: 32 :: replicate p 32 ++ 35 :: line)
      with (replicate 2 32 ++ replicate p 32 ++ 35 :: line).
    rewrite app_assoc, <- replicate_add.
    replace (2 + p)%nat with (p + 2)%nat by lia.
    rewrite replicate_add, <- app_assoc. done.
Qed.

(** X14.  The substitution of [COMMENT_PAD_RE] leaves a line as it is
    exactly when the line holds no two spaces directly before a [#]; what
    it returns is such a line, so a second substitution changes
    nothing. *)
Theorem comment_pad_sub_fixed_iff line :
  (comment_pad_sub 0 line = line ↔ ¬ occurs [32; 32; 35] line)
  ∧ comment_pad_sub 0 (comment_pad_sub 0 line) = comment_pad_sub 0 line.
Proof.
  split; [split|].
  - intros Heq. rewrite <- Heq. apply comment_pad_sub_no_wide.
  - intros Hno. by apply (comment_pad_sub_unpadded 0).
  - apply (comment_pad_sub_unpadded 0), comment_pad_sub_no_wide.
Qed.

Lemma dot_plus_Some tail_ok s n :
  dot_plus tail_ok s = Some n →
  (0 < n ≤ length s)%nat ∧ (10 ∉ take n s) ∧ tail_ok (drop n s) = true.
Proof.
  revert n. induction s as [|x s IH]; intros n; [done|]. simpl.
  destruct (x =? 10) eqn:Hx; [done|]. apply N.eqb_neq in Hx.
  destruct (dot_plus tail_ok s) as [m|].
  - intros [= <-]. destruct (IH m eq_refl) as (Hm & Hnl & Htail).
    split; [lia|]. split; [|done]. simpl.
    intros [?|?]%elem_of_cons; [by subst|done].
  - destruct (tail_ok s) eqn:Htail; [|done]. intros [= <-].
    split; [lia|]. split; [|simpl; by rewrite ?drop_0].
    simpl. rewrite ?take_0.
    intros [?|?%elem_of_nil]%elem_of_cons; [by subst|done].
Qed.

Lemma dot_plus_colon s n :
  dot_plus (starts_with [58]) s = Some n →
  take n s ≠ [] ∧ (10 ∉ take n s) ∧ ∃ post, drop n s = 58 :: post.
Proof.
  intros (Hn & Hnl & Htail)%dot_plus_Some. split; [|split; [done|]].
  - destruct n, s; simpl in *; try done; lia.
  - apply starts_with_true in Htail as [post ->]. by exists post.
Qed.

Lemma key_re_search_Some line before key after :
  key_re_search line = Some (before, key, after) →
  line = before ++ key ++ after
  ∧ (before = lit "- " ∨ before = lit "  ")
  ∧ key ≠ [] ∧ (10 ∉ key)
  ∧ ∃ rest, after = 58 :: rest.
Proof.
  change (lit "- ") with [45; 32]. change (lit "  ") with [32; 32].
  unfold key_re_search. destruct line as [|p0 [|p1 rest]]; [done..|].
  destruct (((p0 =? 45) || (p0 =? 32)) && (p1 =? 32)) eqn:Hprefix; [|done].
  apply andb_true_iff in Hprefix as [Hp0 ->%N.eqb_eq].
  assert (p0 = 45 ∨ p0 = 32) as Hp0'.
  { apply orb_true_iff in Hp0 as [?%N.eqb_eq|?%N.eqb_eq]; auto. }
  assert (∀ n, dot_plus (starts_with [58]) rest = Some n →
    p0 :: 32 :: rest = [p0; 32] ++ take n rest ++ drop n rest
    ∧ ([p0; 32] = [45; 32] ∨ [p0; 32] = [32; 32])
    ∧ take n rest ≠ [] ∧ (10 ∉ take n rest)
    ∧ ∃ rest0, drop n rest = 58 :: rest0) as Hunquoted.
  { intros n (? & ? & ?)%dot_plus_colon. rewrite take_drop.
    repeat split; [|done..]. destruct Hp0' as [-> | ->]; auto. }
  destruct rest as [|q rest']; [done|].
  destruct (is_quote q) eqn:Hq.
  - destruct (dot_plus (starts_with [q; 58]) rest') as [n|] eqn:Hquoted.
    + cbn [fmap option_fmap option_map]. intros [= <- <- <-].
      apply dot_plus_Some in Hquoted as (Hn & Hnl & Htail).
      apply starts_with_true in Htail as [post Hpost].
      assert (rest' = (take n rest' ++ [q]) ++ 58 :: post) as Hrest.
      { rewrite <- app_assoc. change ([q] ++ 58 :: post) with ([q; 58] ++ post).
        rewrite <- Hpost. by rewrite take_drop. }
      assert (length (take n rest' ++ [q]) = S n) as Hlen.
      { rewrite length_app, length_take. simpl. lia. }
      destruct (take_drop_exact (take n rest' ++ [q]) (58 :: post) rest' (S n))
        as [Htake Hdrop]; [done..|].
      cbn [take drop]. rewrite Htake, Hdrop.
      split; [simpl; by rewrite <- Hrest|].
      split; [destruct Hp0' as [-> | ->]; auto|].
      split; [done|]. split; [|by exists post].
      intros [Heq|[?|Heq%list_elem_of_singleton]%elem_of_app]%elem_of_cons;
        [|done|]; subst q; done.
    + destruct (dot_plus (starts_with [58]) (q :: rest')) as [n|] eqn:Hrun;
        [|done].
      cbn [fmap option_fmap option_map]. intros [= <- <- <-]. by apply Hunquoted.
  - destruct (dot_plus (starts_with [58]) (q :: rest')) as [n|] eqn:Hrun;
      [|done].
    cbn [fmap option_fmap option_map]. intros [= <- <- <-]. by apply Hunquoted.
Qed.

(** X15.  A match of [KEY_RE] in a line splits the line in three: the two
    characters in front, which are a hyphen or a space and then a space;
    the key, which is not empty and holds no line feed; and the rest,
    which begins with the colon.  So the substitution touches at most the
    text between the second character and a colon of the line. *)
Theorem key_re_search_sound line before key after :
  key_re_search line = Some (before, key, after) →
  line = before ++ key ++ after
  ∧ (before = lit "- " ∨ before = lit "  ")
  ∧ key ≠ [] ∧ (10 ∉ key)
  ∧ ∃ rest, after = 58 :: rest.
Proof. apply key_re_search_Some. Qed.

Lemma key_re_search_sound_witness :
  let line := lit "- 'a:b': x" in
  let before := lit "- " in
  let key := lit "'a:b'" in
  let after := lit ": x" in
  line = before ++ key ++ after
  ∧ (before = lit "- " ∨ before = lit "  ")
  ∧ key ≠ [] ∧ (10 ∉ key)
  ∧ ∃ rest, after = 58 :: rest.
Proof.
  intros line before key after.
  apply (key_re_search_sound line before key after).
  vm_compute. reflexivity.
Defined.

Lemma splitlines_from_no_linebreak n cur text :
  (length text ≤ n)%nat →
  Forall (λ x, is_linebreak x = false) cur →
  Forall (Forall (λ x, is_linebreak x = false)) (splitlines_from cur text).
Proof.
  revert cur text. induction n as [|n IH]; intros cur text Hn Hcur.
  - destruct text; [|simpl in Hn; lia]. simpl.
    destruct cur; repeat constructor. by apply Forall_reverse.
  - destruct text as [|x rest]; simpl.
    { destruct cur; repeat constructor. by apply Forall_reverse. }
    simpl in Hn. destruct (is_linebreak x) eqn:Hx.
    + constructor; [by apply Forall_reverse|].
      destruct rest as [|y rest']; [by constructor|].
      destruct ((x =? 13) && (y =? 10)); apply IH; simpl in *; try lia;
        constructor.
    + apply IH; [lia|]. by constructor.
Qed.

(** No line that [splitlines] returns holds a line boundary. *)
Lemma splitlines_no_linebreak text :
  Forall (Forall (λ x, is_linebreak x = false)) (splitlines text).
Proof.
  apply (splitlines_from_no_linebreak (length text)); [done|constructor].
Qed.

Lemma splitlines_from_line cur l rest :
  Forall (λ x, is_linebreak x = false) l →
  splitlines_from cur (l ++ rest) = splitlines_from (reverse l ++ cur) rest.
Proof.
  intros Hl. revert cur. induction Hl as [|x l Hx _ IH]; intros cur; [done|].
  simpl. rewrite Hx, IH, reverse_cons, <- app_assoc. done.
Qed.

Lemma splitlines_from_join l lines :
  Forall (Forall (λ x, is_linebreak x = false)) (l :: lines) →
  last (l :: lines) ≠ Some [] →
  splitlines_from [] (str_join [10] (l :: lines)) = l :: lines.
Proof.
  revert l. induction lines as [|l' lines IH]; intros l Hall Hlast.
  - apply Forall_cons in Hall as [Hl _]. cbn [str_join].
    rewrite <- (app_nil_r l) at 1. rewrite splitlines_from_line by done.
    rewrite app_nil_r. cbn [splitlines_from].
    destruct (reverse l) as [|x l0] eqn:Hrev.
    + apply (f_equal reverse) in Hrev. rewrite reverse_involutive in Hrev.
      by subst l.
    + by rewrite <- Hrev, reverse_involutive.
  - apply Forall_cons in Hall as [Hl Hall].
    change (str_join [10] (l :: l' :: lines))
      with (l ++ 10 :: str_join [10] (l' :: lines)).
    rewrite splitlines_from_line by done. rewrite app_nil_r.
    cbn [splitlines_from]. change (is_linebreak 10) with true. cbv iota.
    rewrite reverse_involutive. f_equal.
    trans (splitlines_from [] (str_join [10] (l' :: lines)));
      [by destruct (str_join [10] (l' :: lines))|by apply IH].
Qed.

(** Lines without line boundaries, of which the last is not empty, come
    back from [splitlines] when they have been joined by line feeds; a
    line feed at the end of the text is lost. *)
Lemma splitlines_from_join_both lines :
  Forall (Forall (λ x, is_linebreak x = false)) lines →
  last lines ≠ Some [] →
  splitlines (str_join [10] lines) = lines
  ∧ splitlines (str_join [10] (lines ++ [[]])) = lines.
Proof.
  intros Hall Hlast. unfold splitlines. split.
  - destruct lines as [|l lines]; [done|]. by apply splitlines_from_join.
  - destruct lines as [|l lines]; [done|].
    assert (∀ l0 ls, str_join [10] ((l0 :: ls) ++ [[]])
                     = str_join [10] (l0 :: ls) ++ [10]) as Hjoin.
    { intros l0 ls. revert l0. induction ls as [|l1 ls IH]; intros l0; [done|].
      change (str_join [10] ((l0 :: l1 :: ls) ++ [[]]))
        with (l0 ++ 10 :: str_join [10] ((l1 :: ls) ++ [[]])).
      rewrite IH. change (str_join [10] (l0 :: l1 :: ls))
        with (l0 ++ 10 :: str_join [10] (l1 :: ls)).
      by rewrite <- app_assoc. }
    rewrite Hjoin. clear Hjoin.
    revert l Hall Hlast. induction lines as [|l' lines IH]; intros l Hall Hlast.
    + apply Forall_cons in Hall as [Hl _]. cbn [str_join].
      rewrite splitlines_from_line by done. rewrite app_nil_r. simpl.
      by rewrite reverse_involutive.
    + apply Forall_cons in Hall as [Hl Hall].
      change (str_join [10] (l :: l' :: lines))
        with (l ++ 10 :: str_join [10] (l' :: lines)).
      rewrite <- app_assoc. rewrite splitlines_from_line by done.
      rewrite app_nil_r. cbn [app splitlines_from].
      change (is_linebreak 10) with true. cbv iota.
      rewrite reverse_involutive. f_equal.
      trans (splitlines_from [] (str_join [10] (l' :: lines) ++ [10]));
        [by destruct (str_join [10] (l' :: lines) ++ [10])|by apply IH].
Qed.


Lemma transform_lines_plain `{Externals} lines :
  Forall (λ line, key_re_search line = None ∧ ¬ occurs [32; 32; 35] line) lines →
  transform_lines lines = Ok lines.
Proof.
  induction 1 as [|line lines [Hkey Hpad] _ IH]; [done|].
  cbn [transform_lines]. unfold transform_line, key_re_sub. rewrite Hkey.
  cbn [result_bind]. rewrite IH. cbn [result_bind].
  by rewrite (comment_pad_sub_unpadded 0).
Qed.

(** X16.  [transform] returns a document as it is when the document is
    lines joined by line feeds, the last line not empty, and no line holds
    a line boundary, a match of [KEY_RE] or two spaces directly before a
    [#]; with a line feed at its end, the document comes back without
    it. *)
Theorem transform_plain `{Externals} lines :
  Forall (Forall (λ x, is_linebreak x = false)) lines →
  last lines ≠ Some [] →
  Forall (λ line, key_re_search line = None ∧ ¬ occurs (lit "  #") line) lines →
  transform (str_join [10] lines) = Ok (str_join [10] lines)
  ∧ transform (str_join [10] (lines ++ [[]])) = Ok (str_join [10] lines).
Proof.
  change (lit "  #") with [32; 32; 35].
  intros Hall Hlast Hplain. unfold transform.
  destruct (splitlines_from_join_both lines Hall Hlast) as [-> ->].
  by rewrite (transform_lines_plain lines Hplain).
Qed.

Lemma transform_plain_witness :
  let lines := [lit "# names"; lit "x: 1 # one"] in
  @transform ascii_externals (str_join [10] lines) = Ok (str_join [10] lines)
  ∧ @transform ascii_externals (str_join [10] (lines ++ [[]]))
    = Ok (str_join [10] lines).
Proof.
  intros lines. apply (@transform_plain ascii_externals lines).
  - apply (bool_decide_unpack _). vm_compute. reflexivity.
  - done.
  - unfold lines.
    repeat (constructor;
      [split; [vm_compute; reflexivity|];
       match goal with
       | |- ¬ occurs _ ?l =>
           change l with (comment_pad_sub 0 l); apply comment_pad_sub_no_wide
       end|]).
    constructor.
Defined.

(** ** The block table *)

Lemma class_plus_Some cls tail_ok s n :
  class_plus cls tail_ok s = Some n →
  (0 < n ≤ length s)%nat ∧ Forall (λ x, cls x = true) (take n s)
  ∧ tail_ok (drop n s) = true.
Proof.
  revert n. induction s as [|x s IH]; intros n; [done|]. simpl.
  destruct (cls x) eqn:Hx; [|done].
  destruct (class_plus cls tail_ok s) as [m|].
  - intros [= <-]. destruct (IH m eq_refl) as (Hm & Hcls & Htail).
    split; [lia|]. split; [|done]. simpl. by constructor.
  - destruct (tail_ok s) eqn:Htail; [|done]. intros [= <-].
    split; [lia|]. split; [|simpl; by rewrite ?drop_0].
    simpl. rewrite ?take_0. by repeat constructor.
Qed.

Lemma class_plus_stop cls tail_ok s :
  match s with [] => True | x :: _ => cls x = false end →
  class_plus cls tail_ok s = None.
Proof. destruct s as [|x s]; [done|]. simpl. by intros ->. Qed.

Lemma class_plus_exact cls tail_ok body tl :
  body ≠ [] → Forall (λ x, cls x = true) body → tail_ok tl = true →
  match tl with [] => True | x :: _ => cls x = false end →
  class_plus cls tail_ok (body ++ tl) = Some (length body).
Proof.
  intros Hne Hbody Htail Hstop. induction Hbody as [|x body Hx _ IH]; [done|].
  simpl. rewrite Hx. destruct body as [|y body].
  - simpl. by rewrite (class_plus_stop _ _ _ Hstop), Htail.
  - by rewrite IH.
Qed.

Lemma dot_run_all s : 10 ∉ s → dot_run s = s.
Proof.
  induction s as [|x s IH]; [done|]. intros Hnl. simpl.
  destruct (x =? 10) eqn:Hx.
  - apply N.eqb_eq in Hx as ->. destruct Hnl. by left.
  - rewrite IH; [done|]. intros ?. apply Hnl. by right.
Qed.

Lemma dot_run_elem x s : x ∈ dot_run s → x ∈ s ∧ x ≠ 10.
Proof.
  induction s as [|y s IH]; [by intros ?%elem_of_nil|]. simpl.
  destruct (y =? 10) eqn:Hy; [by intros ?%elem_of_nil|].
  apply N.eqb_neq in Hy.
  intros [->|[? ?]%IH]%elem_of_cons; (split; [|done]); [by left|by right].
Qed.

Lemma is_hex_upper_spec x : is_hex_upper x = true ↔ is_upper_hex x.
Proof.
  unfold is_hex_upper, is_upper_hex.
  rewrite orb_true_iff, !andb_true_iff, !N.leb_le. done.
Qed.

Lemma linebreak_free_no_feed s :
  Forall (λ x, is_linebreak x = false) s → 10 ∉ s.
Proof.
  intros Hs Hin. rewrite Forall_forall in Hs. by specialize (Hs 10 Hin).
Qed.

Lemma unicode_block_match_line first last g3 :
  g3 ≠ [] → 10 ∉ g3 →
  unicode_block_match
    (format_04X first ++ [46; 46] ++ format_04X last ++ [59; 32] ++ g3)
  = Some (format_04X first, format_04X last, g3).
Proof.
  intros Hne Hnl.
  destruct (format_04X_spec first) as (Hlen1 & Hhex1 & _).
  destruct (format_04X_spec last) as (Hlen2 & Hhex2 & _).
  assert (∀ n, Forall (λ x, is_hex_upper x = true) (format_04X n)) as Hcls.
  { intros n. destruct (format_04X_spec n) as (_ & Hhex & _).
    eapply Forall_impl; [exact Hhex|]. intros x. apply is_hex_upper_spec. }
  assert (∀ n, format_04X n ≠ []) as Hdigits.
  { intros n Heq. destruct (format_04X_spec n) as (Hlen & _).
    rewrite Heq in Hlen. simpl in Hlen. lia. }
  assert (block_re_name ([59; 32] ++ g3) = true) as Hname.
  { unfold block_re_name. apply andb_true_iff. split.
    - apply starts_with_true. by exists g3.
    - apply bool_decide_eq_true. simpl. rewrite drop_0. by rewrite dot_run_all. }
  assert (class_plus is_hex_upper block_re_name
            (format_04X last ++ [59; 32] ++ g3)
          = Some (length (format_04X last))) as H2.
  { apply class_plus_exact; [done..|reflexivity]. }
  assert (block_re_end ([46; 46] ++ format_04X last ++ [59; 32] ++ g3) = true)
    as Hend.
  { change (block_re_end (46 :: 46 :: (format_04X last ++ [59; 32] ++ g3)) = true).
    unfold block_re_end. rewrite H2. reflexivity. }
  unfold unicode_block_match.
  rewrite (class_plus_exact is_hex_upper block_re_end (format_04X first)
             ([46; 46] ++ format_04X last ++ [59; 32] ++ g3));
    [|done..|reflexivity].
  cbn [mbind option_bind].
  rewrite take_app_length.
  assert (drop (length (format_04X first) + 2)
            (format_04X first ++ [46; 46] ++ format_04X last ++ [59; 32] ++ g3)
          = format_04X last ++ [59; 32] ++ g3) as ->.
  { rewrite <- drop_drop, drop_app_length. done. }
  rewrite H2. cbn [mbind option_bind].
  rewrite take_app_length.
  rewrite <- drop_drop, drop_app_length. simpl. rewrite drop_0.
  by rewrite dot_run_all.
Qed.

Lemma blocks_of_lines_block_lines bs :
  Forall (λ b, start b < 1114112 ∧ end_ b < 1114112
               ∧ name b ≠ [] ∧ 10 ∉ name b) bs →
  blocks_of_lines (block_line <$> bs) = Some bs.
Proof.
  induction 1 as [|[first last g3] bs (Hfirst & Hlast & Hne & Hnl) _ IH]; [done|].
  cbn [start end_ name] in *. rewrite fmap_cons. cbn [blocks_of_lines].
  unfold block_line at 1.
  cbn [start end_ name]. rewrite unicode_block_match_line by done.
  destruct (format_04X_spec first) as (_ & _ & -> & _).
  destruct (format_04X_spec last) as (_ & _ & -> & _).
  unfold chr. apply N.ltb_lt in Hfirst, Hlast. rewrite Hfirst, Hlast.
  cbn [mbind option_bind]. rewrite IH. done.
Qed.

Lemma is_upper_hex_no_linebreak x : is_upper_hex x → is_linebreak x = false.
Proof.
  unfold is_upper_hex, is_linebreak. intros Hx. apply bool_decide_eq_false.
  rewrite !elem_of_cons, elem_of_nil. lia.
Qed.

Lemma block_line_no_linebreak b :
  Forall (λ x, is_linebreak x = false) (name b) →
  Forall (λ x, is_linebreak x = false) (block_line b).
Proof.
  intros Hname. unfold block_line.
  assert (∀ n, Forall (λ x, is_linebreak x = false) (format_04X n)) as Hdigits.
  { intros n. destruct (format_04X_spec n) as (_ & Hhex & _).
    eapply Forall_impl; [exact Hhex|]. apply is_upper_hex_no_linebreak. }
  apply Forall_app. split; [done|].
  apply Forall_app. split; [by repeat constructor|].
  apply Forall_app. split; [done|].
  apply Forall_app. split; [by repeat constructor|done].
Qed.

(** X17.  [get_unicode_blocks] reads back a table written as [Blocks.txt]
    writes it: from the lines [start..end; name] of blocks whose bounds
    are code points and whose names are not empty and hold no line
    boundary, bounds in uppercase hexadecimal of four digits or more,
    joined by line feeds, with or without a line feed at the end, it
    returns these blocks, in their order. *)
Theorem get_unicode_blocks_round_trip bs :
  Forall (λ b, start b < 1114112 ∧ end_ b < 1114112 ∧ name b ≠ []
               ∧ Forall (λ x, is_linebreak x = false) (name b)) bs →
  get_unicode_blocks (str_join [10] (block_line <$> bs)) = Some bs
  ∧ get_unicode_blocks (str_join [10] ((block_line <$> bs) ++ [[]])) = Some bs.
Proof.
  intros Hbs. unfold get_unicode_blocks.
  destruct (splitlines_from_join_both (block_line <$> bs)) as [-> ->].
  - apply Forall_fmap. eapply Forall_impl; [exact Hbs|].
    intros b (_ & _ & _ & Hname). by apply block_line_no_linebreak.
  - rewrite fmap_last. destruct (last bs) as [b|]; [|done]. simpl.
    unfold block_line. destruct (format_04X_spec (start b)) as (Hlen & _).
    destruct (format_04X (start b)); [simpl in Hlen; lia|done].
  - assert (blocks_of_lines (block_line <$> bs) = Some bs) as Hread; [|done].
    apply blocks_of_lines_block_lines. eapply Forall_impl; [exact Hbs|].
    intros b (? & ? & ? & Hname). repeat split; try done.
    by apply linebreak_free_no_feed.
Qed.

Lemma get_unicode_blocks_round_trip_witness :
  let bs := [mkUnicodeBlock 0 127 (lit "Basic Latin");
             mkUnicodeBlock 128 255 (lit "Latin-1 Supplement");
             mkUnicodeBlock 1113088 1114111 (lit "Supplementary Private Use Area-B")] in
  get_unicode_blocks (str_join [10] (block_line <$> bs)) = Some bs
  ∧ get_unicode_blocks (str_join [10] ((block_line <$> bs) ++ [[]])) = Some bs.
Proof.
  intros bs. apply (get_unicode_blocks_round_trip bs).
  apply (bool_decide_unpack _). vm_compute. reflexivity.
Defined.

Lemma dot_run_prefix s :
  ∃ rest, s = dot_run s ++ rest ∧ (rest = [] ∨ ∃ rest', rest = 10 :: rest').
Proof.
  induction s as [|x s (rest & Hs & Hrest)]; [exists []; auto|]. simpl.
  destruct (x =? 10) eqn:Hx.
  - apply N.eqb_eq in Hx as ->. exists (10 :: s). eauto.
  - exists rest. split; [simpl; by rewrite <- Hs|done].
Qed.

Lemma unicode_block_match_Some line g1 g2 g3 :
  unicode_block_match line = Some (g1, g2, g3) →
  ∃ a b rest, line = g1 ++ [a; b] ++ g2 ++ [59; 32] ++ g3 ++ rest
    ∧ g1 ≠ [] ∧ Forall is_upper_hex g1 ∧ g2 ≠ [] ∧ Forall is_upper_hex g2
    ∧ a ≠ 10 ∧ b ≠ 10 ∧ g3 ≠ [] ∧ (10 ∉ g3)
    ∧ (rest = [] ∨ ∃ rest', rest = 10 :: rest').
Proof.
  unfold unicode_block_match.
  destruct (class_plus is_hex_upper block_re_end line) as [n1|] eqn:H1; [|done].
  cbn [mbind option_bind].
  destruct (class_plus is_hex_upper block_re_name (drop (n1 + 2) line))
    as [n2|] eqn:H2; [|done].
  cbn [mbind option_bind]. intros [= <- <- <-].
  apply class_plus_Some in H1 as (Hn1 & Hhex1 & Hend).
  apply class_plus_Some in H2 as (Hn2 & Hhex2 & Hname).
  unfold block_re_end in Hend.
  destruct (drop n1 line) as [|a [|b s2]] eqn:Hdrop1; [done..|].
  apply andb_true_iff in Hend as [[Ha Hb]%andb_true_iff _].
  apply negb_true_iff, N.eqb_neq in Ha, Hb.
  assert (drop (n1 + 2) line = s2) as Hs2.
  { by rewrite <- drop_drop, Hdrop1. }
  rewrite Hs2 in *.
  unfold block_re_name in Hname.
  apply andb_true_iff in Hname as [[post Hpost]%starts_with_true Hrun].
  apply bool_decide_eq_true in Hrun.
  rewrite drop_drop in Hrun.
  assert (drop (n2 + 2) s2 = post) as Hpost'.
  { by rewrite <- drop_drop, Hpost. }
  rewrite Hpost' in *.
  destruct (dot_run_prefix post) as (rest & Hrest & Hfeed).
  exists a, b, rest.
  assert (∀ n (s : str), (0 < n ≤ length s)%nat → take n s ≠ []) as Htake.
  { intros [|n] [|x s] ?; simpl in *; try done; lia. }
  assert (∀ s, Forall (λ x, is_hex_upper x = true) s → Forall is_upper_hex s)
    as Hhex.
  { intros s Hs. eapply Forall_impl; [exact Hs|]. intros x. apply is_hex_upper_spec. }
  split.
  { rewrite <- (take_drop n1 line) at 1. rewrite Hdrop1. f_equal.
    cbn [app]. do 2 f_equal.
    rewrite <- (take_drop n2 s2) at 1. rewrite Hpost. f_equal.
    cbn [app]. by rewrite <- Hrest. }
  repeat split; auto.
  intros [_ ?]%dot_run_elem. done.
Qed.

(** X18.  A match of [UNICODE_BLOCK_RE] splits the line into a first
    bound, two characters, a second bound, a semicolon with a space, and a
    name: the bounds are non-empty texts of the digits [0-9A-F], the name
    is not empty and runs up to the end of the line or a line feed.  The
    two characters between the bounds are any two characters but line
    feeds, since the dots of the pattern are not escaped. *)
Theorem unicode_block_match_sound line g1 g2 g3 :
  unicode_block_match line = Some (g1, g2, g3) →
  ∃ a b rest, line = g1 ++ [a; b] ++ g2 ++ [59; 32] ++ g3 ++ rest
    ∧ g1 ≠ [] ∧ Forall is_upper_hex g1 ∧ g2 ≠ [] ∧ Forall is_upper_hex g2
    ∧ a ≠ 10 ∧ b ≠ 10 ∧ g3 ≠ [] ∧ (10 ∉ g3)
    ∧ (rest = [] ∨ ∃ rest', rest = 10 :: rest').
Proof. apply unicode_block_match_Some. Qed.

Lemma unicode_block_match_sound_witness :
  let line := lit "0080-:00FF; Latin-1 Supplement" in
  let g1 := lit "0080" in
  let g2 := lit "00FF" in
  let g3 := lit "Latin-1 Supplement" in
  ∃ a b rest, line = g1 ++ [a; b] ++ g2 ++ [59; 32] ++ g3 ++ rest
    ∧ g1 ≠ [] ∧ Forall is_upper_hex g1 ∧ g2 ≠ [] ∧ Forall is_upper_hex g2
    ∧ a ≠ 10 ∧ b ≠ 10 ∧ g3 ≠ [] ∧ (10 ∉ g3)
    ∧ (rest = [] ∨ ∃ rest', rest = 10 :: rest').
Proof.
  intros line g1 g2 g3. apply (unicode_block_match_sound line g1 g2 g3).
  vm_compute. reflexivity.
Defined.

Lemma chr_Some n c : chr n = Some c → c = n ∧ c < 1114112.
Proof.
  unfold chr. destruct (n <? 1114112) eqn:Hn; [|done].
  apply N.ltb_lt in Hn. by intros [= <-].
Qed.

Lemma blocks_of_lines_valid lines bs :
  Forall (Forall (λ x, is_linebreak x = false)) lines →
  blocks_of_lines lines = Some bs →
  Forall (λ b, start b < 1114112 ∧ end_ b < 1114112 ∧ name b ≠ []
               ∧ Forall (λ x, is_linebreak x = false) (name b)) bs
  ∧ (length bs ≤ length lines)%nat.
Proof.
  intros Hlines. revert bs. induction Hlines as [|line lines Hline _ IH]; intros bs.
  { intros [= <-]. split; [constructor|done]. }
  cbn [blocks_of_lines].
  destruct (unicode_block_match line) as [[[g1 g2] g3]|] eqn:Hmatch.
  - destruct (chr (hex_value g1)) as [first|] eqn:Hfirst; [|done].
    destruct (chr (hex_value g2)) as [last|] eqn:Hlast; [|done].
    destruct (blocks_of_lines lines) as [bs'|]; [|done].
    cbn [mbind option_bind]. intros [= <-].
    destruct (IH bs' eq_refl) as [Hvalid Hlen].
    apply chr_Some in Hfirst as [_ Hfirst]. apply chr_Some in Hlast as [_ Hlast].
    apply unicode_block_match_Some in Hmatch
      as (a & b & rest & -> & _ & _ & _ & _ & _ & _ & Hne & _ & _).
    split; [|simpl; lia]. constructor; [|done]. cbn [start end_ name].
    repeat split; [done..|].
    rewrite !Forall_app in Hline. tauto.
  - intros Hrest. destruct (IH bs Hrest) as [Hvalid Hlen].
    split; [done|simpl; lia].
Qed.

(** X19.  What [get_unicode_blocks] returns holds, for every block, bounds
    that are code points, a name that is not empty and a name without line
    boundary, and it holds at most one block per line of the text.  That
    the first bound is not above the second, and that the blocks are in
    increasing order, is not checked. *)
Theorem get_unicode_blocks_valid text bs :
  get_unicode_blocks text = Some bs →
  Forall (λ b, start b < 1114112 ∧ end_ b < 1114112 ∧ name b ≠ []
               ∧ Forall (λ x, is_linebreak x = false) (name b)) bs
  ∧ (length bs ≤ length (splitlines text))%nat.
Proof.
  apply blocks_of_lines_valid, splitlines_no_linebreak.
Qed.

Lemma get_unicode_blocks_valid_witness :
  let text := lit "# Blocks" ++ [10] ++ lit "00FF..0041; Backwards"
              ++ [13; 10] ++ lit "0000..007F; Basic Latin" in
  let bs := [mkUnicodeBlock 255 65 (lit "Backwards");
             mkUnicodeBlock 0 127 (lit "Basic Latin")] in
  Forall (λ b, start b < 1114112 ∧ end_ b < 1114112 ∧ name b ≠ []
               ∧ Forall (λ x, is_linebreak x = false) (name b)) bs
  ∧ (length bs ≤ length (splitlines text))%nat.
Proof.
  intros text bs. apply (get_unicode_blocks_valid text bs).
  vm_compute. reflexivity.
Defined.

Lemma unicode_block_match_no_digit line :
  match line with [] => True | x :: _ => is_hex_upper x = false end →
  unicode_block_match line = None.
Proof.
  intros Hline. unfold unicode_block_match.
  by rewrite (class_plus_stop _ _ _ Hline).
Qed.

(** X20.  A line that is empty or does not begin with one of the digits
    [0-9A-F], such as the comment lines and the blank lines of
    [Blocks.txt], yields no block and does not end the loop: the blocks of
    the lines around it are returned as if the line were not there. *)
Theorem get_unicode_blocks_skips lines1 line lines2 :
  match line with [] => True | x :: _ => is_hex_upper x = false end →
  blocks_of_lines (lines1 ++ line :: lines2) = blocks_of_lines (lines1 ++ lines2).
Proof.
  intros Hline. induction lines1 as [|l lines1 IH].
  - simpl. by rewrite (unicode_block_match_no_digit _ Hline).
  - cbn [app blocks_of_lines]. by rewrite IH.
Qed.

Lemma get_unicode_blocks_skips_witness :
  blocks_of_lines ([lit "0000..007F; Basic Latin"]
                   ++ lit "# 0080..00FF; Latin-1 Supplement"
                   :: [lit "0100..017F; Latin Extended-A"])
  = blocks_of_lines ([lit "0000..007F; Basic Latin"]
                     ++ [lit "0100..017F; Latin Extended-A"]).
Proof.
  apply (get_unicode_blocks_skips [lit "0000..007F; Basic Latin"]
           (lit "# 0080..00FF; Latin-1 Supplement")
           [lit "0100..017F; Latin Extended-A"]).
  reflexivity.
Defined.

(** ** The used codepoints *)

Lemma StronglySorted_le_NoDup_lt (l : list N) :
  StronglySorted N.le l → NoDup l → StronglySorted N.lt l.
Proof.
  induction 1 as [|x l _ IH Hx]; intros Hnd; [constructor|].
  apply NoDup_cons in Hnd as [Hin Hnd]. constructor; [by apply IH|].
  rewrite Forall_forall in Hx |- *. intros y Hy.
  specialize (Hx y Hy). assert (x ≠ y) by (by intros ->). lia.
Qed.

Lemma keymaps_union (acc : gset N) (kms : list KeyMap) c :
  c ∈ foldl (λ acc keymap, acc ∪ list_to_set (keymap_keys keymap).*2) acc kms
  ↔ c ∈ acc ∨ ∃ keymap key, keymap ∈ kms ∧ (key, c) ∈ keymap_keys keymap.
Proof.
  revert acc. induction kms as [|km kms IH]; intros acc; simpl.
  - split; [auto|]. intros [?|(? & ? & ?%elem_of_nil & _)]; done.
  - rewrite IH, elem_of_union, elem_of_list_to_set, list_elem_of_fmap. split.
    + intros [[?|([key c'] & -> & Hin)]|(keymap & key & ? & ?)]; [auto| |].
      * right. exists km, key. split; [by left|done].
      * right. exists keymap, key. split; [by right|done].
    + intros [?|(keymap & key & [->|?]%elem_of_cons & Hin)]; [auto| |].
      * left. right. by exists (key, c).
      * right. eauto.
Qed.

Lemma keyboards_union (acc : gset N) (kbs : list Keyboard) c :
  c ∈ foldl (λ acc keyboard,
               foldl (λ acc keymap, acc ∪ list_to_set (keymap_keys keymap).*2)
                 acc (keymaps keyboard)) acc kbs
  ↔ c ∈ acc ∨ ∃ keyboard keymap key, keyboard ∈ kbs
        ∧ keymap ∈ keymaps keyboard ∧ (key, c) ∈ keymap_keys keymap.
Proof.
  revert acc. induction kbs as [|kb kbs IH]; intros acc; simpl.
  - split; [auto|]. intros [?|(? & ? & ? & ?%elem_of_nil & _)]; done.
  - rewrite IH, keymaps_union. split.
    + intros [[?|(keymap & key & ? & ?)]|(keyboard & keymap & key & ? & ? & ?)];
        [auto| |].
      * right. exists kb, keymap, key. split; [by left|done].
      * right. exists keyboard, keymap, key. split; [by right|done].
    + intros [?|(keyboard & keymap & key & [->|?]%elem_of_cons & ? & ?)];
        [auto| |].
      * left. right. eauto.
      * right. eauto 6.
Qed.

(** X21.  [get_used_codepoints] returns the characters that some key of
    some keymap of some keyboard produces, each once, in strictly
    increasing order: what the insertion pass needs of its [used]
    argument to build a sorted registry. *)
Theorem get_used_codepoints_sorted_set keyboards :
  StronglySorted N.lt (get_used_codepoints keyboards)
  ∧ ∀ c, c ∈ get_used_codepoints keyboards
      ↔ ∃ keyboard keymap key, keyboard ∈ keyboards
          ∧ keymap ∈ keymaps keyboard ∧ (key, c) ∈ keymap_keys keymap.
Proof.
  unfold get_used_codepoints. split.
  - apply StronglySorted_le_NoDup_lt.
    + apply (StronglySorted_merge_sort N.le).
    + rewrite merge_sort_Permutation. apply NoDup_elements.
  - intros c. rewrite merge_sort_Permutation, elem_of_elements, keyboards_union.
    rewrite elem_of_empty. tauto.
Qed.

(** ** Completion of the textual post-processing *)





(** * The comment of an entry, the key escape and the comment padding *)

(** ** The comment of an entry *)

(** C7, amended.  For an entry of a group, the generator yields first the
    character itself when it is visible and the text [(non-printable)]
    otherwise; it yields a second fragment exactly when the value of the
    entry is empty, which the empty-string placeholder is and an empty
    list of names is too, and the codepoint has a standard name: that
    name, uppercased, with every run of characters outside [\w] replaced
    by one underscore; without a standard name there is no second fragment
    and nothing is raised.  A comment pass that completes has made, group
    after group, the heading call and then for every entry, in the order
    of the entries, one call that attaches the comment ["# "] followed by
    these fragments joined by a space, and no other call; the pass
    completes when every group has a first key that the table covers. *)
Theorem comment_fragments `{Externals} :
  (∀ item c v, NoDup (keys item) → (c, v) ∈ item →
     get_char_comments item c
     = Ok ((if is_visible_character c then [c] else lit "(non-printable)")
           :: (if truthy v then []
               else match unicodedata_name c with
                    | Some n => [sub_nonword false (str_upper n)]
                    | None => []
                    end)))
  ∧ (∀ v, truthy v = false ↔ v = Name [] ∨ v = Names [])
  ∧ (∀ c v,
       fragments c v
       = (if is_visible_character c then [c] else lit "(non-printable)")
         :: (if truthy v then []
             else match unicodedata_name c with
                  | Some n => [sub_nonword false (str_upper n)]
                  | None => []
                  end))
  ∧ (∀ r blocks calls,
       Forall (λ g, NoDup (keys g)) r →
       add_codepoint_comments r blocks = (calls, Ok ()) →
       ∃ bs,
         Forall2 (λ g blk, ∃ f, first_key g = Ok f
                             ∧ codepoint_to_block f blocks = Ok blk) r bs
         ∧ calls = comment_trace 0 (zip r bs))
  ∧ (∀ r blocks,
       Forall (λ g, ∃ f blk, first_key g = Ok f
                      ∧ codepoint_to_block f blocks = Ok blk) r →
       ∃ calls, add_codepoint_comments r blocks = (calls, Ok ()))
  ∧ (∀ w run s,
       Forall (λ x, is_word x = true) w → w ≠ [] →
       Forall (λ x, is_word x = false) run → run ≠ [] →
       match s with [] => True | x :: _ => is_word x = true end →
       sub_nonword false (w ++ run ++ s) = w ++ 95 :: sub_nonword false s)
  ∧ (∀ s, Forall (λ x, is_word x = true ∨ x = 95) (sub_nonword false s))
  ∧ (∀ w s, Forall (λ x, is_word x = true) w →
       sub_nonword false (w ++ s) = w ++ sub_nonword false s)
  ∧ (∀ run s,
       Forall (λ x, is_word x = false) run → run ≠ [] →
       match s with [] => True | x :: _ => is_word x = true end →
       sub_nonword false (run ++ s) = 95 :: sub_nonword false s)
  ∧ sub_nonword false [] = [].
Proof.
  split; [|split; [|split; [|split; [|split; [|split; [|split; [|split;
    [|split]]]]]]]].
  - intros item c v Hnd Hin.
    apply get_char_comments_fragments. exact (getitem_NoDup item (c, v) Hnd Hin).
  - apply truthy_false.
  - done.
  - intros r blocks calls Hnd Hrun.
    destruct (add_codepoint_comments_from_trace 0 r blocks Hnd)
      as (r1 & bs & Hheads & Hcalls & Hout).
    unfold add_codepoint_comments in Hrun. rewrite Hrun in Hcalls, Hout.
    simpl in Hcalls, Hout. subst r1. by exists bs.
  - intros r blocks. apply add_codepoint_comments_from_total.
  - intros w run s Hw Hwne Hrun Hrne Hs.
    rewrite sub_nonword_word, sub_nonword_run by done.
    by rewrite sub_nonword_true_word.
  - intros s. apply sub_nonword_chars.
  - intros w s Hw. destruct w as [|x w]; [done|]. by apply sub_nonword_word.
  - intros run s Hrun Hne Hs. rewrite sub_nonword_run by done.
    by rewrite sub_nonword_true_word.
  - done.
Qed.

Lemma comment_fragments_witness :
  let blocks := [mkUnicodeBlock 0 127 (lit "Basic Latin")] in
  let r := [[(7, Names []); (45, Name []); (65, Name (lit "A")); (66, Name [])]] in
  @add_codepoint_comments ascii_externals r blocks
  = ([set_comment_before 0 (10 :: lit "Basic Latin");
      add_eol_comment 0 (lit "# (non-printable)") 7;
      add_eol_comment 0 (lit "# - HYPHEN_MINUS") 45;
      add_eol_comment 0 (lit "# A") 65;
      add_eol_comment 0 (lit "# B") 66], Ok ())
  ∧ @sub_nonword ascii_externals false (lit "HYPHEN" ++ lit " - " ++ lit "MINUS")
    = lit "HYPHEN" ++ 95 :: @sub_nonword ascii_externals false (lit "MINUS").
Proof.
  intros blocks r.
  destruct (@comment_fragments ascii_externals)
    as (_ & _ & _ & Htrace & Htotal & Hrun & _).
  split; [|apply Hrun; repeat constructor; discriminate].
  destruct (Htotal r blocks) as [calls Hok].
  { repeat constructor. exists 7, (mkUnicodeBlock 0 127 (lit "Basic Latin")).
    split; reflexivity. }
  destruct (Htrace r blocks calls) as (bs & Hheads & Hcalls); [|exact Hok|].
  { repeat constructor; by apply (bool_decide_unpack _). }
  apply Forall2_cons_inv_l in Hheads
    as (blk & bs' & (f & Hf & Hblk) & ->%Forall2_nil_inv_l & ->).
  injection Hf as <-. vm_compute in Hblk. injection Hblk as <-.
  rewrite Hok, Hcalls. reflexivity.
Defined.

(** C7 as stated fails on an entry whose value is an empty list of names:
    the value is not the empty-string placeholder, and the second fragment
    is appended all the same, since the code tests [not item[c]]. *)
Lemma comment_for_empty_list :
  let blocks := [mkUnicodeBlock 0 127 (lit "Basic Latin")] in
  Names [] ≠ Name []
  ∧ @get_char_comments ascii_externals [(65, Names [])] 65
    = Ok [[65]; lit "LATIN_CAPITAL_LETTER_A"]
  ∧ @add_codepoint_comments ascii_externals [[(65, Names [])]] blocks
    = ([set_comment_before 0 (10 :: lit "Basic Latin");
        add_eol_comment 0 (lit "# A LATIN_CAPITAL_LETTER_A") 65], Ok ()).
Proof. intros blocks. split; [done|]. split; reflexivity. Qed.

(** ** The key escape *)

Lemma transformed_transform_line `{Externals} line out :
  transformed line out → transform_line line = Ok out.
Proof.
  destruct 1 as [prefix key rest c (Hprefix & Hnl & Hkey) Hload|line Hnone].
  - by destruct (transform_line_key prefix key rest c Hprefix Hnl Hkey Hload)
      as [? _].
  - unfold transform_line, key_re_sub. by rewrite Hnone.
Qed.

Lemma transform_lines_Forall2 `{Externals} lines outs :
  transform_lines lines = Ok outs
  ↔ Forall2 (λ line out, transform_line line = Ok out) lines outs.
Proof.
  revert outs. induction lines as [|line lines IH]; intros outs.
  - simpl. split; [intros [= <-]; constructor|by intros ->%Forall2_nil_inv_l].
  - cbn [transform_lines].
    destruct (transform_line line) as [out|e] eqn:Hline; cbn [result_bind].
    + destruct (transform_lines lines) as [outs'|e] eqn:Hrest; cbn [result_bind].
      * split.
        -- intros [= <-]. constructor; [done|by apply IH].
        -- intros (out' & outs'' & Hout & Houts & ->)%Forall2_cons_inv_l.
           apply IH in Houts. congruence.
      * split; [done|].
        intros (out' & outs'' & Hout & Houts & ->)%Forall2_cons_inv_l.
        by apply IH in Houts.
    + split; [done|].
      intros (out' & outs'' & Hout & _)%Forall2_cons_inv_l. congruence.
Qed.

Lemma key_re_search_no_prefix line :
  take 2 line ≠ lit "- " → take 2 line ≠ lit "  " → key_re_search line = None.
Proof.
  change (lit "- ") with [45; 32]. change (lit "  ") with [32; 32].
  destruct line as [|p0 [|p1 rest]]; [done..|]. simpl. intros Hdash Hspace.
  destruct (((p0 =? 45) || (p0 =? 32)) && (p1 =? 32)) eqn:Hprefix; [|done].
  apply andb_true_iff in Hprefix as [Hp0 ->%N.eqb_eq].
  apply orb_true_iff in Hp0 as [->%N.eqb_eq| ->%N.eqb_eq]; done.
Qed.

Lemma key_re_search_no_colon line :
  58 ∉ drop 3 line → key_re_search line = None.
Proof.
  destruct line as [|p0 [|p1 rest]]; [done..|].
  change (drop 3 (p0 :: p1 :: rest)) with (drop 1 rest). intros Hcolon.
  unfold key_re_search.
  destruct (((p0 =? 45) || (p0 =? 32)) && (p1 =? 32)); [|done].
  assert (dot_plus (starts_with [58]) rest = None) as ->.
  { apply dot_plus_none. intros n.
    destruct (starts_with [58] (drop (S n) rest)) eqn:Hstart; [|done].
    destruct Hcolon. change (S n) with (1 + n)%nat in Hstart.
    rewrite <- drop_drop in Hstart. apply starts_with_drop in Hstart.
    apply (occurs_elem _ _ 58) in Hstart; [done|by left]. }
  destruct rest as [|q rest']; [done|].
  destruct (is_quote q); [|done].
  assert (dot_plus (starts_with [q; 58]) rest' = None) as ->; [|done].
  apply dot_plus_none. intros n.
  destruct (starts_with [q; 58] (drop (S n) rest')) eqn:Hstart; [|done].
  destruct Hcolon. apply starts_with_drop in Hstart.
  apply (occurs_elem _ _ 58) in Hstart; [|right; by left].
  simpl. by rewrite drop_0.
Qed.

(** C8, amended.  On a key line whose key loads as one character,
    [transform_line] replaces the key by a double quote, a backslash and
    [u], the number of the character in uppercase hexadecimal digits,
    padded with zeros to at least four (exactly four below [0x10000]), and
    a double quote; the rest of the line is the same up to comment
    padding.  For a document of which every line is such a key line or a
    line without match of [KEY_RE], which a line is that does not begin
    with ["- "] or two spaces or that has no colon behind its third
    character, [transform] returns these lines, each key line so
    rewritten, joined by line feeds: be the document the lines joined by
    line feeds, with or without a line feed at its end, or any text that
    [splitlines] splits into such lines. *)
Theorem key_escape `{Externals} :
  (∀ prefix key rest c,
     key_line prefix key rest → yaml_load key = Ok (YStr [c]) →
     transform_line (prefix ++ key ++ 58 :: rest)
     = Ok (prefix ++ [34; 92; 117] ++ format_04X c ++ [34]
           ++ 58 :: comment_pad_sub 0 rest))
  ∧ (∀ lines,
       Forall (Forall (λ x, is_linebreak x = false)) lines →
       last lines ≠ Some [] →
       Forall (λ line, ∃ out, transformed line out) lines →
       ∃ outs, Forall2 transformed lines outs
         ∧ transform (str_join [10] lines) = Ok (str_join [10] outs)
         ∧ transform (str_join [10] (lines ++ [[]])) = Ok (str_join [10] outs))
  ∧ (∀ text,
       Forall (λ line, ∃ out, transformed line out) (splitlines text) →
       ∃ outs, Forall2 transformed (splitlines text) outs
         ∧ transform text = Ok (str_join [10] outs))
  ∧ (∀ line out1 out2,
       transformed line out1 → transformed line out2 → out1 = out2)
  ∧ (∀ line, take 2 line ≠ lit "- " → take 2 line ≠ lit "  " →
       key_re_search line = None)
  ∧ (∀ line, 58 ∉ drop 3 line → key_re_search line = None)
  ∧ (∀ c, (4 ≤ length (format_04X c))%nat
          ∧ Forall is_upper_hex (format_04X c)
          ∧ hex_value (format_04X c) = c
          ∧ (c < 65536 → length (format_04X c) = 4%nat)).
Proof.
  assert (∀ lines, Forall (λ line, ∃ out, transformed line out) lines →
            ∃ outs, Forall2 transformed lines outs
              ∧ transform_lines lines = Ok outs) as Hlines.
  { intros lines Hall.
    assert (∃ outs, Forall2 transformed lines outs) as [outs Houts].
    { induction Hall as [|line lines [out Hout] _ [outs IH]];
        [exists []; constructor|].
      exists (out :: outs). by constructor. }
    exists outs. split; [done|]. apply transform_lines_Forall2.
    eapply Forall2_impl; [exact Houts|]. apply transformed_transform_line. }
  split; [|split; [|split; [|split; [|split; [|split]]]]].
  - intros prefix key rest c Hline Hload.
    apply transformed_transform_line. by constructor.
  - intros lines Hbreaks Hlast Hall. unfold transform.
    destruct (splitlines_from_join_both lines Hbreaks Hlast) as [-> ->].
    destruct (Hlines lines Hall) as (outs & Houts & ->). by exists outs.
  - intros text Hall. unfold transform.
    destruct (Hlines _ Hall) as (outs & Houts & ->). by exists outs.
  - intros line out1 out2 H1%transformed_transform_line
      H2%transformed_transform_line. congruence.
  - apply key_re_search_no_prefix.
  - apply key_re_search_no_colon.
  - apply format_04X_spec.
Qed.

Lemma key_escape_witness :
  let lines := [lit "# names"; lit "- " ++ lit "'A'" ++ 58 :: lit " LETTER_A   # A";
                lit "  " ++ lit "B" ++ 58 :: lit " [B, LETTER_B]"] in
  let outs := [lit "# names";
               lit "- " ++ [34; 92; 117] ++ lit "0041" ++ [34] ++ lit ": LETTER_A # A";
               lit "  " ++ [34; 92; 117] ++ lit "0042" ++ [34] ++ lit ": [B, LETTER_B]"] in
  @transform ascii_externals (str_join [10] lines) = Ok (str_join [10] outs)
  ∧ @transform ascii_externals (str_join [10] (lines ++ [[]]))
    = Ok (str_join [10] outs).
Proof.
  intros lines outs.
  destruct (@key_escape ascii_externals) as (_ & Hdoc & _).
  destruct (Hdoc lines) as (outs' & Houts & Hrun & Hrun').
  - apply (bool_decide_unpack _). vm_compute. reflexivity.
  - done.
  - constructor; [|constructor; [|constructor; [|constructor]]].
    + eexists. by apply transformed_other.
    + eexists. apply (transformed_key _ _ _ 65); [|reflexivity].
      split; [by left|]. split.
      * vm_compute. intros Hin.
        repeat (apply elem_of_cons in Hin as [Hin|Hin]; [discriminate|]).
        by apply elem_of_nil in Hin.
      * right. exists 39, [65]. repeat split; [done|].
        intros (pre & post & Heq). vm_compute in Heq.
        repeat (destruct pre as [|? pre]; [discriminate|injection Heq as _ Heq]).
        by destruct pre.
    + eexists. apply (transformed_key _ _ _ 66); [|reflexivity].
      split; [by right|]. split.
      * vm_compute. intros Hin.
        repeat (apply elem_of_cons in Hin as [Hin|Hin]; [discriminate|]).
        by apply elem_of_nil in Hin.
      * left. exists 66, []. repeat split. vm_compute. intros Hin.
        repeat (apply elem_of_cons in Hin as [Hin|Hin]; [discriminate|]).
        by apply elem_of_nil in Hin.
  - assert (@transform ascii_externals (str_join [10] lines)
            = Ok (str_join [10] outs)) as Hvalue by reflexivity.
    assert (str_join [10] outs' = str_join [10] outs) as Heq by congruence.
    rewrite Heq in Hrun, Hrun'. by split.
Defined.

(** C8 as stated fails on a key line with a colon behind the key: [KEY_RE]
    takes the text up to the last colon of the line as the key, here
    [A: a] for the key [A], and [transform] raises [TypeError] since that
    text does not load as one character. *)
Lemma key_escape_later_colon :
  let line := lit "- A: a:b # A" in
  line = lit "- " ++ lit "A" ++ 58 :: lit " a:b # A"
  ∧ @yaml_load ascii_externals (lit "A") = Ok (YStr [65])
  ∧ key_re_search line = Some (lit "- ", lit "A: a", lit ":b # A")
  ∧ @transform ascii_externals line = Raise TypeError.
Proof. intros line. repeat split; reflexivity. Qed.

(** ** The comment padding *)




